(** * cinema-scraper: the reconciler, the showtime walker and the cell budget

    A shallow embedding of [scraper.py]: [merge_data], [parse_showtimes_from_html],
    [scrape_aggregated_showtimes] and the truncation step of [main_scraper],
    followed by the properties the specification states about them.

    Conventions of the embedding.
    - A Python [str] is a Rocq [string]; one [ascii] stands for one character,
      so [len] is [String.length] and [<] on strings is the character-wise
      lexicographic order ([String.ltb]).
    - The values a row holds are [str], [int] and [None] ([value]).
    - A Python exception is the [None] of an [option] result, except in the
      walker, which has its own [try]/[except] and a monad to match.
    - A [dict] whose iteration order is observable (the collection that
      [merge_data] sorts, the showtime tables that are serialised) is an
      insertion-ordered association list ([odict]); a row, read and written
      by key only, is a [gmap string value].
    - [merge_data] updates rows in place; the embedding names a row by its key
      in [updated_data], which is exact as long as no row object sits under
      two keys. A collection keyed by title ([collection_ok]) has none, a row
      having one title, and the rows of [main_scraper] are distinct objects. *)

From Stdlib Require Import ZArith String Ascii List Sorted Permutation Lia Bool.
From Stdlib Require Import DecimalString DecimalN DecimalZ.
From stdpp Require Import base decidable option list strings sorting gmap fin_maps.

Local Open Scope string_scope.
Local Open Scope list_scope.
Local Open Scope Z_scope.

(* ===================================================================== *)
(** ** Python values and built-ins *)
(* ===================================================================== *)

Module Py.

(** The values found in a row: [str], [int], [None]. *)
Inductive value : Type :=
  | VNone
  | VInt (z : Z)
  | VStr (s : string).

#[global] Instance value_eq_dec : EqDecision value.
Proof. solve_decision. Defined.

(** [bool(v)]. *)
Definition truthy (v : value) : bool :=
  match v with
  | VNone => false
  | VInt z => negb (z =? 0)
  | VStr s => negb (String.eqb s EmptyString)
  end.

(** [a != b]. *)
Definition ne (a b : value) : bool := negb (bool_decide (a = b)).

(** [a < b]; [None] is the [TypeError] of an unsupported pair. *)
Definition lt (a b : value) : option bool :=
  match a, b with
  | VStr s, VStr t => Some (String.ltb s t)
  | VInt x, VInt y => Some (x <? y)
  | _, _ => None
  end.

(** [isinstance(v, str)]. *)
Definition is_str (v : value) : Prop := ∃ s, v = VStr s.

(** The string under a [str] value. *)
Definition str_of (v : value) : string :=
  match v with VStr s => s | _ => EmptyString end.

(** The order of [str]: [a <= b] and [a < b]. *)
Definition str_le (a b : string) : Prop := String.leb a b = true.
Definition str_lt (a b : string) : Prop := String.ltb a b = true.

(** [len(s)]. *)
Definition len (s : string) : Z := Z.of_nat (String.length s).

(** [s[:n]] for [n >= 0]. *)
Fixpoint first_chars (n : nat) (s : string) : string :=
  match n, s with
  | S n', String c s' => String c (first_chars n' s')
  | _, _ => EmptyString
  end.

Definition slice_to (n : Z) (s : string) : string := first_chars (Z.to_nat n) s.

(** [c.isspace()] on the characters below 256. *)
Definition isspace (c : ascii) : bool :=
  let n := Z.of_N (N_of_ascii c) in
  ((9 <=? n) && (n <=? 13)) || ((28 <=? n) && (n <=? 32))
  || (n =? 133) || (n =? 160).

Fixpoint lstrip (s : string) : string :=
  match s with
  | String c s' => if isspace c then lstrip s' else s
  | EmptyString => EmptyString
  end.

Fixpoint rstrip (s : string) : string :=
  match s with
  | String c s' =>
      match rstrip s' with
      | EmptyString => if isspace c then EmptyString else String c EmptyString
      | r => String c r
      end
  | EmptyString => EmptyString
  end.

(** [s.strip()]. *)
Definition strip (s : string) : string := rstrip (lstrip s).

(** *** Insertion-ordered dictionaries *)

Definition odict (K V : Type) : Type := list (K * V).

Section odict.
Context {K V : Type} `{EqDecision K}.

(** [d.get(k)]; [d[k]] raises [KeyError] where this is [None]. *)
Fixpoint od_get (k : K) (d : odict K V) : option V :=
  match d with
  | [] => None
  | (k', v) :: d' => if decide (k = k') then Some v else od_get k d'
  end.

(** [k in d]. *)
Definition od_mem (k : K) (d : odict K V) : bool :=
  match od_get k d with Some _ => true | None => false end.

(** [d[k] = v]: a present key keeps its position, a new one goes last. *)
Fixpoint od_set (k : K) (v : V) (d : odict K V) : odict K V :=
  match d with
  | [] => [(k, v)]
  | (k', v') :: d' =>
      if decide (k = k') then (k', v) :: d' else (k', v') :: od_set k v d'
  end.

(** [d.keys()], [d.values()]. *)
Definition od_keys (d : odict K V) : list K := map fst d.
Definition od_values (d : odict K V) : list V := map snd d.

(** What makes an association list a dictionary: no key twice. *)
Definition od_wf (d : odict K V) : Prop := NoDup (od_keys d).
End odict.

(** *** [sorted(l, key=...)]

    [list.sort] only asks [<] of the keys and is stable; a stable sort is
    determined by its comparison, so insertion from the right stands for it.
    With two or more rows a key pair that [<] does not support is reached
    and the [TypeError] propagates. *)
Section sorted.
Context {A : Type} (key : A → value).

Fixpoint insert_sorted (x : A) (l : list A) : option (list A) :=
  match l with
  | [] => Some [x]
  | y :: l' =>
      b ← lt (key y) (key x);
      if (b : bool) then cons y <$> insert_sorted x l' else Some (x :: y :: l')
  end.

Fixpoint sorted (l : list A) : option (list A) :=
  match l with
  | [] => Some []
  | x :: l' => s ← sorted l'; insert_sorted x s
  end.

(** [a] may stand before [b]: [b < a] is defined and false. *)
Definition ascending (a b : A) : Prop := lt (key b) (key a) = Some false.
End sorted.

End Py.

(* ===================================================================== *)
(** ** The reconciler: [merge_data] *)
(* ===================================================================== *)

Module Merge.
Import Py.

(** A row of the sheet, a [dict] from column header to cell. *)
Abbreviation record := (gmap string value).

(** The keyed collection, [dict[str, dict]], in insertion order. *)
Abbreviation collection := (odict value record).

(** [value and value != 'N/A'] (line 96). *)
Definition overwrites (v : value) : bool := truthy v && ne v (VStr "N/A").

(** Lines 95-96: [for key, value in movie.items(): if ...: target[key] = value].
    The assignments touch distinct keys, so the order of [items()] does not
    show in the result. *)
Definition overwrite_fields (target movie : record) : record :=
  map_fold (λ key v acc, if overwrites v then <[key := v]> acc else acc)
           target movie.

(** Lines 95-97, the update of an entry already present. *)
Definition update_entry (target movie : record) : option record :=
  let target' := overwrite_fields target movie in
  scrape_date ← movie !! "Scrape Date";
  Some (<["Scrape Date" := scrape_date]> target').

(** Lines 92-102, one turn of the loop over [fresh_data]. *)
Definition merge_step (updated_data : collection) (movie : record)
  : option collection :=
  title ← movie !! "Movie Title";
  match od_get title updated_data with
  | Some target =>
      target' ← update_entry target movie;
      Some (od_set title target' updated_data)
  | None => Some (od_set title movie updated_data)
  end.

(** Lines 88-102: [updated_data] when the loop is over. *)
Fixpoint merge_loop (updated_data : collection) (fresh_data : list record)
  : option collection :=
  match fresh_data with
  | [] => Some updated_data
  | movie :: rest =>
      updated_data' ← merge_step updated_data movie;
      merge_loop updated_data' rest
  end.

(** [lambda x: x.get('Movie Title', '')] (line 104). *)
Definition title_key (x : record) : value :=
  default (VStr EmptyString) (x !! "Movie Title").

Definition merge_data (existing_data : collection) (fresh_data : list record)
  : option (list record) :=
  updated_data ← merge_loop existing_data fresh_data;
  sorted title_key (od_values updated_data).

(** *** The data model the reconciler is given

    A persisted collection is a dictionary whose keys are strings and equal
    the title of their row; a fresh row has a string title and a scrape date. *)

Definition keyed_by_title (d : collection) : Prop :=
  Forall (λ kr, is_str kr.1 ∧ kr.2 !! "Movie Title" = Some kr.1) d.

Definition collection_ok (d : collection) : Prop := od_wf d ∧ keyed_by_title d.

Definition has_title (r : record) : Prop := ∃ s, r !! "Movie Title" = Some (VStr s).

Definition row_ok (r : record) : Prop := has_title r ∧ is_Some (r !! "Scrape Date").

Definition inputs_ok (existing_data : collection) (fresh_data : list record) : Prop :=
  collection_ok existing_data ∧ Forall row_ok fresh_data.

(** The rows of an output that carry the title [t]. *)
Definition titled (t : value) (out : list record) : list record :=
  filter (λ r, r !! "Movie Title" = Some t) out.

(** A cell that holds a real value: present, truthy and not the sentinel. *)
Definition real (cell : option value) : Prop :=
  match cell with Some v => overwrites v = true | None => False end.

(** What lines 95-96 leave in a field: the fresh value when it overwrites,
    the old cell otherwise. *)
Definition field_merge (old fresh : option value) : option value :=
  match fresh with
  | Some v => if overwrites v then Some v else old
  | None => old
  end.


(** Field-level non-regression at a title and a field: a real value of the
    existing row is still real in the merged row. *)
Definition never_regresses (existing_data : collection) (fresh_data : list record)
    (t : value) (key : string) : Prop :=
  ∀ old out merged,
    od_get t existing_data = Some old → merge_data existing_data fresh_data = Some out →
    merged ∈ titled t out → real (old !! key) → real (merged !! key).

(** Last-wins by row: the entry of a title carried by several fresh rows is
    the last of them. *)
Definition last_wins (existing_data : collection) (fresh_data : list record)
    (t : value) : Prop :=
  ∀ pre last post out,
    fresh_data = pre ++ last :: post →
    last !! "Movie Title" = Some t →
    Exists (λ m, m !! "Movie Title" = Some t) pre →
    Forall (λ m, m !! "Movie Title" ≠ Some t) post →
    merge_data existing_data fresh_data = Some out → titled t out = [last].

End Merge.

(* ===================================================================== *)
(** ** Showtime extraction and the session walker *)
(* ===================================================================== *)

Module Showtimes.
Import Py.

(** *** What the selectors see of a page

    [BeautifulSoup] is outside the program; a parsed page is what the
    selectors of the program return on it. *)

(** An element of [soup.select('#ShowtimesList > a, #ShowtimesList > div')]. *)
Inductive element : Type :=
  | Anchor (b_text : option string)
      (** an [a]; [find('b')] and the text of what it found *)
  | Block (labels : list string).
      (** a [div]; the text of each match of ['div.showbox a, div.showbox'] *)

Record soup : Type := Soup {
  date_dropdown : option (list (option string * string));
    (** [#ctl00_cphContent_ctl00_ddlShowdate]: for each [option] element its
        [value] attribute and its text *)
  viewstate_field : option (option string);
    (** [#__VIEWSTATE] and its [value] attribute *)
  eventvalidation_field : option (option string);
    (** [#__EVENTVALIDATION] and its [value] attribute *)
  showtimes_list : list element
}.

(** Cinema name to time labels, one page. *)
Abbreviation page_table := (odict string (list string)).

(** [list(set(l))]: the order a [set] iterates in is not fixed, and
    [sorted] of strings does not depend on it ([sorted_labels_perm] below). *)
Definition set_list (l : list string) : list string := remove_dups l.

Definition nonempty (s : string) : bool := negb (String.eqb s EmptyString).

(** Lines 126-135, the body of the loop over the elements. *)
Definition scan_element (st : page_table * string) (el : element)
  : option (page_table * string) :=
  let '(showtimes, current_cinema) := st in
  match el with
  | Anchor (Some b_text) =>
      let current_cinema := strip b_text in
      if od_mem current_cinema showtimes
      then Some (showtimes, current_cinema)
      else Some (od_set current_cinema [] showtimes, current_cinema)
  | Anchor None => Some st
  | Block labels =>
      let times := filter (λ t, nonempty t = true) (map strip labels) in
      if negb (bool_decide (times = []))
         && negb (String.eqb current_cinema "N/A")
      then
        old ← od_get current_cinema showtimes;
        Some (od_set current_cinema (old ++ times) showtimes, current_cinema)
      else Some st
  end.

Fixpoint scan_elements (st : page_table * string) (els : list element)
  : option (page_table * string) :=
  match els with
  | [] => Some st
  | el :: els' => st' ← scan_element st el; scan_elements st' els'
  end.

(** Lines 137-138. *)
Fixpoint dedup_sort (showtimes : page_table) : option page_table :=
  match showtimes with
  | [] => Some []
  | (cinema, times) :: rest =>
      times' ← sorted VStr (set_list times);
      rest' ← dedup_sort rest;
      Some ((cinema, times') :: rest')
  end.

Definition parse_showtimes_from_html (page : soup) : option page_table :=
  st ← scan_elements ([], "N/A") (showtimes_list page);
  dedup_sort st.1.

(** Invariant of the scan: the current cinema, once one is set, has an entry. *)
Definition current_known (st : page_table * string) : Prop :=
  st.2 ≠ "N/A" → is_Some (od_get st.2 st.1).

(** The table of a page; extraction never raises (shown below), so the
    default is never taken. *)
Definition table_of (page : soup) : page_table :=
  default [] (parse_showtimes_from_html page).

(** [never_timed c cur els]: scanning [els], no time block is met while the
    cinema [c] is the current one; [cur] tells whether it is at the start. *)
Fixpoint never_timed (c : string) (cur : bool) (els : list element) : bool :=
  match els with
  | [] => true
  | Anchor (Some b_text) :: els' => never_timed c (String.eqb (strip b_text) c) els'
  | Anchor None :: els' => never_timed c cur els'
  | Block _ :: els' => negb cur && never_timed c cur els'
  end.

(** An element that introduces no cinema. *)
Definition no_intro (el : element) : Prop :=
  match el with Anchor (Some _) => False | _ => True end.

(** The reading under which a cinema without a time block leaves no entry. *)
Definition drops_silent_cinema (page : soup) (c : string) : Prop :=
  never_timed c false (showtimes_list page) = true →
  ∀ t, parse_showtimes_from_html page = Some t → od_get c t = None.

(** *** The payload and its serialisation *)

Record showing : Type := Showing { date : string; times : list string }.
Record cinema_entry : Type :=
  CinemaEntry { cinemaName : string; showings : list showing }.

Definition dquote : ascii := "034"%char.
Definition backslash : ascii := "092"%char.

Definition hex_digit (n : N) : ascii :=
  match String.get (N.to_nat n) "0123456789abcdef" with
  | Some c => c
  | None => "0"%char
  end.

(** [json.dumps] of a [str] with [ensure_ascii]: quote and backslash are
    escaped, the five short escapes, every other character outside
    space..tilde as [\uXXXX]. *)
Definition escape_char (c : ascii) : string :=
  let n := N_of_ascii c in
  if (n =? 34)%N then String backslash (String dquote EmptyString)
  else if (n =? 92)%N then String backslash (String backslash EmptyString)
  else if (n =? 10)%N then String backslash "n"
  else if (n =? 13)%N then String backslash "r"
  else if (n =? 9)%N then String backslash "t"
  else if (n =? 8)%N then String backslash "b"
  else if (n =? 12)%N then String backslash "f"
  else if ((32 <=? n) && (n <=? 126))%N then String c EmptyString
  else String backslash
         ("u00" +:+ String (hex_digit (n / 16)) (String (hex_digit (n mod 16)) EmptyString)).

Fixpoint escape (s : string) : string :=
  match s with
  | EmptyString => EmptyString
  | String c s' => escape_char c +:+ escape s'
  end.

Definition dumps_str (s : string) : string :=
  String dquote (escape s +:+ String dquote EmptyString).

(** A JSON array with [','] as the item separator. *)
Definition dumps_list {A : Type} (f : A → string) (l : list A) : string :=
  "[" +:+ String.concat "," (map f l) +:+ "]".

Definition dumps_key (k : string) : string := dumps_str k +:+ ":".

Definition dumps_showing (s : showing) : string :=
  "{" +:+ dumps_key "date" +:+ dumps_str (date s) +:+ ","
      +:+ dumps_key "times" +:+ dumps_list dumps_str (times s) +:+ "}".

Definition dumps_entry (e : cinema_entry) : string :=
  "{" +:+ dumps_key "cinemaName" +:+ dumps_str (cinemaName e) +:+ ","
      +:+ dumps_key "showings" +:+ dumps_list dumps_showing (showings e) +:+ "}".

(** [json.dumps(final_json, separators=(',', ':'))]. *)
Definition json_dumps (final_json : list cinema_entry) : string :=
  dumps_list dumps_entry final_json.

(** Date label to page table, in the order the dates were first visited. *)
Abbreviation dates_table := (odict string page_table).

(** Lines 205-207. *)
Definition add_showing (date_str : string) (cinema_map : odict string cinema_entry)
    (item : string * list string) : odict string cinema_entry :=
  let '(cinema_name, times) := item in
  let s := Showing date_str times in
  match od_get cinema_name cinema_map with
  | None => od_set cinema_name (CinemaEntry cinema_name [s]) cinema_map
  | Some e =>
      od_set cinema_name (CinemaEntry (cinemaName e) (showings e ++ [s])) cinema_map
  end.

(** Lines 201-209. *)
Definition restructure (all_dates_data : dates_table) : list cinema_entry :=
  od_values
    (foldl (λ cinema_map '(date_str, cinemas),
              foldl (add_showing date_str) cinema_map cinemas)
           [] all_dates_data).

(** The inner loop of [restructure], for one date of the table. *)
Definition add_date (cinema_map : odict string cinema_entry) (visit : string * page_table)
  : odict string cinema_entry :=
  foldl (add_showing visit.1) cinema_map visit.2.

(** Invariant of [restructure]: every entry sits under its own name. *)
Definition named (cinema_map : odict string cinema_entry) : Prop :=
  ∀ c e, od_get c cinema_map = Some e → cinemaName e = c.

(** The cinema [c] has the showing [s] in the cinema map. *)
Definition shows (cinema_map : odict string cinema_entry) (c : string) (s : showing) : Prop :=
  ∃ e, od_get c cinema_map = Some e ∧ s ∈ showings e.

(** *** The session: requests, replies and the trace *)

Inductive request : Type :=
  | Get (url : string)
  | Post (url : string) (data : list (string * option string)).

(** What a request comes back with: the transport raised, or a response
    with its status code and parsed body. *)
Inductive reply : Type :=
  | Failed
  | Response (status_code : Z) (body : soup).

(** The observable steps of a walk, oldest first. *)
Inductive event : Type :=
  | Sent (r : request)
  | Slept (seconds : Z)
  | Parsed (page : soup).

Definition is_sent (e : event) : bool :=
  match e with Sent _ => true | _ => false end.

(** Number of requests in a trace. *)
Definition requests_sent (log : list event) : nat :=
  length (filter (λ e, is_sent e = true) log).

(** A computation inside the [try] of the walker: it extends the trace and
    either yields a value or raises ([None]). *)
Definition walk (A : Type) : Type := list event → option A * list event.

Definition ret {A} (a : A) : walk A := λ log, (Some a, log).
Definition raise {A} : walk A := λ log, (None, log).
Definition bind {A B} (m : walk A) (k : A → walk B) : walk B :=
  λ log, match m log with
         | (Some a, log') => k a log'
         | (None, log') => (None, log')
         end.
Definition emit (e : event) : walk unit := λ log, (Some tt, log ++ [e]).
Definition lift {A} (o : option A) : walk A :=
  match o with Some a => ret a | None => raise end.

Declare Scope walk_scope.
Delimit Scope walk_scope with walk.
Notation "x <- m ;; k" := (bind m (λ x, k))
  (at level 100, m at next level, right associativity) : walk_scope.
Notation "m ;;; k" := (bind m (λ _, k))
  (at level 100, right associativity) : walk_scope.

Definition MAX_DAYS_TO_SCRAPE : Z := 5.
Definition REQUEST_DELAY : Z := 2.

Definition DDL_TARGET : string := "ctl00$cphContent$ctl00$ddlShowdate".

(** Lines 175-182. *)
Definition form_data (viewstate eventvalidation : option string) (date_val : string)
  : list (string * option string) :=
  [ ("__EVENTTARGET", Some DDL_TARGET);
    ("__EVENTARGUMENT", Some EmptyString);
    ("__LASTFOCUS", Some EmptyString);
    ("__VIEWSTATE", viewstate);
    ("__EVENTVALIDATION", eventvalidation);
    (DDL_TARGET, Some date_val) ].

(** Line 158: the options whose [value] attribute is truthy. *)
Definition selectable (opts : list (option string * string)) : list (string * string) :=
  omap (λ '(v, txt), match v with
                     | Some v' => if nonempty v' then Some (v', txt) else None
                     | None => None
                     end) opts.

(** Line 159. *)
Definition truncate_days (date_options : list (string * string)) : list (string * string) :=
  if MAX_DAYS_TO_SCRAPE =? 0 then date_options
  else firstn (Z.to_nat MAX_DAYS_TO_SCRAPE) date_options.

(** Lines 161-162: the token of a hidden field, [""] when the field is absent. *)
Definition token (field : option (option string)) : option string :=
  match field with Some v => v | None => Some EmptyString end.

(** Lines 195-198: a token is replaced when the response carries the field. *)
Definition refresh (old : option string) (field : option (option string)) : option string :=
  match field with Some v => v | None => old end.

(** The variables the loop over the remaining dates reads and writes. *)
Record loop_state : Type := LoopState {
  viewstate : option string;
  eventvalidation : option string;
  all_dates_data : dates_table
}.

Section walker.
(** The transport: the reply to the [n]-th request of the session,
    counting from 0. The walk is deterministic, so a server that answers
    by what it is sent is covered by the sequence of its answers. *)
Variable client : nat → reply.
(** [httpx]'s [raise_for_status]: the status codes it raises on. *)
Variable raises_for_status : Z → bool.

(** [await client.get(...)], [await client.post(...)]. *)
Definition send (r : request) : walk (Z * soup) :=
  λ log, match client (requests_sent log) with
         | Failed => (None, log ++ [Sent r])
         | Response status_code body => (Some (status_code, body), log ++ [Sent r])
         end.

Definition sleep (seconds : Z) : walk unit := emit (Slept seconds).

(** A call of [parse_showtimes_from_html], recorded in the trace. *)
Definition parse (page : soup) : walk page_table :=
  (emit (Parsed page) ;;; lift (parse_showtimes_from_html page))%walk.

(** Lines 171-198; [break] leaves the loop with the state as it is. *)
Fixpoint post_loop (showtimes_url : string) (dates : list (string * string))
    (st : loop_state) : walk loop_state :=
  match dates with
  | [] => ret st
  | (date_val, date_txt) :: rest =>
      (sleep REQUEST_DELAY ;;;
       post_response <- send (Post showtimes_url
                                (form_data (viewstate st) (eventvalidation st) date_val)) ;;
       let '(status_code, post_soup) := post_response in
       if negb (status_code =? 200) then ret st
       else
         date_showtimes <- parse post_soup ;;
         post_loop showtimes_url rest
           (LoopState (refresh (viewstate st) (viewstate_field post_soup))
                      (refresh (eventvalidation st) (eventvalidation_field post_soup))
                      (od_set date_txt date_showtimes (all_dates_data st))))%walk
  end.

(** Lines 150-210, the body of the [try]. *)
Definition walk_dates (showtimes_url : string) : walk string :=
  (response <- send (Get showtimes_url) ;;
   let '(status_code, soup) := response in
   (if raises_for_status status_code then raise else ret tt) ;;;
   match date_dropdown soup with
   | None => ret "N/A"
   | Some options =>
       let date_options := truncate_days (selectable options) in
       let viewstate := token (viewstate_field soup) in
       let eventvalidation := token (eventvalidation_field soup) in
       match date_options with
       | [] => ret "N/A"
       | (_, first_txt) :: rest =>
           first_date_showtimes <- parse soup ;;
           st <- post_loop showtimes_url rest
                   (LoopState viewstate eventvalidation
                              (od_set first_txt first_date_showtimes [])) ;;
           ret (json_dumps (restructure (all_dates_data st)))
       end
   end)%walk.

(** [scrape_aggregated_showtimes]: the [except] turns any exception into
    the sentinel. The result comes with the trace of the walk. *)
Definition scrape_aggregated_showtimes (showtimes_url : string)
  : string * list event :=
  match walk_dates showtimes_url [] with
  | (Some payload, log) => (payload, log)
  | (None, log) => ("N/A", log)
  end.
End walker.

(** [raise_for_status] as [httpx] has it today: every status outside 2xx. *)
Definition httpx_raises (status_code : Z) : bool :=
  negb ((200 <=? status_code) && (status_code <? 300)).

(** *** Reading a trace *)

(** The date values posted, oldest first. *)
Definition posted_dates (log : list event) : list string :=
  omap (λ e, match e with
             | Sent (Post _ data) => mjoin (od_get DDL_TARGET data)
             | _ => None
             end) log.

(** The pages showtimes were extracted from, oldest first. *)
Definition parsed_pages (log : list event) : list soup :=
  omap (λ e, match e with Parsed page => Some page | _ => None end) log.

(** *** The dates of a walk and what the payload holds of them *)

(** [all_dates_data] after [all_dates_data[label] = table] for each visit,
    in order (lines 168 and 193). *)
Definition assign (acc : dates_table) (visit : string * page_table) : dates_table :=
  od_set visit.1 visit.2 acc.

Definition collect (visited : list (string * page_table)) : dates_table :=
  foldl assign [] visited.

(** The visits of a walk that stops at a failed postback: the date of the
    first page with its table, then, for each page a postback returned, the
    next date of [rest] with the table of that page. *)
Definition visits (first_txt : string) (rest : list (string * string))
    (page0 : soup) (pages : list soup) : list (string * page_table) :=
  zip (first_txt :: (snd <$> take (length pages) rest))
      (table_of <$> page0 :: pages).

(** The visits whose label no later visit carries. *)
Fixpoint last_visits (visited : list (string * page_table))
  : list (string * page_table) :=
  match visited with
  | [] => []
  | visit :: rest =>
      if bool_decide (visit.1 ∈ rest.*1) then last_visits rest
      else visit :: last_visits rest
  end.

(** The payload holds the data of every visit: each cinema of each visited
    page has an entry with a showing of that date and those times. *)
Definition keeps_every_date (final_json : list cinema_entry)
    (visited : list (string * page_table)) : Prop :=
  ∀ label table cinema times,
    (label, table) ∈ visited → (cinema, times) ∈ table →
    ∃ e, e ∈ final_json ∧ cinemaName e = cinema ∧
         Showing label times ∈ showings e.

End Showtimes.

(* ===================================================================== *)
(** ** The record builder: cell budget and row *)
(* ===================================================================== *)

Module Builder.
Import Py.

Definition SHEETS_CELL_CHAR_LIMIT : Z := 49900.
Definition TRUNCATION_MARKER : string := "...[TRUNCATED]".

(** Lines 292-294 of [main_scraper]. *)
Definition truncate_showtimes (showtimes_data : string) : string :=
  if SHEETS_CELL_CHAR_LIMIT <? len showtimes_data
  then slice_to SHEETS_CELL_CHAR_LIMIT showtimes_data +:+ TRUNCATION_MARKER
  else showtimes_data.

(** The budget read as a bound on what is stored for a payload. *)
Definition within_budget (showtimes_data : string) : Prop :=
  len (truncate_showtimes showtimes_data) ≤ SHEETS_CELL_CHAR_LIMIT.

(** [None] for an absent string, as [download_image] returns it. *)
Definition of_option (o : option string) : value :=
  match o with Some s => VStr s | None => VNone end.

(** Lines 291-306 of [main_scraper]: the row appended to [scraped_records],
    from the values computed above it. *)
Definition scraped_record (title movie_url description : string)
    (total_minutes : value) (formatted_date language genre distributor
     classification cast director format poster_url : string)
    (local_poster_path : option string) (showtimes_data scrape_date : string)
  : gmap string value :=
  let showtimes_data := truncate_showtimes showtimes_data in
  list_to_map
    [ ("Movie Title", VStr title); ("Movie URL", VStr movie_url);
      ("Description", VStr description);
      ("Running Time (Minutes)", total_minutes);
      ("Release Date (YYYY-MM-DD)", VStr formatted_date);
      ("Language", VStr language); ("Genre", VStr genre);
      ("Distributor", VStr distributor); ("Classification", VStr classification);
      ("Cast", VStr cast); ("Director", VStr director);
      ("Format", VStr format); ("Cinema Count", VStr "N/A");
      ("Poster URL", VStr poster_url);
      ("Local Poster Path", of_option local_poster_path);
      ("Aggregated Showtimes Data", VStr showtimes_data);
      ("Scrape Date", VStr scrape_date) ].

End Builder.

(* ===================================================================== *)
(** ** Sample inputs *)
(* ===================================================================== *)

Module Samples.
Import Py Merge Showtimes Builder.

(** A row reduced to the three columns the examples look at. *)
Definition row (title genre scrape_date : string) : record :=
  {[ "Movie Title" := VStr title; "Genre" := VStr genre;
     "Scrape Date" := VStr scrape_date ]}.

(** The example of the specification: a known genre, a fresh sentinel. *)
Definition sheet_a : collection :=
  [(VStr "Movie A", row "Movie A" "Action" "2024-01-01")].
Definition fresh_a : record := row "Movie A" "N/A" "2024-02-01".

(** A collection of two, handed over out of order, and a fresh batch. *)
Definition sheet_ba : collection :=
  [(VStr "Movie B", row "Movie B" "Drama" "2024-01-01");
   (VStr "Movie A", row "Movie A" "Action" "2024-01-01")].
Definition fresh_cb : list record :=
  [row "Movie C" "Comedy" "2024-02-01"; row "Movie B" "N/A" "2024-02-01"].

(** A fresh row whose scrape date is the sentinel. *)
Definition fresh_undated : record := row "Movie A" "Drama" "N/A".

(** A payload of [n] characters. *)
Fixpoint filler (n : nat) : string :=
  match n with O => EmptyString | S n' => String "x" (filler n') end.

(** One character over the budget. *)
Definition oversize : string := filler (Z.to_nat (SHEETS_CELL_CHAR_LIMIT + 1)).

(** A page that introduces one cinema and lists no time for it. *)
Definition lone_cinema : soup := Soup None None None [Anchor (Some "GSC")].

(** A showtime page with three dates, pre-rendered for the first. *)
Definition page_mon : soup :=
  Soup (Some [(Some "1", "Mon"); (Some "2", "Tue"); (Some "3", "Wed")])
       (Some (Some "vs0")) (Some (Some "ev0"))
       [Anchor (Some "GSC"); Block ["10:00"]].

(** What the postback for the second date returns. *)
Definition page_tue : soup :=
  Soup None (Some (Some "vs1")) None [Anchor (Some "GSC"); Block ["12:00"]].

Definition page_error : soup := Soup None None None [].

(** The first postback succeeds, the second comes back with a 500. *)
Definition failing_client (first_page : soup) (n : nat) : reply :=
  match n with
  | O => Response 200 first_page
  | S O => Response 200 page_tue
  | _ => Response 500 page_error
  end.

(** The same page with the first two dates under one label. *)
Definition page_mon_twice : soup :=
  Soup (Some [(Some "1", "Mon"); (Some "2", "Mon"); (Some "3", "Tue")])
       (Some (Some "vs0")) (Some (Some "ev0"))
       [Anchor (Some "GSC"); Block ["10:00"]].

(** A showtime page without the date selector, and one whose selector has
    no option with a value. *)
Definition page_no_dropdown : soup :=
  Soup None None None [Anchor (Some "GSC"); Block ["10:00"]].
Definition page_no_values : soup :=
  Soup (Some [(None, "Select a date"); (Some EmptyString, "--")]) None None
       [Anchor (Some "GSC"); Block ["10:00"]].

(** A server that answers every request with the same page. *)
Definition steady_client (page : soup) (n : nat) : reply := Response 200 page.

(** Two fresh rows with one title; the second lost its genre. *)
Definition twin_1 : record := row "Movie A" "Action" "2024-02-01".
Definition twin_2 : record := row "Movie A" "N/A" "2024-02-02".

End Samples.

(* ===================================================================== *)
(** ** The sink adapter: [read_master_sheet], [update_master_sheet] *)
(* ===================================================================== *)

Module Sheet.
Import Py Merge.

(** The dict comprehension of line 81, row by row; a row without the
    column raises [KeyError]. *)
Fixpoint index_by_title (d : collection) (records : list record) : option collection :=
  match records with
  | [] => Some d
  | r :: records' =>
      title ← r !! "Movie Title";
      index_by_title (od_set title r d) records'
  end.

(** [read_master_sheet]. [records] is what [worksheet.get_all_records()]
    returned, [None] when it raised; the [except] turns every exception
    into the empty collection. *)
Definition read_master_sheet (records : option (list record)) : collection :=
  match records ≫= index_by_title [] with
  | Some d => d
  | None => []
  end.

(** Lines 73 and 113. *)
Definition HEADERS : list string :=
  [ "Movie Title"; "Movie URL"; "Description"; "Running Time (Minutes)";
    "Release Date (YYYY-MM-DD)"; "Language"; "Genre"; "Distributor";
    "Classification"; "Cast"; "Director"; "Format"; "Cinema Count";
    "Poster URL"; "Local Poster Path"; "Aggregated Showtimes Data";
    "Scrape Date" ].

(** [str(v)]. *)
Definition py_str (v : value) : string :=
  match v with
  | VNone => "None"
  | VInt z => DecimalString.NilZero.string_of_int (Z.to_int z)
  | VStr s => s
  end.

(** [[str(d.get(h, '')) for h in headers]] (line 114). *)
Definition sheet_row (d : record) : list string :=
  (λ h, py_str (default (VStr EmptyString) (d !! h))) <$> HEADERS.

Definition rows_to_write (data : list record) : list (list string) :=
  HEADERS :: (sheet_row <$> data).

(** The calls made on the worksheet. *)
Inductive sheet_call : Type :=
  | Clear
  | Update (rows : list (list string)) (value_input_option : string).

(** [update_master_sheet], as the calls it makes on the worksheet, in
    order. [clear_raises] tells whether [worksheet.clear()] raises; an
    exception of either call is caught and ends the function. *)
Definition update_master_sheet (clear_raises : bool) (data : list record)
  : list sheet_call :=
  match data with
  | [] => []
  | _ =>
      if clear_raises then [Clear]
      else [Clear; Update (rows_to_write data) "USER_ENTERED"]
  end.

(** Lines 309-313 of [main_scraper]: the calls made on the worksheet once
    the listing is walked; [None] when [merge_data] raises. *)
Definition reconcile (clear_raises : bool) (existing_movie_data : collection)
    (scraped_records : list record) : option (list sheet_call) :=
  match scraped_records with
  | [] => Some []
  | _ =>
      final_data ← merge_data existing_movie_data scraped_records;
      Some (update_master_sheet clear_raises final_data)
  end.

(** [isinstance(v, int)]. *)
Definition is_int (v : value) : Prop := ∃ z, v = VInt z.

End Sheet.

(* ===================================================================== *)
(** ** Vocabulary of the further properties *)
(* ===================================================================== *)

Module Props.
Import Py Merge Showtimes.

(** Rows sit under their own title. *)
Definition own_title (d : collection) : Prop :=
  Forall (λ kr, kr.2 !! "Movie Title" = Some kr.1) d.

(** The cinema names a list of elements introduces. *)
Definition introduced (els : list element) (c : string) : Prop :=
  ∃ b_text, Anchor (Some b_text) ∈ els ∧ strip b_text = c.

(** The labels a list of elements offers: the stripped, non-empty texts of
    its time blocks. *)
Definition offered (els : list element) (l : string) : Prop :=
  l ≠ EmptyString ∧ ∃ labels raw, Block labels ∈ els ∧ raw ∈ labels ∧ strip raw = l.

(** Invariant of the scan of a page: the table is a dictionary, its names
    were introduced, its labels were offered. *)
Definition scanned (els : list element) (showtimes : page_table) : Prop :=
  od_wf showtimes ∧
  (∀ c, c ∈ od_keys showtimes → introduced els c) ∧
  (∀ c ts l, (c, ts) ∈ showtimes → l ∈ ts → offered els l).

(** The form data of the postbacks of a trace, oldest first. *)
Definition posted_forms (log : list event) : list (list (string * option string)) :=
  omap (λ e, match e with Sent (Post _ data) => Some data | _ => None end) log.

(** A session token after the responses [pages]: that of the first page,
    replaced by the field of each later page that has it. *)
Definition threaded (field : soup → option (option string)) (page0 : soup)
    (pages : list soup) : option string :=
  foldl (λ tok p, refresh tok (field p)) (token (field page0)) pages.

(** Every postback of the trace directly follows a pause of
    [REQUEST_DELAY]. *)
Definition paced (log : list event) : Prop :=
  ∀ before url data after,
    log = before ++ Sent (Post url data) :: after →
    ∃ earlier, before = earlier ++ [Slept REQUEST_DELAY].

(** Invariant of [restructure]: every entry sits under its own name, has a
    showing, and each of its showings is a cinema row of a date of [d]. *)
Definition restructured (d : dates_table) (cinema_map : odict string cinema_entry) : Prop :=
  od_wf cinema_map ∧
  Forall (λ ce, cinemaName ce.2 = ce.1 ∧ showings ce.2 ≠ [] ∧
                ∀ s, s ∈ showings ce.2 →
                     ∃ table, (date s, table) ∈ d ∧ (ce.1, times s) ∈ table)
         cinema_map.

(** What one fresh row leaves in the cell [key] of the entry it updates
    (lines 95-97), and what a whole batch leaves in the cell [key] of the
    entry of title [t]. *)
Definition cell_step (key : string) (movie : record) (old : option value)
  : option value :=
  if decide (key = "Scrape Date") then movie !! "Scrape Date"
  else field_merge old (movie !! key).

Definition cell_after (t : value) (key : string) (fresh : list record)
    (old : option value) : option value :=
  foldl (λ cell movie,
           if decide (movie !! "Movie Title" = Some t) then cell_step key movie cell
           else cell)
        old fresh.

(** Rows under their titles, in the order given. *)
Definition by_title (rows : list record) : collection :=
  (λ r, (title_key r, r)) <$> rows.

End Props.

(* ===================================================================== *)
(** ** More sample inputs *)
(* ===================================================================== *)

Module MoreSamples.
Import Py Merge Showtimes Samples.

(** The first postback succeeds, the second raises in the transport. *)
Definition raising_client (first_page : soup) (n : nat) : reply :=
  match n with
  | O => Response 200 first_page
  | S O => Response 200 page_tue
  | _ => Failed
  end.

(** Every postback succeeds and returns [page_tue]. *)
Definition succeeding_client (first_page : soup) (n : nat) : reply :=
  match n with
  | O => Response 200 first_page
  | _ => Response 200 page_tue
  end.

(** A transport that is down. *)
Definition dead_client (n : nat) : reply := Failed.

End MoreSamples.

(* ===================================================================== *)
(** ** The record builder: poster download, description, running time *)
(* ===================================================================== *)

Module Details.
Import Py.

(** *** [download_image] *)

(** ['/' in p]. *)
Fixpoint has_slash (p : string) : bool :=
  match p with
  | EmptyString => false
  | String c p' => Ascii.eqb c "/" || has_slash p'
  end.

(** [os.path.basename(p)] of [posixpath]: what follows the last ['/'] of
    [p]. *)
Fixpoint basename (p : string) : string :=
  match p with
  | EmptyString => EmptyString
  | String c p' =>
      if has_slash p' then basename p'
      else if Ascii.eqb c "/" then p' else String c p'
  end.

(** [p.endswith('/')], [p.startswith('/')]. *)
Fixpoint ends_with_slash (p : string) : bool :=
  match p with
  | EmptyString => false
  | String c EmptyString => Ascii.eqb c "/"
  | String _ p' => ends_with_slash p'
  end.

Definition starts_with_slash (p : string) : bool :=
  match p with String c _ => Ascii.eqb c "/" | EmptyString => false end.

(** [os.path.join(a, b)] of [posixpath]. *)
Definition path_join (a b : string) : string :=
  if starts_with_slash b then b
  else if String.eqb a EmptyString || ends_with_slash a then a +:+ b
  else a +:+ "/" +:+ b.

(** The calls [download_image] makes on the world, in order. *)
Inductive io_event : Type :=
  | MakeDirs (dir : string)
  | Fetch (url : string)
  | Open (path : string)
  | Write (path : string) (content : string).

(** What the request for the image comes back with: an exception, or a
    response. *)
Inductive image_reply : Type :=
  | FetchFailed
  | Fetched (status_code : Z) (content : string).

(** How a call ends: with a value, or with an exception that leaves it. *)
Inductive outcome (A : Type) : Type :=
  | Returned (a : A)
  | Escaped.
Arguments Returned {A} a.
Arguments Escaped {A}.

(** [download_image]. The world is given by what [os.makedirs], the
    request, [open] and [f.write] do: [makedirs_raises], [reply] with
    [raises_for_status], [open_raises], [write_raises]. [image_url] is
    [None] for a poster element without [src]. [os.makedirs] stands before
    the [try]: what it raises leaves the function; the exceptions of the
    other calls are caught. *)
Definition download_image (makedirs_raises : bool) (reply : image_reply)
    (raises_for_status : Z → bool) (open_raises write_raises : bool)
    (image_url : option string) (save_dir : string)
  : outcome (option string) * list io_event :=
  match image_url with
  | None => (Returned None, [])
  | Some url =>
      if String.eqb url EmptyString || String.eqb url "N/A" then (Returned None, [])
      else
        let filename := basename url in
        if makedirs_raises then (Escaped, [MakeDirs save_dir])
        else
          let full_save_path := path_join save_dir filename in
          match reply with
          | FetchFailed => (Returned None, [MakeDirs save_dir; Fetch url])
          | Fetched status_code content =>
              if raises_for_status status_code
              then (Returned None, [MakeDirs save_dir; Fetch url])
              else if open_raises
              then (Returned None,
                    [MakeDirs save_dir; Fetch url; Open full_save_path])
              else if write_raises
              then (Returned None,
                    [MakeDirs save_dir; Fetch url; Open full_save_path;
                     Write full_save_path content])
              else (Returned (Some full_save_path),
                    [MakeDirs save_dir; Fetch url; Open full_save_path;
                     Write full_save_path content])
          end
  end.

(** *** The description (line 253) *)

(** [children] is [container.children]: [Some text] for a string node,
    [None] for a tag. The first text longer than 50 characters once
    stripped, the sentinel when there is none. *)
Fixpoint description (children : list (option string)) : string :=
  match children with
  | [] => "N/A"
  | Some node :: rest =>
      if 50 <? len (strip node) then strip node else description rest
  | None :: rest => description rest
  end.

(** *** The running time (lines 262-265) *)

(** [\d] on the characters below 256. *)
Definition isdigit (c : ascii) : bool :=
  let n := N_of_ascii c in ((48 <=? n) && (n <=? 57))%N.

(** The longest run of digits at the head of [s], and what follows it. *)
Fixpoint span_digits (s : string) : string * string :=
  match s with
  | String c s' =>
      if isdigit c then let '(ds, rest) := span_digits s' in (String c ds, rest)
      else (EmptyString, s)
  | EmptyString => (EmptyString, EmptyString)
  end.

(** An ASCII letter in lower case. Among the characters below 256 a letter
    of the two patterns matches itself in either case and nothing else. *)
Definition lower (c : ascii) : ascii :=
  let n := N_of_ascii c in
  if ((65 <=? n) && (n <=? 90))%N then ascii_of_N (n + 32) else c.

(** [word] is at the head of [s], letter case aside. *)
Fixpoint starts_with_ci (word s : string) : bool :=
  match word, s with
  | EmptyString, _ => true
  | String w word', String c s' => Ascii.eqb (lower w) (lower c) && starts_with_ci word' s'
  | String _ _, EmptyString => false
  end.

(** [re.search(r'(\d+)\s*WORDs?', s, re.I)] and its group 1: the leftmost
    digit at which a run of digits, then white space, then [word] is found.
    The run is taken whole and the white space too: a shorter run is
    followed by a digit and a shorter white space by a white space, neither
    of which starts [word]; the optional [s] changes nothing. *)
Fixpoint search_count (word : string) (s : string) : option string :=
  match s with
  | EmptyString => None
  | String c s' =>
      if isdigit c then
        let '(ds, rest) := span_digits s in
        if starts_with_ci word (lstrip rest) then Some ds else search_count word s'
      else search_count word s'
  end.

(** The number a run of digits writes. *)
Definition digits_value (ds : string) : Z :=
  fold_left (λ acc c, 10 * acc + (Z.of_N (N_of_ascii c) - 48))
            (list_ascii_of_string ds) 0.

(** [int(ds)] for a run of digits. [max_str_digits] is
    [sys.get_int_max_str_digits()]: a longer run raises [ValueError]
    ([None]); [0] lifts the limit, and stands for the interpreters that
    have none. *)
Definition int_of_digits (max_str_digits : nat) (ds : string) : option Z :=
  if negb (max_str_digits =? 0)%nat && (max_str_digits <? String.length ds)%nat
  then None
  else Some (digits_value ds).

(** Lines 262-265: [total_minutes] from the text of the running time;
    [None] when [int] raises. *)
Definition running_time (max_str_digits : nat) (rt_str : string) : option value :=
  h ← match search_count "Hour" rt_str with
      | Some ds => n ← int_of_digits max_str_digits ds; Some (n * 60)
      | None => Some 0
      end;
  m ← match search_count "Minute" rt_str with
      | Some ds => int_of_digits max_str_digits ds
      | None => Some 0
      end;
  Some (if 0 <? h + m then VInt (h + m) else VStr "N/A").

(** A string of digits, a string without one. *)
Definition all_digits (s : string) : Prop :=
  Forall (λ c, isdigit c = true) (list_ascii_of_string s).

Definition no_digit (s : string) : Prop :=
  Forall (λ c, isdigit c = false) (list_ascii_of_string s).

End Details.

(* ===================================================================== *)
(** ** Facts about the Python built-ins *)
(* ===================================================================== *)

Module PyFacts.
Import Py.

Section odict_facts.
Context {K V : Type} `{EqDecision K}.
Implicit Types (d : odict K V) (k : K) (v : V).

Lemma od_get_set_eq k v d : od_get k (od_set k v d) = Some v.
Proof.
  induction d as [|[k' v'] d IH]; simpl.
  - by rewrite decide_True.
  - destruct (decide (k = k')) as [->|Hne]; simpl.
    + by rewrite decide_True.
    + by rewrite decide_False.
Qed.

Lemma od_get_set_ne k k' v d : k ≠ k' → od_get k' (od_set k v d) = od_get k' d.
Proof.
  intros Hne. induction d as [|[k1 v1] d IH]; simpl.
  - by rewrite decide_False.
  - destruct (decide (k = k1)) as [->|Hk]; simpl.
    + by rewrite !decide_False.
    + by rewrite IH.
Qed.

Lemma od_get_Some_elem k v d : od_get k d = Some v → (k, v) ∈ d.
Proof.
  induction d as [|[k' v'] d IH]; simpl; [done|].
  destruct (decide (k = k')) as [->|Hne].
  - intros [= ->]. left.
  - intros Hg. right. by apply IH.
Qed.

Lemma od_get_None k d : od_get k d = None ↔ k ∉ od_keys d.
Proof.
  induction d as [|[k' v'] d IH]; simpl.
  - split; [intros _; apply not_elem_of_nil|done].
  - rewrite not_elem_of_cons. destruct (decide (k = k')) as [->|Hne].
    + split; [done|]. by intros [? _].
    + rewrite IH. tauto.
Qed.

Lemma od_get_is_Some k d : is_Some (od_get k d) ↔ k ∈ od_keys d.
Proof.
  destruct (od_get k d) eqn:Hg.
  - split; [intros _|by eauto].
    apply od_get_Some_elem in Hg.
    apply (list_elem_of_fmap_2 fst) in Hg. exact Hg.
  - split; [by intros [? ?]|]. intros Hin. by apply od_get_None in Hg.
Qed.

Lemma od_elem_get k v d : od_wf d → (k, v) ∈ d → od_get k d = Some v.
Proof.
  unfold od_wf. induction d as [|[k' v'] d IH]; simpl.
  - intros _ Hin. by apply elem_of_nil in Hin.
  - rewrite NoDup_cons. intros [Hk Hnd] Hin.
    apply elem_of_cons in Hin as [[= -> ->]|Hin].
    + by rewrite decide_True.
    + destruct (decide (k = k')) as [->|Hne]; [|by apply IH].
      exfalso. apply Hk. apply (list_elem_of_fmap_2 fst) in Hin. exact Hin.
Qed.

(** A key that is present keeps its place; a new one joins at the end. *)
Lemma od_keys_set k v d :
  od_keys (od_set k v d) = if od_mem k d then od_keys d else od_keys d ++ [k].
Proof.
  unfold od_mem. induction d as [|[k' v'] d IH]; simpl; [done|].
  destruct (decide (k = k')) as [->|Hne]; simpl; [done|].
  rewrite IH. by destruct (od_get k d).
Qed.

Lemma od_wf_set k v d : od_wf d → od_wf (od_set k v d).
Proof.
  unfold od_wf. rewrite od_keys_set. unfold od_mem.
  destruct (od_get k d) eqn:Hg; [done|].
  intros Hnd. apply NoDup_app. split_and!; [done| |apply NoDup_singleton].
  intros x Hx ->%list_elem_of_singleton. by apply od_get_None in Hg.
Qed.

Lemma od_elem_set k v d : (k, v) ∈ od_set k v d.
Proof. apply od_get_Some_elem, od_get_set_eq. Qed.

Lemma od_elem_set_ne k k' v v' d :
  k ≠ k' → (k', v') ∈ d → (k', v') ∈ od_set k v d.
Proof.
  intros Hne. induction d as [|[k1 v1] d IH]; simpl.
  - intros Hin. by apply elem_of_nil in Hin.
  - intros Hin. apply elem_of_cons in Hin as [[= <- <-]|Hin].
    + rewrite decide_False by done. left.
    + destruct (decide (k = k1)); right; [done|by apply IH].
Qed.

Lemma od_elem_set_inv k k' v v' d :
  (k', v') ∈ od_set k v d → (k' = k ∧ v' = v) ∨ (k', v') ∈ d.
Proof.
  induction d as [|[k1 v1] d IH]; simpl.
  - intros [= -> ->]%list_elem_of_singleton. by left.
  - destruct (decide (k = k1)) as [->|Hne]; intros Hin;
      apply elem_of_cons in Hin as [[= -> ->]|Hin].
    + by left.
    + right. by right.
    + right. left.
    + destruct (IH Hin) as [?|?]; [by left|right; by right].
Qed.

(** The values after an assignment, up to order. *)
Lemma od_values_elem v d : v ∈ od_values d ↔ ∃ k, (k, v) ∈ d.
Proof.
  unfold od_values. rewrite list_elem_of_fmap. split.
  - intros [[k v'] [-> Hin]]. by exists k.
  - intros [k Hin]. by exists (k, v).
Qed.
End odict_facts.

(** *** The order of strings *)

Lemma ltb_asym a b : String.ltb a b = true → String.ltb b a = false.
Proof.
  unfold String.ltb. rewrite (String.compare_antisym a b).
  by destruct (String.compare b a).
Qed.

Lemma not_ltb_leb a b : String.ltb b a = false → str_le a b.
Proof.
  unfold str_le, String.ltb, String.leb. rewrite (String.compare_antisym a b).
  by destruct (String.compare b a).
Qed.

Lemma str_le_neq_lt a b : str_le a b → a ≠ b → str_lt a b.
Proof.
  unfold str_le, str_lt, String.leb, String.ltb. intros Hle Hne.
  destruct (String.compare a b) eqn:Hc; [|done|done].
  by apply String.compare_eq_iff in Hc.
Qed.

Lemma str_lt_irrefl a : ¬ str_lt a a.
Proof.
  intros H. pose proof (ltb_asym a a H) as H'.
  unfold str_lt in H. congruence.
Qed.

(** Ascending and pairwise distinct is strictly ascending. *)
Lemma Sorted_strict (l : list string) :
  Sorted str_le l → NoDup l → Sorted str_lt l.
Proof.
  induction 1 as [|a l Hs IH Hhd]; [constructor|].
  rewrite NoDup_cons. intros [Ha Hnd]. constructor; [by apply IH|].
  destruct Hhd as [|b l Hab]; constructor.
  apply str_le_neq_lt; [done|]. intros ->. apply Ha. left.
Qed.

Lemma str_lt_le a b : str_lt a b → str_le a b.
Proof.
  unfold str_lt, str_le, String.ltb, String.leb.
  by destruct (String.compare a b).
Qed.

#[global] Instance str_le_trans : Transitive str_le.
Proof.
  intros a b c Hab Hbc. apply Is_true_true.
  change (String.le a c). trans b; apply Is_true_true; assumption.
Qed.

#[global] Instance str_le_antisym : AntiSymm (=) str_le.
Proof. intros a b Hab Hba. by apply String.leb_antisym. Qed.

(** *** [sorted] *)

Lemma lt_asym a b : lt a b = Some true → lt b a = Some false.
Proof.
  destruct a, b; simpl; try done; intros [= Hlt]; f_equal.
  - lia.
  - by apply ltb_asym.
Qed.

Section sorted_facts.
Context {A : Type} (key : A → value).

Lemma insert_sorted_perm x l l' : insert_sorted key x l = Some l' → x :: l ≡ₚ l'.
Proof.
  revert l'. induction l as [|y l IH]; simpl; intros l'.
  - by intros [= <-].
  - destruct (lt (key y) (key x)) as [[]|]; simpl; [|by intros [= <-]|done].
    destruct (insert_sorted key x l) as [l1|]; simpl; [|done].
    intros [= <-]. rewrite Permutation_swap. by rewrite (IH l1).
Qed.

Lemma sorted_perm l l' : sorted key l = Some l' → l ≡ₚ l'.
Proof.
  revert l'. induction l as [|x l IH]; simpl; intros l'.
  - by intros [= <-].
  - destruct (sorted key l) as [s|]; simpl; [|done].
    intros Hi%insert_sorted_perm. by rewrite (IH s).
Qed.

Lemma insert_sorted_hd x l l' (a : A) :
  insert_sorted key x l = Some l' →
  ascending key a x → HdRel (ascending key) a l → HdRel (ascending key) a l'.
Proof.
  destruct l as [|y l]; simpl.
  - intros [= <-] Hx _. by constructor.
  - destruct (lt (key y) (key x)) as [[]|]; simpl; [| |done].
    + destruct (insert_sorted key x l); simpl; [|done].
      intros [= <-] _ Hhd. inversion Hhd; subst. by constructor.
    + intros [= <-] Hx _. by constructor.
Qed.

Lemma insert_sorted_Sorted x l l' :
  insert_sorted key x l = Some l' → Sorted (ascending key) l → Sorted (ascending key) l'.
Proof.
  revert l'. induction l as [|y l IH]; simpl; intros l'.
  - intros [= <-] _. repeat constructor.
  - destruct (lt (key y) (key x)) as [[]|] eqn:Hlt; simpl; [| |done].
    + destruct (insert_sorted key x l) as [l1|] eqn:Hins; simpl; [|done].
      intros [= <-] Hs. inversion Hs as [|? ? Hs' Hhd]; subst.
      constructor; [by apply IH|].
      eapply insert_sorted_hd; [done| |done]. by apply lt_asym.
    + intros [= <-] Hs. constructor; [done|]. by constructor.
Qed.

Lemma sorted_Sorted l l' : sorted key l = Some l' → Sorted (ascending key) l'.
Proof.
  revert l'. induction l as [|x l IH]; simpl; intros l'.
  - intros [= <-]. constructor.
  - destruct (sorted key l) as [s|]; simpl; [|done].
    intros Hi. eapply insert_sorted_Sorted; [done|]. by apply IH.
Qed.

(** With [str] keys throughout, no comparison raises. *)
Lemma insert_sorted_total x l :
  is_str (key x) → Forall (λ a, is_str (key a)) l → is_Some (insert_sorted key x l).
Proof.
  intros [sx Hx]. induction 1 as [|y l [sy Hy] _ IH]; simpl; [by eauto|].
  rewrite Hx, Hy. simpl. destruct (String.ltb sy sx); [|by eauto].
  destruct IH as [l1 ->]. by eauto.
Qed.

Lemma sorted_total l : Forall (λ a, is_str (key a)) l → is_Some (sorted key l).
Proof.
  induction 1 as [|x l Hx Hl IH]; simpl; [by eauto|].
  destruct IH as [s Hs]. rewrite Hs. simpl.
  apply insert_sorted_total; [done|].
  apply sorted_perm in Hs. by rewrite <- Hs.
Qed.
End sorted_facts.

End PyFacts.

(* ===================================================================== *)
(** ** Facts about the reconciler *)
(* ===================================================================== *)

Module MergeFacts.
Import Py PyFacts Merge.

Lemma overwrite_fields_lookup target movie key :
  overwrite_fields target movie !! key = field_merge (target !! key) (movie !! key).
Proof.
  unfold overwrite_fields, field_merge.
  apply (map_fold_weak_ind
           (λ acc m, acc !! key = match m !! key with
                                  | Some v => if overwrites v then Some v else target !! key
                                  | None => target !! key
                                  end)).
  - by rewrite lookup_empty.
  - intros i x m r Hi IH. destruct (decide (i = key)) as [->|Hne].
    + rewrite lookup_insert_eq. destruct (overwrites x).
      * by rewrite lookup_insert_eq.
      * by rewrite IH, Hi.
    + rewrite (lookup_insert_ne m) by done.
      destruct (overwrites x); [by rewrite lookup_insert_ne|done].
Qed.

Lemma update_entry_lookup target movie target' key :
  update_entry target movie = Some target' →
  target' !! key =
    if decide (key = "Scrape Date") then movie !! "Scrape Date"
    else field_merge (target !! key) (movie !! key).
Proof.
  unfold update_entry. destruct (movie !! "Scrape Date") as [sd|] eqn:Hsd; simpl; [|done].
  intros [= <-]. case_decide as Hk.
  - subst key. by rewrite lookup_insert_eq.
  - rewrite lookup_insert_ne by done. apply overwrite_fields_lookup.
Qed.

Lemma update_entry_total target movie :
  is_Some (movie !! "Scrape Date") → is_Some (update_entry target movie).
Proof. intros [sd Hsd]. unfold update_entry. rewrite Hsd. simpl. by eauto. Qed.

Lemma keyed_by_title_set k r d :
  is_str k → r !! "Movie Title" = Some k →
  keyed_by_title d → keyed_by_title (od_set k r d).
Proof.
  unfold keyed_by_title. rewrite !Forall_forall. intros Hk Hr Hd [k' r'] Hin.
  apply od_elem_set_inv in Hin as [[-> ->]|Hin]; [done|by apply Hd].
Qed.

Lemma keyed_by_title_get k r d :
  keyed_by_title d → od_get k d = Some r → is_str k ∧ r !! "Movie Title" = Some k.
Proof.
  unfold keyed_by_title. rewrite Forall_forall. intros Hd Hg.
  apply od_get_Some_elem in Hg. apply (Hd _ Hg).
Qed.

(** One turn of the loop succeeds on a well-formed row and keeps the
    collection a dictionary keyed by title. *)
Lemma merge_step_ok d movie :
  collection_ok d → row_ok movie →
  ∃ d', merge_step d movie = Some d' ∧ collection_ok d'.
Proof.
  intros [Hwf Hkeyed] [[s Ht] Hsd]. unfold merge_step. rewrite Ht. simpl.
  destruct (od_get (VStr s) d) as [target|] eqn:Hg.
  - destruct (update_entry_total target movie Hsd) as [target' Hu].
    rewrite Hu. simpl. eexists. split; [done|]. split; [by apply od_wf_set|].
    apply keyed_by_title_set; [by exists s| |done].
    rewrite (update_entry_lookup _ _ _ "Movie Title" Hu).
    rewrite decide_False by done. unfold field_merge. rewrite Ht.
    destruct (overwrites (VStr s)); [done|].
    by destruct (keyed_by_title_get _ _ _ Hkeyed Hg).
  - eexists. split; [done|]. split; [by apply od_wf_set|].
    apply keyed_by_title_set; [by exists s|done|done].
Qed.

Lemma merge_loop_ok d fresh :
  collection_ok d → Forall row_ok fresh →
  ∃ d', merge_loop d fresh = Some d' ∧ collection_ok d'.
Proof.
  intros Hd Hfresh. revert d Hd.
  induction Hfresh as [|movie fresh Hm _ IH]; intros d Hd; simpl.
  - by exists d.
  - destruct (merge_step_ok d movie Hd Hm) as (d1 & -> & Hd1). simpl. by apply IH.
Qed.

Lemma merge_loop_app d l1 l2 :
  merge_loop d (l1 ++ l2) = merge_loop d l1 ≫= λ d', merge_loop d' l2.
Proof.
  revert d. induction l1 as [|m l1 IH]; intros d; simpl; [done|].
  destruct (merge_step d m); simpl; [apply IH|done].
Qed.

(** The entry under the title of the row merged in. *)
Lemma merge_step_lookup_same d movie d' t :
  movie !! "Movie Title" = Some t → merge_step d movie = Some d' →
  ∃ merged, od_get t d' = Some merged ∧
    match od_get t d with
    | Some target => update_entry target movie = Some merged
    | None => merged = movie
    end.
Proof.
  intros Ht. unfold merge_step. rewrite Ht. simpl.
  destruct (od_get t d) as [target|].
  - destruct (update_entry target movie) as [target'|]; simpl; [|done].
    intros [= <-]. exists target'. by rewrite od_get_set_eq.
  - intros [= <-]. exists movie. by rewrite od_get_set_eq.
Qed.

(** The entries under every other title are left alone. *)
Lemma merge_step_lookup_other d movie d' t :
  movie !! "Movie Title" ≠ Some t → merge_step d movie = Some d' →
  od_get t d' = od_get t d.
Proof.
  intros Ht. unfold merge_step.
  destruct (movie !! "Movie Title") as [title|]; simpl; [|done].
  assert (title ≠ t) by congruence.
  destruct (od_get title d) as [target|].
  - destruct (update_entry target movie) as [target'|]; simpl; [|done].
    intros [= <-]. by apply od_get_set_ne.
  - intros [= <-]. by apply od_get_set_ne.
Qed.

Lemma merge_loop_lookup_other d fresh d' t :
  Forall (λ m, m !! "Movie Title" ≠ Some t) fresh →
  merge_loop d fresh = Some d' → od_get t d' = od_get t d.
Proof.
  intros Hfresh. revert d. induction Hfresh as [|m fresh Hm _ IH]; intros d; simpl.
  - by intros [= <-].
  - destruct (merge_step d m) as [d1|] eqn:Hs; simpl; [|done].
    intros Hl. rewrite (IH _ Hl). by eapply merge_step_lookup_other.
Qed.

(** A real value in a field other than the scrape date stays real. *)
Lemma merge_step_real d movie d' t key r :
  key ≠ "Scrape Date" → merge_step d movie = Some d' →
  od_get t d = Some r → real (r !! key) →
  ∃ r', od_get t d' = Some r' ∧ real (r' !! key).
Proof.
  intros Hkey Hs Hg Hreal.
  destruct (decide (movie !! "Movie Title" = Some t)) as [Ht|Ht].
  - destruct (merge_step_lookup_same _ _ _ _ Ht Hs) as (merged & Hm & Hu).
    rewrite Hg in Hu. exists merged. split; [done|].
    rewrite (update_entry_lookup _ _ _ key Hu), decide_False by done.
    unfold field_merge. destruct (movie !! key) as [v|]; [|done].
    by destruct (overwrites v) eqn:Hv.
  - exists r. split; [|done]. by rewrite (merge_step_lookup_other _ _ _ _ Ht Hs).
Qed.

Lemma merge_loop_real d fresh d' t key r :
  key ≠ "Scrape Date" → merge_loop d fresh = Some d' →
  od_get t d = Some r → real (r !! key) →
  ∃ r', od_get t d' = Some r' ∧ real (r' !! key).
Proof.
  intros Hkey. revert d r. induction fresh as [|m fresh IH]; intros d r; simpl.
  - intros [= <-] ? ?. by exists r.
  - destruct (merge_step d m) as [d1|] eqn:Hs; simpl; [|done].
    intros Hl Hg Hreal.
    destruct (merge_step_real _ _ _ _ _ _ Hkey Hs Hg Hreal) as (r1 & Hg1 & Hreal1).
    by eapply IH.
Qed.

(** A title that is present stays, and the title of a merged row is present. *)
Lemma merge_step_present d movie d' t :
  merge_step d movie = Some d' →
  is_Some (od_get t d) ∨ movie !! "Movie Title" = Some t → is_Some (od_get t d').
Proof.
  intros Hs Hor. destruct (decide (movie !! "Movie Title" = Some t)) as [Ht|Ht].
  - destruct (merge_step_lookup_same _ _ _ _ Ht Hs) as (merged & -> & _). by eauto.
  - rewrite (merge_step_lookup_other _ _ _ _ Ht Hs). by destruct Hor.
Qed.

Lemma merge_loop_present d fresh d' t :
  merge_loop d fresh = Some d' →
  is_Some (od_get t d) ∨ Exists (λ m, m !! "Movie Title" = Some t) fresh →
  is_Some (od_get t d').
Proof.
  revert d. induction fresh as [|m fresh IH]; intros d; simpl.
  - intros [= <-] [?|Hex]; [done|]. by apply Exists_nil in Hex.
  - destruct (merge_step d m) as [d1|] eqn:Hs; simpl; [|done].
    intros Hl Hor. apply (IH _ Hl). rewrite Exists_cons in Hor.
    destruct Hor as [?|[?|?]]; [left|left|by right];
      eapply merge_step_present; eauto.
Qed.

(** The titles of [updated_data]: those of the existing collection and
    those of the fresh rows. *)
Lemma merge_loop_keys d fresh d' t :
  merge_loop d fresh = Some d' →
  is_Some (od_get t d') ↔
    is_Some (od_get t d) ∨ Exists (λ m, m !! "Movie Title" = Some t) fresh.
Proof.
  intros Hl. split; [|by eapply merge_loop_present].
  revert d Hl. induction fresh as [|m fresh IH]; intros d; simpl.
  - intros [= <-]. by left.
  - destruct (merge_step d m) as [d1|] eqn:Hs; simpl; [|done].
    intros Hl Hsome. destruct (IH _ Hl Hsome) as [Hd1|Hex]; [|right; by right].
    destruct (decide (m !! "Movie Title" = Some t)) as [Ht|Ht].
    + right. by left.
    + left. by rewrite <- (merge_step_lookup_other _ _ _ _ Ht Hs).
Qed.

(** The entry of a title once its last row in the batch is merged:
    [pre] is what comes before that row, [post] what comes after. *)
Lemma merge_loop_last d pre movie post d' t :
  movie !! "Movie Title" = Some t →
  Forall (λ m, m !! "Movie Title" ≠ Some t) post →
  merge_loop d (pre ++ movie :: post) = Some d' →
  ∃ mid merged, merge_loop d pre = Some mid ∧ od_get t d' = Some merged ∧
    match od_get t mid with
    | Some target => update_entry target movie = Some merged
    | None => merged = movie
    end.
Proof.
  intros Ht Hpost. rewrite merge_loop_app.
  destruct (merge_loop d pre) as [mid|]; simpl; [|done].
  destruct (merge_step mid movie) as [d1|] eqn:Hs; simpl; [|done].
  intros Hl. destruct (merge_step_lookup_same _ _ _ _ Ht Hs) as (merged & Hm & Hu).
  exists mid, merged. split; [done|]. split; [|done].
  by rewrite (merge_loop_lookup_other _ _ _ _ Hpost Hl).
Qed.

(** *** The output of [merge_data] *)

Lemma filter_none {A} (P : A → Prop) `{∀ x, Decision (P x)} (l : list A) :
  (∀ x, x ∈ l → ¬ P x) → filter P l = [].
Proof.
  induction l as [|y l IH]; intros Hall; [done|].
  rewrite filter_cons_False by (apply Hall; left).
  apply IH. intros x Hx. apply Hall. by right.
Qed.

Lemma filter_unique {A B} `{EqDecision B} (f : A → B) (l : list A) x b :
  NoDup (f <$> l) → x ∈ l → f x = b → filter (λ y, f y = b) l = [x].
Proof.
  induction l as [|y l IH]; simpl.
  - intros _ Hin. by apply elem_of_nil in Hin.
  - rewrite NoDup_cons. intros [Hy Hnd] Hin Hb.
    apply elem_of_cons in Hin as [->|Hin].
    + rewrite filter_cons_True by done. f_equal.
      apply filter_none. intros z Hz Hfz. apply Hy.
      rewrite Hb, <- Hfz. by apply list_elem_of_fmap_2.
    + rewrite filter_cons_False; [by apply IH|].
      intros Hfy. apply Hy. rewrite Hfy, <- Hb. by apply list_elem_of_fmap_2.
Qed.

Lemma keyed_titles d :
  keyed_by_title d → (λ r : record, r !! "Movie Title") <$> od_values d = Some <$> od_keys d.
Proof.
  unfold od_values, od_keys. induction 1 as [|[k r] d [_ Hr] _ IH]; csimpl; [done|].
  simpl in Hr. by rewrite Hr, IH.
Qed.

Lemma keyed_has_title d : keyed_by_title d → Forall has_title (od_values d).
Proof.
  unfold od_values. induction 1 as [|[k r] d [[s Hk] Hr] _ IH]; simpl; constructor; [|done].
  simpl in *. exists s. by rewrite Hr, Hk.
Qed.

Lemma has_title_key r : has_title r → is_str (title_key r).
Proof. intros [s Hr]. exists s. unfold title_key. by rewrite Hr. Qed.

Lemma NoDup_titles d :
  collection_ok d → NoDup ((λ r : record, r !! "Movie Title") <$> od_values d).
Proof.
  intros [Hwf Hkeyed]. rewrite keyed_titles by done.
  apply (NoDup_fmap_2 Some). exact Hwf.
Qed.

Lemma titles_of_rows (out : list record) :
  Forall (λ r, is_str (title_key r)) out →
  title_key <$> out = VStr <$> (str_of ∘ title_key <$> out).
Proof.
  induction 1 as [|r out [s Hr] _ IH]; csimpl; [done|].
  by rewrite IH, Hr.
Qed.

Lemma Sorted_titles (out : list record) :
  Forall (λ r, is_str (title_key r)) out →
  Sorted (ascending title_key) out →
  Sorted str_le (str_of ∘ title_key <$> out).
Proof.
  intros Hstr Hs. induction Hs as [|r out Hs IH Hhd]; csimpl; [constructor|].
  inversion Hstr as [|? ? [s Hr] Hstr']; subst. constructor; [by apply IH|].
  destruct Hhd as [|r' out Hrr']; csimpl; constructor.
  inversion Hstr' as [|? ? [s' Hr'] _]; subst.
  unfold ascending in Hrr'. rewrite Hr, Hr' in *. simpl in *.
  injection Hrr' as Hlt. by apply not_ltb_leb.
Qed.

(** [merge_data] returns on well-formed inputs; its output is the values of
    the final [updated_data], sorted by title. *)
Lemma merge_data_output existing fresh :
  inputs_ok existing fresh →
  ∃ updated out,
    merge_loop existing fresh = Some updated ∧ collection_ok updated ∧
    merge_data existing fresh = Some out ∧ od_values updated ≡ₚ out ∧
    Forall has_title out ∧
    Sorted (ascending title_key) out.
Proof.
  intros [Hex Hfresh].
  destruct (merge_loop_ok _ _ Hex Hfresh) as (updated & Hloop & Hok).
  pose proof (keyed_has_title _ (proj2 Hok)) as Hstr.
  destruct (sorted_total title_key (od_values updated)) as [out Hout].
  { eapply Forall_impl; [exact Hstr|]. apply has_title_key. }
  exists updated, out. unfold merge_data. rewrite Hloop. simpl.
  pose proof (sorted_perm _ _ _ Hout) as Hperm.
  split_and!; [done|done|done|done| |by eapply sorted_Sorted].
  by rewrite <- Hperm.
Qed.

Lemma NoDup_title_strings (out : list record) :
  Forall has_title out →
  NoDup ((λ r : record, r !! "Movie Title") <$> out) →
  NoDup (str_of ∘ title_key <$> out).
Proof.
  induction 1 as [|r out [s Hr] Hout IH]; csimpl; [constructor|].
  rewrite !NoDup_cons. intros [Hnotin Hnd]. split; [|by apply IH].
  intros Hin. apply Hnotin. apply list_elem_of_fmap in Hin as (r' & Heq & Hr').
  apply list_elem_of_fmap. exists r'. split; [|done].
  rewrite Forall_forall in Hout. destruct (Hout _ Hr') as [s' Hs'].
  unfold title_key in Heq. simpl in Heq. rewrite Hr, Hs' in Heq. simpl in Heq.
  by rewrite Hr, Hs', Heq.
Qed.

Lemma title_strings_elem d s :
  keyed_by_title d →
  s ∈ (str_of ∘ title_key <$> od_values d) ↔ is_Some (od_get (VStr s) d).
Proof.
  intros Hkeyed. rewrite list_elem_of_fmap. split.
  - intros (r & -> & [k Hin]%od_values_elem).
    unfold keyed_by_title in Hkeyed. rewrite Forall_forall in Hkeyed.
    destruct (Hkeyed _ Hin) as [[s' Hk] Hr]. simpl in *.
    unfold title_key. rewrite Hr, Hk. simpl. rewrite <- Hk.
    apply od_get_is_Some. by apply (list_elem_of_fmap_2 fst) in Hin.
  - intros [r Hg]. exists r.
    destruct (keyed_by_title_get _ _ _ Hkeyed Hg) as [_ Hr].
    split; [unfold title_key; simpl; by rewrite Hr|].
    apply od_values_elem. exists (VStr s). by apply od_get_Some_elem.
Qed.

Lemma collection_ok_perm d d' : d' ≡ₚ d → collection_ok d → collection_ok d'.
Proof.
  intros Hperm [Hwf Hkeyed]. split.
  - unfold od_wf, od_keys in *. change (NoDup (fst <$> d')). rewrite Hperm. exact Hwf.
  - unfold keyed_by_title in *. by rewrite Hperm.
Qed.

(** The entry of [updated_data] under [t] is the one row of the output
    that carries the title [t]. *)
Lemma titled_entry updated out t merged :
  collection_ok updated → od_values updated ≡ₚ out →
  od_get t updated = Some merged → titled t out = [merged].
Proof.
  intros Hok Hperm Hg. unfold titled.
  apply (filter_unique (λ r : record, r !! "Movie Title")).
  - rewrite <- Hperm. by apply NoDup_titles.
  - rewrite <- Hperm. apply od_values_elem. exists t. by apply od_get_Some_elem.
  - by destruct (keyed_by_title_get _ _ _ (proj2 Hok) Hg).
Qed.

(** The output with its titles: strings, ascending, pairwise distinct. *)
Lemma merge_data_sorted existing fresh :
  inputs_ok existing fresh →
  ∃ updated out,
    merge_loop existing fresh = Some updated ∧ collection_ok updated ∧
    merge_data existing fresh = Some out ∧ od_values updated ≡ₚ out ∧
    title_key <$> out = VStr <$> (str_of ∘ title_key <$> out) ∧
    Sorted str_le (str_of ∘ title_key <$> out) ∧
    NoDup (str_of ∘ title_key <$> out).
Proof.
  intros Hin.
  destruct (merge_data_output _ _ Hin)
    as (updated & out & Hloop & Hok & Hout & Hperm & Htitle & Hsorted).
  assert (Forall (λ r, is_str (title_key r)) out) as Hstr.
  { eapply Forall_impl; [exact Htitle|]. apply has_title_key. }
  exists updated, out.
  split_and!; [done|done|done|done|by apply titles_of_rows|by apply Sorted_titles|].
  apply NoDup_title_strings; [done|].
  rewrite <- Hperm. by apply NoDup_titles.
Qed.

End MergeFacts.

(* ===================================================================== *)
(** ** The reconciler: what the specification states *)
(* ===================================================================== *)

Module MergeSpec.
Import Py PyFacts Merge MergeFacts Samples.

Ltac lookup_now := vm_compute; reflexivity.

Lemma row_is_ok title genre scrape_date : row_ok (row title genre scrape_date).
Proof.
  split; [exists title|exists (VStr scrape_date)]; unfold row.
  - rewrite lookup_insert_eq. done.
  - rewrite lookup_insert_ne by done. rewrite lookup_insert_ne by done.
    by rewrite lookup_singleton_eq.
Qed.

Lemma sheet_a_ok : collection_ok sheet_a.
Proof.
  split.
  - apply NoDup_singleton.
  - constructor; [|constructor]. split; [by eexists|lookup_now].
Qed.

Lemma sheet_ba_ok : collection_ok sheet_ba.
Proof.
  split.
  - unfold od_wf. simpl. apply NoDup_cons. split; [|apply NoDup_singleton].
    by intros [=]%list_elem_of_singleton.
  - constructor; [|constructor; [|constructor]]; (split; [by eexists|lookup_now]).
Qed.

(** The example of the specification, run: the known genre stays, the
    scrape date is the fresh one. *)
Example sample_merge :
  merge_data sheet_a [fresh_a] = Some [row "Movie A" "Action" "2024-02-01"].
Proof. vm_compute. reflexivity. Qed.

(** C6: on a collection keyed by title and well-formed fresh rows,
    [merge_data] returns, and the titles of its output, read in order, are
    strings in strictly ascending lexicographic order; the existing
    collection and the fresh list taken in any other order give the same
    sequence of titles. *)
Theorem merge_data_sorted_by_title existing fresh :
  inputs_ok existing fresh →
  ∃ out titles,
    merge_data existing fresh = Some out ∧
    title_key <$> out = VStr <$> titles ∧
    Sorted str_lt titles ∧
    ∀ existing' fresh', existing' ≡ₚ existing → fresh' ≡ₚ fresh →
      ∃ out', merge_data existing' fresh' = Some out' ∧
              title_key <$> out' = VStr <$> titles.
Proof.
  intros Hin.
  destruct (merge_data_sorted _ _ Hin)
    as (updated & out & Hloop & Hok & Hout & Hperm & Htitles & Hle & Hnd).
  exists out, (str_of ∘ title_key <$> out). split; [done|]. split; [done|].
  split; [by apply Sorted_strict|].
  intros existing' fresh' Hex Hfresh.
  assert (inputs_ok existing' fresh') as Hin'.
  { destruct Hin as [Hc Hf]. split; [by eapply collection_ok_perm|by rewrite Hfresh]. }
  destruct (merge_data_sorted _ _ Hin')
    as (updated' & out' & Hloop' & Hok' & Hout' & Hperm' & Htitles' & Hle' & Hnd').
  exists out'. split; [done|]. rewrite Htitles'. f_equal.
  apply (Sorted_unique str_le); [done|done|].
  apply NoDup_Permutation; [done|done|]. intros s.
  rewrite <- Hperm, <- Hperm'.
  rewrite !title_strings_elem by (by apply Hok || by apply Hok').
  rewrite (merge_loop_keys _ _ _ _ Hloop), (merge_loop_keys _ _ _ _ Hloop').
  rewrite !od_get_is_Some. unfold od_keys.
  change (VStr s ∈ fst <$> existing' ∨ Exists (λ m, m !! "Movie Title" = Some (VStr s)) fresh'
          ↔ VStr s ∈ fst <$> existing ∨ Exists (λ m, m !! "Movie Title" = Some (VStr s)) fresh).
  by rewrite Hex, Hfresh.
Qed.

Lemma merge_data_sorted_by_title_witness :
  inputs_ok sheet_ba fresh_cb ∧
  ∃ out titles,
    merge_data sheet_ba fresh_cb = Some out ∧
    title_key <$> out = VStr <$> titles ∧
    Sorted str_lt titles ∧
    ∀ existing' fresh', existing' ≡ₚ sheet_ba → fresh' ≡ₚ fresh_cb →
      ∃ out', merge_data existing' fresh' = Some out' ∧
              title_key <$> out' = VStr <$> titles.
Proof.
  assert (inputs_ok sheet_ba fresh_cb) as Hin.
  { split; [apply sheet_ba_ok|]. repeat constructor; apply row_is_ok. }
  split; [exact Hin|]. exact (merge_data_sorted_by_title sheet_ba fresh_cb Hin).
Defined.

(** C5: for a title of the fresh batch, the one row of the output with that
    title has the scrape date of the fresh row that carries the title (the
    last such row of the batch), whatever the other fields hold. *)
Theorem merge_takes_fresh_scrape_date existing fresh pre movie post t :
  inputs_ok existing fresh →
  fresh = pre ++ movie :: post →
  movie !! "Movie Title" = Some t →
  Forall (λ m, m !! "Movie Title" ≠ Some t) post →
  ∃ out merged,
    merge_data existing fresh = Some out ∧ titled t out = [merged] ∧
    merged !! "Scrape Date" = movie !! "Scrape Date".
Proof.
  intros Hin -> Ht Hpost.
  destruct (merge_data_output _ _ Hin)
    as (updated & out & Hloop & Hok & Hout & Hperm & _ & _).
  destruct (merge_loop_last _ _ _ _ _ _ Ht Hpost Hloop)
    as (mid & merged & Hmid & Hget & Hcase).
  exists out, merged. split; [done|]. split; [by eapply titled_entry|].
  destruct (od_get t mid) as [target|].
  - by rewrite (update_entry_lookup _ _ _ "Scrape Date" Hcase), decide_True.
  - by subst merged.
Qed.

Lemma merge_takes_fresh_scrape_date_witness :
  inputs_ok sheet_a [fresh_a] ∧
  ∃ out merged,
    merge_data sheet_a [fresh_a] = Some out ∧
    titled (VStr "Movie A") out = [merged] ∧
    merged !! "Scrape Date" = fresh_a !! "Scrape Date".
Proof.
  assert (inputs_ok sheet_a [fresh_a]) as Hin.
  { split; [apply sheet_a_ok|]. repeat constructor; apply row_is_ok. }
  split; [exact Hin|].
  apply (merge_takes_fresh_scrape_date sheet_a [fresh_a] [] fresh_a [] (VStr "Movie A")).
  - exact Hin.
  - reflexivity.
  - lookup_now.
  - constructor.
Defined.

(** C1, as the code has it: for a title of the existing collection and a
    field other than the scrape date, a real value of the existing row is
    never replaced by a sentinel or falsy one; when one fresh row carries the
    title, the merged field is the fresh value if that is truthy and not the
    sentinel, and the existing value otherwise. *)
Theorem merge_keeps_real_fields existing fresh t old key :
  inputs_ok existing fresh →
  od_get t existing = Some old →
  key ≠ "Scrape Date" →
  ∃ out merged,
    merge_data existing fresh = Some out ∧ titled t out = [merged] ∧
    (real (old !! key) → real (merged !! key)) ∧
    (∀ pre movie post,
       fresh = pre ++ movie :: post →
       movie !! "Movie Title" = Some t →
       Forall (λ m, m !! "Movie Title" ≠ Some t) (pre ++ post) →
       merged !! key = field_merge (old !! key) (movie !! key)).
Proof.
  intros Hin Hold Hkey.
  destruct (merge_data_output _ _ Hin)
    as (updated & out & Hloop & Hok & Hout & Hperm & _ & _).
  destruct (merge_loop_present _ _ _ t Hloop) as [merged Hget]; [left; by eauto|].
  exists out, merged. split; [done|]. split; [by eapply titled_entry|]. split.
  - intros Hreal.
    destruct (merge_loop_real _ _ _ _ _ _ Hkey Hloop Hold Hreal) as (r' & Hr' & Hreal').
    congruence.
  - intros pre movie post -> Ht [Hpre Hpost]%Forall_app.
    destruct (merge_loop_last _ _ _ _ _ _ Ht Hpost Hloop)
      as (mid & merged' & Hmid & Hget' & Hcase).
    rewrite (merge_loop_lookup_other _ _ _ _ Hpre Hmid), Hold in Hcase.
    assert (merged' = merged) as -> by congruence.
    by rewrite (update_entry_lookup _ _ _ key Hcase), decide_False.
Qed.

Lemma merge_keeps_real_fields_witness :
  inputs_ok sheet_a [fresh_a] ∧
  ∃ out merged,
    merge_data sheet_a [fresh_a] = Some out ∧
    titled (VStr "Movie A") out = [merged] ∧
    (real (row "Movie A" "Action" "2024-01-01" !! "Genre") → real (merged !! "Genre")) ∧
    (∀ pre movie post,
       [fresh_a] = pre ++ movie :: post →
       movie !! "Movie Title" = Some (VStr "Movie A") →
       Forall (λ m, m !! "Movie Title" ≠ Some (VStr "Movie A")) (pre ++ post) →
       merged !! "Genre" =
         field_merge (row "Movie A" "Action" "2024-01-01" !! "Genre") (movie !! "Genre")).
Proof.
  assert (inputs_ok sheet_a [fresh_a]) as Hin.
  { split; [apply sheet_a_ok|]. repeat constructor; apply row_is_ok. }
  split; [exact Hin|].
  apply (merge_keeps_real_fields sheet_a [fresh_a] (VStr "Movie A")
           (row "Movie A" "Action" "2024-01-01") "Genre").
  - exact Hin.
  - reflexivity.
  - discriminate.
Defined.

(** C1 as stated fails on the scrape date: a real scrape date of the
    existing row is replaced by the sentinel of the fresh row. *)
Lemma scrape_date_regresses :
  ¬ never_regresses sheet_a [fresh_undated] (VStr "Movie A") "Scrape Date".
Proof.
  intros Hclaim.
  assert (real (<["Scrape Date" := VStr "N/A"]>
                  (overwrite_fields (row "Movie A" "Action" "2024-01-01") fresh_undated)
                !! "Scrape Date")) as Hreal.
  { apply (Hclaim (row "Movie A" "Action" "2024-01-01")
                  [<["Scrape Date" := VStr "N/A"]>
                     (overwrite_fields (row "Movie A" "Action" "2024-01-01") fresh_undated)]).
    - reflexivity.
    - lookup_now.
    - vm_compute. left.
    - lookup_now. }
  vm_compute in Hreal. discriminate Hreal.
Qed.

(** C9, as the code has it: fresh rows with one title collide into one
    entry, merged field by field in batch order. The entry has the scrape
    date of the last duplicate; any other field holds the last duplicate's
    value when that is truthy and not the sentinel, and otherwise what the
    entry held before the last duplicate was merged. *)
Theorem merge_duplicates_collide existing fresh pre movie post t :
  inputs_ok existing fresh →
  fresh = pre ++ movie :: post →
  movie !! "Movie Title" = Some t →
  Exists (λ m, m !! "Movie Title" = Some t) pre →
  Forall (λ m, m !! "Movie Title" ≠ Some t) post →
  ∃ out merged before prev,
    merge_data existing fresh = Some out ∧ titled t out = [merged] ∧
    merge_data existing pre = Some before ∧ titled t before = [prev] ∧
    ∀ key, merged !! key =
             if decide (key = "Scrape Date") then movie !! "Scrape Date"
             else field_merge (prev !! key) (movie !! key).
Proof.
  intros Hin -> Ht Hdup Hpost.
  assert (inputs_ok existing pre) as Hin_pre.
  { destruct Hin as [Hex Hfresh]. split; [done|]. by apply Forall_app in Hfresh as [? _]. }
  destruct (merge_data_output _ _ Hin)
    as (updated & out & Hloop & Hok & Hout & Hperm & _ & _).
  destruct (merge_data_output _ _ Hin_pre)
    as (mid & before & Hloop_pre & Hok_pre & Hbefore & Hperm_pre & _ & _).
  destruct (merge_loop_last _ _ _ _ _ _ Ht Hpost Hloop)
    as (mid' & merged & Hmid & Hget & Hcase).
  assert (mid' = mid) as -> by congruence.
  destruct (merge_loop_present _ _ _ t Hloop_pre) as [prev Hprev]; [by right|].
  rewrite Hprev in Hcase.
  exists out, merged, before, prev.
  split_and!; [done|by apply (titled_entry updated)|done|by apply (titled_entry mid)|].
  intros key. by apply update_entry_lookup.
Qed.

Lemma merge_duplicates_collide_witness :
  inputs_ok [] [twin_1; twin_2] ∧
  ∃ out merged before prev,
    merge_data [] [twin_1; twin_2] = Some out ∧
    titled (VStr "Movie A") out = [merged] ∧
    merge_data [] [twin_1] = Some before ∧
    titled (VStr "Movie A") before = [prev] ∧
    ∀ key, merged !! key =
             if decide (key = "Scrape Date") then twin_2 !! "Scrape Date"
             else field_merge (prev !! key) (twin_2 !! key).
Proof.
  assert (inputs_ok [] [twin_1; twin_2]) as Hin.
  { split; [split; constructor|]. repeat constructor; apply row_is_ok. }
  split; [exact Hin|].
  apply (merge_duplicates_collide [] [twin_1; twin_2] [twin_1] twin_2 []).
  - exact Hin.
  - reflexivity.
  - lookup_now.
  - constructor. lookup_now.
  - constructor.
Defined.

(** C9 as stated fails: the entry is not the last duplicate when that one
    carries a sentinel where an earlier duplicate had a value. *)
Lemma last_duplicate_does_not_win :
  ¬ last_wins [] [twin_1; twin_2] (VStr "Movie A").
Proof.
  intros Hclaim.
  assert (titled (VStr "Movie A")
            [<["Scrape Date" := VStr "2024-02-02"]> (overwrite_fields twin_1 twin_2)]
          = [twin_2]) as Heq.
  { apply (Hclaim [twin_1] twin_2 []).
    - reflexivity.
    - lookup_now.
    - constructor. lookup_now.
    - constructor.
    - lookup_now. }
  apply (f_equal (λ l, head l ≫= (.!! "Genre"))) in Heq.
  vm_compute in Heq. discriminate Heq.
Qed.

End MergeSpec.

(* ===================================================================== *)
(** ** The cell budget: what the specification states *)
(* ===================================================================== *)

Module BuilderSpec.
Import Py Builder Samples.

Lemma len_nonneg s : 0 ≤ len s.
Proof. unfold len. lia. Qed.

Lemma len_append a b : len (a +:+ b) = len a + len b.
Proof.
  unfold len. induction a as [|c a IH].
  - change (EmptyString +:+ b) with b. simpl String.length. lia.
  - change (String c a +:+ b) with (String c (a +:+ b)). simpl String.length. lia.
Qed.

Lemma len_first_chars n s : len (first_chars n s) = Z.min (Z.of_nat n) (len s).
Proof.
  unfold len. revert s. induction n as [|n IH]; intros [|c s]; simpl; try lia.
  rewrite !Nat2Z.inj_succ, IH. lia.
Qed.

Lemma len_slice_to n s : 0 ≤ n → len (slice_to n s) = Z.min n (len s).
Proof. intros Hn. unfold slice_to. rewrite len_first_chars. lia. Qed.

Lemma len_filler n : len (filler n) = Z.of_nat n.
Proof.
  unfold len. induction n as [|n IH]; [done|].
  simpl String.length. lia.
Qed.

Lemma len_marker : len TRUNCATION_MARKER = 14.
Proof. reflexivity. Qed.

(** What [truncate_showtimes] leaves, by the length of its argument. *)
Lemma truncate_showtimes_short s :
  len s ≤ SHEETS_CELL_CHAR_LIMIT → truncate_showtimes s = s.
Proof.
  intros Hlen. unfold truncate_showtimes.
  destruct (Z.ltb_spec SHEETS_CELL_CHAR_LIMIT (len s)); [lia|done].
Qed.

Lemma truncate_showtimes_long s :
  SHEETS_CELL_CHAR_LIMIT < len s →
  truncate_showtimes s = slice_to SHEETS_CELL_CHAR_LIMIT s +:+ TRUNCATION_MARKER.
Proof.
  intros Hlen. unfold truncate_showtimes.
  destruct (Z.ltb_spec SHEETS_CELL_CHAR_LIMIT (len s)); [done|lia].
Qed.

Lemma limit_value : SHEETS_CELL_CHAR_LIMIT = 49900.
Proof. reflexivity. Qed.

(** The cell of the row that holds the payload. *)
Lemma stored_showtimes title movie_url description total_minutes formatted_date
    language genre distributor classification cast director format poster_url
    local_poster_path showtimes_data scrape_date :
  scraped_record title movie_url description total_minutes formatted_date
    language genre distributor classification cast director format poster_url
    local_poster_path showtimes_data scrape_date
  !! "Aggregated Showtimes Data" = Some (VStr (truncate_showtimes showtimes_data)).
Proof.
  unfold scraped_record. generalize (truncate_showtimes showtimes_data). intros stored.
  simpl list_to_map.
  repeat (rewrite lookup_insert_ne by done).
  by rewrite lookup_insert_eq.
Qed.

(** C2, as the code has it: the payload stored in a row is within the
    budget plus the length of the truncation marker, 49914 characters in
    all; it is the payload itself when that is within the budget, and
    otherwise the prefix of budget length followed by the marker. *)
Theorem stored_showtimes_bounded title movie_url description total_minutes
    formatted_date language genre distributor classification cast director
    format poster_url local_poster_path showtimes_data scrape_date :
  ∃ stored,
    scraped_record title movie_url description total_minutes formatted_date
      language genre distributor classification cast director format poster_url
      local_poster_path showtimes_data scrape_date
    !! "Aggregated Showtimes Data" = Some (VStr stored) ∧
    len stored ≤ SHEETS_CELL_CHAR_LIMIT + len TRUNCATION_MARKER ∧
    len stored ≤ 49914 ∧
    (len showtimes_data ≤ SHEETS_CELL_CHAR_LIMIT → stored = showtimes_data) ∧
    (SHEETS_CELL_CHAR_LIMIT < len showtimes_data →
       stored = slice_to SHEETS_CELL_CHAR_LIMIT showtimes_data +:+ TRUNCATION_MARKER ∧
       len (slice_to SHEETS_CELL_CHAR_LIMIT showtimes_data) = SHEETS_CELL_CHAR_LIMIT).
Proof.
  exists (truncate_showtimes showtimes_data). split; [apply stored_showtimes|].
  pose proof limit_value as Hlimit. pose proof len_marker as Hmarker.
  pose proof (len_nonneg showtimes_data) as Hnonneg.
  assert (len (truncate_showtimes showtimes_data)
          ≤ SHEETS_CELL_CHAR_LIMIT + len TRUNCATION_MARKER) as Hbound.
  { destruct (Z.le_gt_cases (len showtimes_data) SHEETS_CELL_CHAR_LIMIT) as [Hle|Hgt].
    - rewrite truncate_showtimes_short by done. lia.
    - rewrite truncate_showtimes_long, len_append, len_slice_to by lia. lia. }
  split_and!; [done|lia|apply truncate_showtimes_short|].
  intros Hgt. split; [by apply truncate_showtimes_long|].
  rewrite len_slice_to by lia. lia.
Qed.

(** C2 as stated fails: a payload one character over the budget is stored
    as 49914 characters, over the budget of 49900. *)
Lemma oversize_exceeds_budget : ¬ within_budget oversize.
Proof.
  unfold within_budget, oversize. pose proof limit_value as Hlimit.
  rewrite truncate_showtimes_long by (rewrite len_filler; lia).
  rewrite len_append, len_slice_to, len_filler, len_marker by lia. lia.
Qed.

End BuilderSpec.

(* ===================================================================== *)
(** ** Facts about the showtime extraction *)
(* ===================================================================== *)

Module ParseFacts.
Import Py PyFacts Showtimes.

Lemma eqb_false_ne a b : String.eqb a b = false → a ≠ b.
Proof. intros Hf ->. by rewrite String.eqb_refl in Hf. Qed.

Lemma od_mem_true {V} (k : string) (d : odict string V) :
  od_mem k d = true → is_Some (od_get k d).
Proof. unfold od_mem. destruct (od_get k d); [by eauto|done]. Qed.

Lemma od_mem_false {V} (k : string) (d : odict string V) :
  od_mem k d = false → od_get k d = None.
Proof. unfold od_mem. by destruct (od_get k d). Qed.

Lemma scan_element_total st el :
  current_known st → ∃ st', scan_element st el = Some st' ∧ current_known st'.
Proof.
  destruct st as [showtimes current]. unfold current_known. simpl. intros Hcur.
  destruct el as [[b_text|]|labels]; simpl.
  - destruct (od_mem (strip b_text) showtimes) eqn:Hmem;
      eexists; (split; [done|]); simpl; intros _.
    + by apply od_mem_true.
    + rewrite od_get_set_eq. by eauto.
  - by eexists.
  - destruct (negb (bool_decide (_ = [])) && negb (String.eqb current "N/A")) eqn:Hc.
    + apply andb_prop in Hc as [_ Hne%negb_true_iff%eqb_false_ne].
      destruct (Hcur Hne) as [old Hold]. rewrite Hold. simpl.
      eexists. split; [done|]. simpl. intros _. rewrite od_get_set_eq. by eauto.
    + by eexists.
Qed.

Lemma scan_elements_total st els :
  current_known st → is_Some (scan_elements st els).
Proof.
  revert st. induction els as [|el els IH]; intros st Hst; simpl; [by eauto|].
  destruct (scan_element_total st el Hst) as (st' & -> & Hst'). simpl. by apply IH.
Qed.

Lemma scan_elements_app st els1 els2 :
  scan_elements st (els1 ++ els2) = scan_elements st els1 ≫= λ st', scan_elements st' els2.
Proof.
  revert st. induction els1 as [|el els1 IH]; intros st; simpl; [done|].
  destruct (scan_element st el); simpl; [apply IH|done].
Qed.

Lemma sorted_labels_total (l : list string) : is_Some (sorted VStr l).
Proof. apply sorted_total. apply Forall_forall. intros s _. by exists s. Qed.

Lemma dedup_sort_total d : is_Some (dedup_sort d).
Proof.
  induction d as [|[c ts] d [t Ht]]; simpl; [by eauto|].
  destruct (sorted_labels_total (set_list ts)) as [ts' ->]. simpl.
  rewrite Ht. simpl. by eauto.
Qed.

(** The extraction raises on no page. *)
Lemma parse_total page : is_Some (parse_showtimes_from_html page).
Proof.
  unfold parse_showtimes_from_html.
  destruct (scan_elements_total ([], "N/A") (showtimes_list page)) as [st ->].
  { intros Hne. by destruct Hne. }
  simpl. apply dedup_sort_total.
Qed.

Lemma parse_table_of page : parse_showtimes_from_html page = Some (table_of page).
Proof. unfold table_of. by destruct (parse_total page) as [t ->]. Qed.

(** The last pass keeps the cinemas and rewrites each list of labels. *)
Lemma dedup_sort_get d t c :
  dedup_sort d = Some t →
  od_get c t = od_get c d ≫= λ ts, sorted VStr (set_list ts).
Proof.
  revert t. induction d as [|[c' ts] d IH]; simpl; intros t.
  - by intros [= <-].
  - destruct (sorted VStr (set_list ts)) as [ts'|] eqn:Hts; simpl; [|done].
    destruct (dedup_sort d) as [t'|]; simpl; [|done].
    intros [= <-]. simpl. destruct (decide (c = c')) as [->|Hne]; simpl; [done|].
    by apply IH.
Qed.

Lemma dedup_sort_elem d t c ts :
  dedup_sort d = Some t → (c, ts) ∈ t →
  ∃ ts0, (c, ts0) ∈ d ∧ sorted VStr (set_list ts0) = Some ts.
Proof.
  revert t. induction d as [|[c' ts'] d IH]; simpl; intros t.
  - intros [= <-] Hin. by apply elem_of_nil in Hin.
  - destruct (sorted VStr (set_list ts')) as [ts1|] eqn:Hts; simpl; [|done].
    destruct (dedup_sort d) as [t'|]; simpl; [|done].
    intros [= <-] Hin. apply elem_of_cons in Hin as [[= -> ->]|Hin].
    + exists ts'. split; [left|done].
    + destruct (IH t' eq_refl Hin) as (ts0 & Hin0 & Hs). exists ts0. split; [by right|done].
Qed.

Lemma sorted_labels l l' :
  sorted VStr l = Some l' → l ≡ₚ l' ∧ Sorted str_le l'.
Proof.
  intros Hs. split; [by eapply sorted_perm|].
  apply sorted_Sorted in Hs. induction Hs as [|a l' Hs IH Hhd]; constructor; [done|].
  destruct Hhd as [|b l' Hab]; constructor.
  unfold ascending in Hab. simpl in Hab. injection Hab as Hab. by apply not_ltb_leb.
Qed.

(** [sorted] of labels depends on the labels only, not on their order: the
    order in which a [set] hands them over does not show. *)
Lemma sorted_labels_perm l1 l2 : l1 ≡ₚ l2 → sorted VStr l1 = sorted VStr l2.
Proof.
  intros Hperm.
  destruct (sorted_labels_total l1) as [s1 Hs1], (sorted_labels_total l2) as [s2 Hs2].
  rewrite Hs1, Hs2. f_equal.
  destruct (sorted_labels _ _ Hs1) as [Hp1 Hsorted1], (sorted_labels _ _ Hs2) as [Hp2 Hsorted2].
  apply (Sorted_unique str_le); [done|done|]. by rewrite <- Hp1, <- Hp2.
Qed.

End ParseFacts.

(* ===================================================================== *)
(** ** The showtime extraction: what the specification states *)
(* ===================================================================== *)

Module ParseSpec.
Import Py PyFacts Showtimes ParseFacts Samples.

(** C7: the extraction returns on every page, and in its result the time
    labels of each cinema are pairwise distinct and in ascending order
    (strictly ascending, hence). *)
Theorem page_times_distinct_sorted page :
  ∃ t, parse_showtimes_from_html page = Some t ∧
    ∀ cinema times, (cinema, times) ∈ t →
      NoDup times ∧ Sorted str_le times ∧ Sorted str_lt times.
Proof.
  exists (table_of page). split; [apply parse_table_of|].
  intros cinema times Hin. pose proof (parse_table_of page) as Hparse.
  unfold parse_showtimes_from_html in Hparse.
  destruct (scan_elements _ _) as [st|]; simpl in Hparse; [|done].
  destruct (dedup_sort_elem _ _ _ _ Hparse Hin) as (ts0 & _ & Hs).
  destruct (sorted_labels _ _ Hs) as [Hperm Hle].
  assert (NoDup times) as Hnd.
  { rewrite <- Hperm. apply NoDup_remove_dups. }
  split_and!; [done|done|by apply Sorted_strict].
Qed.

(** Every cinema introduction leaves an entry. *)
Lemma scan_element_keeps st el st' c :
  scan_element st el = Some st' → is_Some (od_get c st.1) → is_Some (od_get c st'.1).
Proof.
  destruct st as [showtimes current]. simpl.
  destruct el as [[b_text|]|labels]; simpl.
  - destruct (od_mem (strip b_text) showtimes); intros [= <-]; simpl; [done|].
    intros Hc. destruct (decide (strip b_text = c)) as [->|Hne].
    + rewrite od_get_set_eq. by eauto.
    + by rewrite od_get_set_ne.
  - by intros [= <-].
  - destruct (_ && _); [|by intros [= <-]].
    destruct (od_get current showtimes) as [old|]; simpl; [|done].
    intros [= <-] Hc. simpl. destruct (decide (current = c)) as [->|Hne].
    + rewrite od_get_set_eq. by eauto.
    + by rewrite od_get_set_ne.
Qed.

Lemma scan_elements_keeps st els st' c :
  scan_elements st els = Some st' → is_Some (od_get c st.1) → is_Some (od_get c st'.1).
Proof.
  revert st. induction els as [|el els IH]; intros st; simpl.
  - by intros [= <-].
  - destruct (scan_element st el) as [st1|] eqn:Hs; simpl; [|done].
    intros Hscan Hc. apply (IH _ Hscan). by eapply scan_element_keeps.
Qed.

Lemma scan_elements_intro st els st' b_text :
  Anchor (Some b_text) ∈ els → scan_elements st els = Some st' →
  is_Some (od_get (strip b_text) st'.1).
Proof.
  revert st. induction els as [|el els IH]; intros st Hin; simpl.
  - by apply elem_of_nil in Hin.
  - destruct (scan_element st el) as [st1|] eqn:Hs; simpl; [|done].
    intros Hscan. apply elem_of_cons in Hin as [<-|Hin]; [|by eapply IH].
    apply (scan_elements_keeps _ _ _ _ Hscan).
    destruct st as [showtimes current]. simpl in Hs.
    destruct (od_mem (strip b_text) showtimes) eqn:Hmem; injection Hs as <-; simpl.
    + by apply od_mem_true.
    + rewrite od_get_set_eq. by eauto.
Qed.

(** A cinema that is never current at a time block has no label. *)
Lemma scan_never_timed st els st' c cur :
  (cur = false → st.2 ≠ c ∨ st.2 = "N/A") →
  (od_get c st.1 = None ∨ od_get c st.1 = Some []) →
  never_timed c cur els = true →
  scan_elements st els = Some st' →
  od_get c st'.1 = None ∨ od_get c st'.1 = Some [].
Proof.
  revert st cur. induction els as [|el els IH]; intros [showtimes current] cur; simpl.
  - by intros _ Hc _ [= <-].
  - intros Hcur Hc Hnever.
    destruct el as [[b_text|]|labels]; simpl in *.
    + set (c' := strip b_text) in *.
      assert (String.eqb c' c = false → c' ≠ c ∨ c' = "N/A") as Hflag.
      { intros Hf. left. by apply eqb_false_ne. }
      destruct (od_mem c' showtimes) eqn:Hmem; simpl.
      * by apply (IH (showtimes, c') (String.eqb c' c)).
      * apply (IH (od_set c' [] showtimes, c') (String.eqb c' c)); simpl; [done| |done].
        destruct (decide (c' = c)) as [->|Hne].
        -- right. apply od_get_set_eq.
        -- by rewrite od_get_set_ne.
    + by apply (IH _ cur).
    + apply andb_prop in Hnever as [Hcur'%negb_true_iff Hnever].
      destruct (negb (bool_decide (_ = [])) && negb (String.eqb current "N/A")) eqn:Hcond.
      * apply andb_prop in Hcond as [_ Hna%negb_true_iff%eqb_false_ne].
        destruct (od_get current showtimes) as [old|]; simpl; [|done].
        destruct (Hcur Hcur') as [Hne|?]; [|done].
        apply (IH _ cur); simpl; [done| |done]. by rewrite od_get_set_ne.
      * by apply (IH _ cur).
Qed.

(** Elements met while no cinema is current change nothing. *)
Lemma scan_no_intro st pre :
  st.2 = "N/A" → Forall no_intro pre → scan_elements st pre = Some st.
Proof.
  destruct st as [showtimes current]. simpl. intros ->.
  induction 1 as [|el pre Hel _ IH]; simpl; [done|].
  destruct el as [[b_text|]|labels]; simpl in *; [done|done|].
  by rewrite andb_false_r.
Qed.

(** C8, as the code has it: a cinema introduction always leaves an entry in
    the result of the extraction, with an empty list of times when no time
    block is met while that cinema is the current one; and time blocks met
    before any cinema is introduced are ignored, the result being that of
    the page without them. *)
Theorem silent_cinema_keeps_empty_entry page :
  ∃ t, parse_showtimes_from_html page = Some t ∧
    (∀ b_text, Anchor (Some b_text) ∈ showtimes_list page →
       is_Some (od_get (strip b_text) t)) ∧
    (∀ b_text, Anchor (Some b_text) ∈ showtimes_list page →
       never_timed (strip b_text) false (showtimes_list page) = true →
       od_get (strip b_text) t = Some []) ∧
    (∀ page' pre, showtimes_list page = pre ++ showtimes_list page' →
       Forall no_intro pre → parse_showtimes_from_html page' = Some t).
Proof.
  exists (table_of page). split; [apply parse_table_of|].
  pose proof (parse_table_of page) as Hparse.
  unfold parse_showtimes_from_html in Hparse.
  destruct (scan_elements _ (showtimes_list page)) as [st|] eqn:Hscan;
    simpl in Hparse; [|done].
  assert (∀ b_text, Anchor (Some b_text) ∈ showtimes_list page →
            ∃ ts0, od_get (strip b_text) st.1 = Some ts0 ∧
                   od_get (strip b_text) (table_of page) = sorted VStr (set_list ts0))
    as Hentry.
  { intros b_text Hin.
    destruct (scan_elements_intro _ _ _ _ Hin Hscan) as [ts0 Hts0].
    exists ts0. split; [done|].
    by rewrite (dedup_sort_get _ _ (strip b_text) Hparse), Hts0. }
  split_and!.
  - intros b_text Hin. destruct (Hentry _ Hin) as (ts0 & _ & ->).
    apply sorted_labels_total.
  - intros b_text Hin Hnever. destruct (Hentry _ Hin) as (ts0 & Hts0 & ->).
    destruct (scan_never_timed ([], "N/A") (showtimes_list page) st (strip b_text) false)
      as [Hnone|Hnil]; [by right|by left|done|done|congruence|].
    assert (ts0 = []) as -> by congruence. done.
  - intros page' pre Hsplit Hpre. unfold parse_showtimes_from_html.
    assert (scan_elements ([], "N/A") (showtimes_list page') = Some st) as Hscan'.
    { rewrite Hsplit, scan_elements_app in Hscan.
      rewrite scan_no_intro in Hscan by done. exact Hscan. }
    by rewrite Hscan'.
Qed.

(** C8 as stated fails: a cinema introduced with no time block after it
    has an entry in the result, with no times. *)
Lemma silent_cinema_has_entry : ¬ drops_silent_cinema lone_cinema "GSC".
Proof.
  intros Hclaim.
  specialize (Hclaim eq_refl [("GSC", [])] eq_refl). discriminate Hclaim.
Qed.

End ParseSpec.

(* ===================================================================== *)
(** ** Facts about the session walker *)
(* ===================================================================== *)

Module WalkFacts.
Import Py PyFacts Showtimes ParseFacts.

(** *** Restructuring *)

Lemma add_showing_named date_str cinema_map item :
  named cinema_map → named (add_showing date_str cinema_map item).
Proof.
  destruct item as [cinema_name times]. unfold named, add_showing. intros Hnamed c e.
  destruct (od_get cinema_name cinema_map) as [e0|] eqn:Hg;
    (destruct (decide (cinema_name = c)) as [->|Hne];
     [rewrite od_get_set_eq; intros [= <-]; simpl|rewrite od_get_set_ne by done; by apply Hnamed]).
  - by apply Hnamed.
  - done.
Qed.

Lemma add_showing_shows date_str cinema_map item c s :
  shows cinema_map c s → shows (add_showing date_str cinema_map item) c s.
Proof.
  destruct item as [cinema_name times]. unfold shows, add_showing. intros (e & Hg & Hs).
  destruct (decide (cinema_name = c)) as [->|Hne].
  - rewrite Hg. eexists. split; [apply od_get_set_eq|]. simpl.
    apply elem_of_app. by left.
  - exists e. split; [|done].
    destruct (od_get cinema_name cinema_map); by rewrite od_get_set_ne.
Qed.

Lemma add_showing_new date_str cinema_map c times :
  shows (add_showing date_str cinema_map (c, times)) c (Showing date_str times).
Proof.
  unfold shows, add_showing. destruct (od_get c cinema_map) as [e0|].
  - eexists. split; [apply od_get_set_eq|]. simpl. apply elem_of_app. right. left.
  - eexists. split; [apply od_get_set_eq|]. simpl. left.
Qed.

Lemma add_showings_named date_str cinemas cinema_map :
  named cinema_map → named (foldl (add_showing date_str) cinema_map cinemas).
Proof.
  revert cinema_map. induction cinemas as [|item cinemas IH]; intros cm Hcm; simpl; [done|].
  apply IH. by apply add_showing_named.
Qed.

Lemma add_showings_shows date_str cinemas cinema_map c s :
  shows cinema_map c s → shows (foldl (add_showing date_str) cinema_map cinemas) c s.
Proof.
  revert cinema_map. induction cinemas as [|item cinemas IH]; intros cm Hcm; simpl; [done|].
  apply IH. by apply add_showing_shows.
Qed.

Lemma add_showings_new date_str (cinemas : page_table) cinema_map c times :
  (c, times) ∈ cinemas →
  shows (foldl (add_showing date_str) cinema_map cinemas) c (Showing date_str times).
Proof.
  revert cinema_map. induction cinemas as [|item cinemas IH]; intros cm Hin; simpl.
  - by apply elem_of_nil in Hin.
  - apply elem_of_cons in Hin as [<-|Hin]; [|by apply IH].
    apply add_showings_shows, add_showing_new.
Qed.

Lemma restructure_fold all_dates_data :
  restructure all_dates_data = od_values (foldl add_date [] all_dates_data).
Proof.
  unfold restructure. f_equal. generalize (@nil (string * cinema_entry)).
  induction all_dates_data as [|[date_str cinemas] d IH]; intros cm; simpl; [done|].
  apply IH.
Qed.

Lemma add_dates_named d cinema_map : named cinema_map → named (foldl add_date cinema_map d).
Proof.
  revert cinema_map. induction d as [|visit d IH]; intros cm Hcm; simpl; [done|].
  apply IH. by apply add_showings_named.
Qed.

Lemma add_dates_shows d cinema_map c s :
  shows cinema_map c s → shows (foldl add_date cinema_map d) c s.
Proof.
  revert cinema_map. induction d as [|visit d IH]; intros cm Hcm; simpl; [done|].
  apply IH. by apply add_showings_shows.
Qed.

Lemma add_dates_new (d : dates_table) cinema_map label table c times :
  (label, table) ∈ d → (c, times) ∈ table →
  shows (foldl add_date cinema_map d) c (Showing label times).
Proof.
  revert cinema_map. induction d as [|visit d IH]; intros cm Hin Hc; simpl.
  - by apply elem_of_nil in Hin.
  - apply elem_of_cons in Hin as [<-|Hin]; [|by apply IH].
    apply add_dates_shows. by apply add_showings_new.
Qed.

(** The payload has a showing for every cinema of every date of the table. *)
Lemma restructure_keeps all_dates_data :
  keeps_every_date (restructure all_dates_data) all_dates_data.
Proof.
  intros label table c times Hin Hc. rewrite restructure_fold.
  destruct (add_dates_new all_dates_data [] label table c times Hin Hc) as (e & Hg & Hs).
  exists e. split_and!; [|by eapply (add_dates_named all_dates_data [])|done].
  apply od_values_elem. exists c. by apply od_get_Some_elem.
Qed.

(** *** The table of dates *)

Lemma assign_keeps (visited : list (string * page_table)) acc label table :
  (label, table) ∈ acc → label ∉ visited.*1 →
  (label, table) ∈ foldl assign acc visited.
Proof.
  revert acc. induction visited as [|[l t] visited IH]; intros acc Hin Hnot; simpl; [done|].
  csimpl in Hnot. apply not_elem_of_cons in Hnot as [Hne Hnot].
  apply IH; [|done]. unfold assign. simpl. by apply od_elem_set_ne.
Qed.

Lemma last_visits_assigned visited acc label table :
  (label, table) ∈ last_visits visited → (label, table) ∈ foldl assign acc visited.
Proof.
  revert acc. induction visited as [|[l t] visited IH]; intros acc; simpl.
  - intros Hin. by apply elem_of_nil in Hin.
  - case_bool_decide as Hl; [by apply IH|].
    intros Hin. apply elem_of_cons in Hin as [[= -> ->]|Hin]; [|by apply IH].
    apply assign_keeps; [|done]. apply od_elem_set.
Qed.

Lemma last_visits_NoDup visited : NoDup visited.*1 → last_visits visited = visited.
Proof.
  induction visited as [|[l t] visited IH]; csimpl; [done|].
  rewrite NoDup_cons. intros [Hl Hnd]. rewrite bool_decide_eq_false_2 by done.
  by rewrite IH.
Qed.

(** What the payload of a table of dates holds of the visits. *)
Lemma collect_keeps visited :
  keeps_every_date (restructure (collect visited)) (last_visits visited).
Proof.
  intros label table c times Hin Hc.
  apply (restructure_keeps (collect visited) label table c times); [|done].
  by apply last_visits_assigned.
Qed.

(** *** Steps of the walk *)

Lemma requests_sent_snoc log e :
  requests_sent (log ++ [e]) = (requests_sent log + (if is_sent e then 1 else 0))%nat.
Proof.
  unfold requests_sent. rewrite filter_app, length_app. f_equal.
  by destruct e.
Qed.

Lemma posted_dates_snoc log e :
  posted_dates (log ++ [e]) = posted_dates log ++ posted_dates [e].
Proof. apply omap_app. Qed.

Lemma parsed_pages_snoc log e :
  parsed_pages (log ++ [e]) = parsed_pages log ++ parsed_pages [e].
Proof. apply omap_app. Qed.

Lemma posted_form url viewstate eventvalidation date_val :
  posted_dates [Sent (Post url (form_data viewstate eventvalidation date_val))] = [date_val].
Proof. reflexivity. Qed.

Section steps.
Variable client : nat → reply.

Lemma send_response r log status_code body :
  client (requests_sent log) = Response status_code body →
  send client r log = (Some (status_code, body), log ++ [Sent r]).
Proof. intros Hc. unfold send. by rewrite Hc. Qed.

Lemma parse_step page log :
  parse page log = (Some (table_of page), log ++ [Parsed page]).
Proof. unfold parse, bind, emit, lift. by rewrite parse_table_of. Qed.

(** The loop over the remaining dates when the postbacks for [pages]
    succeed and the next one comes back with another status. *)
Lemma post_loop_until_failure url pages :
  ∀ dates st log bad_status bad_page,
    (length pages < length dates)%nat →
    (∀ i p, pages !! i = Some p →
            client (requests_sent log + i) = Response 200 p) →
    client (requests_sent log + length pages) = Response bad_status bad_page →
    bad_status ≠ 200 →
    ∃ st' log',
      post_loop client url dates st log = (Some st', log') ∧
      all_dates_data st' =
        foldl assign (all_dates_data st)
              (zip (snd <$> take (length pages) dates) (table_of <$> pages)) ∧
      posted_dates log' = posted_dates log ++ (fst <$> take (S (length pages)) dates) ∧
      parsed_pages log' = parsed_pages log ++ pages.
Proof.
  induction pages as [|p pages IH];
    intros [|[date_val date_txt] dates] st log bad_status bad_page Hlen Hok Hbad Hne;
    simpl in Hlen; try lia.
  - rewrite Nat.add_0_r in Hbad. simpl. unfold bind at 1, sleep, emit.
    unfold bind at 1.
    rewrite (send_response _ _ bad_status bad_page)
      by (by rewrite requests_sent_snoc, Nat.add_0_r).
    destruct (Z.eqb_spec bad_status 200) as [|_]; [done|]. simpl.
    eexists _, _. split; [done|]. split_and!.
    + done.
    + by rewrite !posted_dates_snoc, posted_form, <- app_assoc.
    + rewrite !parsed_pages_snoc. simpl. by rewrite !app_nil_r.
  - pose proof (Hok 0%nat p eq_refl) as Hp. rewrite Nat.add_0_r in Hp.
    simpl. unfold bind at 1, sleep, emit. unfold bind at 1.
    rewrite (send_response _ _ 200 p) by (by rewrite requests_sent_snoc, Nat.add_0_r).
    simpl. unfold bind at 1. rewrite parse_step.
    set (log1 := ((log ++ [Slept REQUEST_DELAY]) ++ [Sent _]) ++ [Parsed p]).
    assert (requests_sent log1 = S (requests_sent log)) as Hsent.
    { unfold log1. rewrite !requests_sent_snoc. simpl. lia. }
    set (st1 := LoopState (refresh (viewstate st) (viewstate_field p))
                          (refresh (eventvalidation st) (eventvalidation_field p))
                          (od_set date_txt (table_of p) (all_dates_data st))).
    destruct (IH dates st1 log1 bad_status bad_page)
      as (st' & log' & Hloop & Hdata & Hposted & Hparsed).
    + lia.
    + intros i q Hq. rewrite Hsent. rewrite <- (Hok (S i) q Hq). f_equal. lia.
    + rewrite Hsent. rewrite <- Hbad. f_equal. simpl. lia.
    + done.
    + exists st', log'. split; [exact Hloop|]. split_and!.
      * rewrite Hdata. done.
      * rewrite Hposted. unfold log1.
        rewrite !posted_dates_snoc, posted_form. simpl. by rewrite !app_nil_r, <- app_assoc.
      * rewrite Hparsed. unfold log1. rewrite !parsed_pages_snoc. simpl.
        by rewrite !app_nil_r, <- app_assoc.
Qed.
End steps.

End WalkFacts.

(* ===================================================================== *)
(** ** The session walker: what the specification states *)
(* ===================================================================== *)

Module WalkSpec.
Import Py PyFacts Showtimes ParseFacts WalkFacts Samples.

(** C4: when the page of the initial request has no date selector, the
    walker returns the sentinel and the trace of the walk is the initial
    request alone: no postback, no pause, no extraction. *)
Theorem no_date_selector_is_sentinel client raises_for_status url status_code page :
  client 0%nat = Response status_code page →
  date_dropdown page = None →
  scrape_aggregated_showtimes client raises_for_status url = ("N/A", [Sent (Get url)]).
Proof.
  intros Hreply Hnone. unfold scrape_aggregated_showtimes, walk_dates.
  unfold bind at 1. rewrite (send_response _ _ _ status_code page) by done.
  unfold bind at 1. destruct (raises_for_status status_code); [done|].
  unfold ret at 1. by rewrite Hnone.
Qed.

Lemma no_date_selector_is_sentinel_witness :
  steady_client page_no_dropdown 0%nat = Response 200 page_no_dropdown ∧
  date_dropdown page_no_dropdown = None ∧
  scrape_aggregated_showtimes (steady_client page_no_dropdown) httpx_raises "/showtimes"
    = ("N/A", [Sent (Get "/showtimes")]).
Proof.
  split; [reflexivity|]. split; [reflexivity|].
  apply (no_date_selector_is_sentinel (steady_client page_no_dropdown) httpx_raises
           "/showtimes" 200 page_no_dropdown); reflexivity.
Defined.

(** C10: when the page of the initial request has the date selector but no
    option of it carries a non-empty value, the walker returns the sentinel
    and the trace of the walk is the initial request alone: showtimes are
    not extracted and no postback is sent. *)
Theorem no_selectable_date_is_sentinel client raises_for_status url status_code page options :
  client 0%nat = Response status_code page →
  date_dropdown page = Some options →
  selectable options = [] →
  scrape_aggregated_showtimes client raises_for_status url = ("N/A", [Sent (Get url)]).
Proof.
  intros Hreply Hsome Hempty. unfold scrape_aggregated_showtimes, walk_dates.
  unfold bind at 1. rewrite (send_response _ _ _ status_code page) by done.
  unfold bind at 1. destruct (raises_for_status status_code); [done|].
  unfold ret at 1. by rewrite Hsome, Hempty.
Qed.

Lemma no_selectable_date_is_sentinel_witness :
  steady_client page_no_values 0%nat = Response 200 page_no_values ∧
  date_dropdown page_no_values
    = Some [(None, "Select a date"); (Some EmptyString, "--")] ∧
  selectable [(None, "Select a date"); (Some EmptyString, "--")] = [] ∧
  scrape_aggregated_showtimes (steady_client page_no_values) httpx_raises "/showtimes"
    = ("N/A", [Sent (Get "/showtimes")]).
Proof.
  split; [reflexivity|]. split; [reflexivity|]. split; [reflexivity|].
  apply (no_selectable_date_is_sentinel (steady_client page_no_values) httpx_raises
           "/showtimes" 200 page_no_values
           [(None, "Select a date"); (Some EmptyString, "--")]); reflexivity.
Defined.

(** C3, as the code has it: when the postbacks for the first dates after
    the pre-rendered one succeed and the next comes back with a status other
    than 200, no later date is posted or extracted, and the payload is the
    serialisation of the dates collected so far. It holds, for every date
    visited whose label no later visit carries, a showing of each cinema of
    that date's page; for all the dates visited when their labels are
    pairwise distinct. *)
Theorem failed_postback_keeps_collected client raises_for_status url
    status_code page0 options first_val first_txt rest pages bad_status bad_page :
  client 0%nat = Response status_code page0 →
  raises_for_status status_code = false →
  date_dropdown page0 = Some options →
  truncate_days (selectable options) = (first_val, first_txt) :: rest →
  (length pages < length rest)%nat →
  (∀ i p, pages !! i = Some p → client (S i) = Response 200 p) →
  client (S (length pages)) = Response bad_status bad_page →
  bad_status ≠ 200 →
  ∃ final_json log,
    scrape_aggregated_showtimes client raises_for_status url
      = (json_dumps final_json, log) ∧
    final_json = restructure (collect (visits first_txt rest page0 pages)) ∧
    posted_dates log = fst <$> take (S (length pages)) rest ∧
    parsed_pages log = page0 :: pages ∧
    keeps_every_date final_json (last_visits (visits first_txt rest page0 pages)) ∧
    (NoDup (first_txt :: (snd <$> take (length pages) rest)) →
     keeps_every_date final_json (visits first_txt rest page0 pages)).
Proof.
  intros Hreply Hstatus Hsome Hdates Hlen Hok Hbad Hne.
  set (log1 := ([] ++ [Sent (Get url)]) ++ [Parsed page0]).
  set (st1 := LoopState (token (viewstate_field page0))
                        (token (eventvalidation_field page0))
                        (od_set first_txt (table_of page0) [])).
  destruct (post_loop_until_failure client url pages rest st1 log1 bad_status bad_page)
    as (st' & log' & Hloop & Hdata & Hposted & Hparsed); [done| | |done|].
  { intros i p Hp. by apply Hok. }
  { exact Hbad. }
  exists (restructure (collect (visits first_txt rest page0 pages))), log'.
  split_and!.
  - unfold scrape_aggregated_showtimes, walk_dates.
    unfold bind at 1. rewrite (send_response _ _ _ status_code page0) by done.
    unfold bind at 1. rewrite Hstatus. unfold ret at 1. rewrite Hsome, Hdates.
    unfold bind at 1. rewrite parse_step.
    unfold bind at 1. fold log1. fold st1. rewrite Hloop. unfold ret.
    do 3 f_equal. by rewrite Hdata.
  - done.
  - by rewrite Hposted.
  - by rewrite Hparsed.
  - apply collect_keeps.
  - intros Hnd. rewrite <- (last_visits_NoDup (visits first_txt rest page0 pages)) at 2.
    + apply collect_keeps.
    + unfold visits. rewrite fst_zip; [done|]. simpl.
      rewrite !length_fmap, length_take. lia.
Qed.

Lemma failed_postback_keeps_collected_witness :
  failing_client page_mon 0%nat = Response 200 page_mon ∧
  httpx_raises 200 = false ∧
  date_dropdown page_mon
    = Some [(Some "1", "Mon"); (Some "2", "Tue"); (Some "3", "Wed")] ∧
  truncate_days (selectable [(Some "1", "Mon"); (Some "2", "Tue"); (Some "3", "Wed")])
    = ("1", "Mon") :: [("2", "Tue"); ("3", "Wed")] ∧
  (length [page_tue] < length [("2", "Tue"); ("3", "Wed")])%nat ∧
  (∀ i p, [page_tue] !! i = Some p → failing_client page_mon (S i) = Response 200 p) ∧
  failing_client page_mon (S (length [page_tue])) = Response 500 page_error ∧
  500 ≠ 200 ∧
  ∃ final_json log,
    scrape_aggregated_showtimes (failing_client page_mon) httpx_raises "/showtimes"
      = (json_dumps final_json, log) ∧
    final_json
      = restructure (collect (visits "Mon" [("2", "Tue"); ("3", "Wed")] page_mon [page_tue])) ∧
    posted_dates log = fst <$> take (S (length [page_tue])) [("2", "Tue"); ("3", "Wed")] ∧
    parsed_pages log = page_mon :: [page_tue] ∧
    keeps_every_date final_json
      (last_visits (visits "Mon" [("2", "Tue"); ("3", "Wed")] page_mon [page_tue])) ∧
    (NoDup ("Mon" :: (snd <$> take (length [page_tue]) [("2", "Tue"); ("3", "Wed")])) →
     keeps_every_date final_json
       (visits "Mon" [("2", "Tue"); ("3", "Wed")] page_mon [page_tue])).
Proof.
  assert (∀ i p, [page_tue] !! i = Some p →
                 failing_client page_mon (S i) = Response 200 p) as Hok.
  { intros [|i] p Hp; simpl in Hp; [by injection Hp as <-|done]. }
  split_and!; [reflexivity|reflexivity|reflexivity|reflexivity|simpl; lia|exact Hok
              |reflexivity|discriminate|].
  apply (failed_postback_keeps_collected (failing_client page_mon) httpx_raises
           "/showtimes" 200 page_mon
           [(Some "1", "Mon"); (Some "2", "Tue"); (Some "3", "Wed")]
           "1" "Mon" [("2", "Tue"); ("3", "Wed")] [page_tue] 500 page_error);
    [reflexivity|reflexivity|reflexivity|reflexivity|simpl; lia|exact Hok
    |reflexivity|discriminate].
Defined.

(** The walk of the sample session, run: two dates in the payload, two
    postbacks sent, two pages extracted. *)
Example sample_walk :
  ∃ log,
    scrape_aggregated_showtimes (failing_client page_mon) httpx_raises "/showtimes"
      = (json_dumps [CinemaEntry "GSC" [Showing "Mon" ["10:00"]; Showing "Tue" ["12:00"]]],
         log) ∧
    posted_dates log = ["2"; "3"] ∧ parsed_pages log = [page_mon; page_tue].
Proof. eexists. split_and!; vm_compute; reflexivity. Qed.

(** C3 as stated fails when two dates of the selector carry one label: the
    table of dates is keyed by label, so the page of the second visit
    replaces that of the first, and the payload after the failed postback
    has nothing of the pre-rendered page. *)
Lemma repeated_label_drops_first_visit :
  (scrape_aggregated_showtimes (failing_client page_mon_twice) httpx_raises "/showtimes").1
    = json_dumps [CinemaEntry "GSC" [Showing "Mon" ["12:00"]]] ∧
  posted_dates
    (scrape_aggregated_showtimes (failing_client page_mon_twice) httpx_raises "/showtimes").2
    = ["2"; "3"] ∧
  ¬ keeps_every_date [CinemaEntry "GSC" [Showing "Mon" ["12:00"]]]
      (visits "Mon" [("2", "Mon"); ("3", "Tue")] page_mon_twice [page_tue]).
Proof.
  split; [vm_compute; reflexivity|]. split; [vm_compute; reflexivity|].
  intros Hclaim.
  destruct (Hclaim "Mon" [("GSC", ["10:00"])] "GSC" ["10:00"]) as (e & He & _ & Hshow).
  - vm_compute. left.
  - left.
  - apply list_elem_of_singleton in He as ->. simpl in Hshow.
    apply list_elem_of_singleton in Hshow. discriminate Hshow.
Qed.

End WalkSpec.

(* ===================================================================== *)
(** ** The reconciler: further properties *)
(* ===================================================================== *)

Module MergeMore.
Import Py PyFacts Merge MergeFacts Sheet Samples.

Lemma keyed_title_keys d : keyed_by_title d → title_key <$> od_values d = od_keys d.
Proof.
  unfold od_values, od_keys, title_key.
  induction 1 as [|[k r] d [_ Hr] _ IH]; csimpl; [done|].
  simpl in Hr. by rewrite Hr, IH.
Qed.


(** X1: a title of the existing collection that no fresh row carries comes
    out of [merge_data] with its row unchanged. *)
Theorem merge_keeps_untouched_rows existing fresh t old :
  inputs_ok existing fresh →
  od_get t existing = Some old →
  Forall (λ m, m !! "Movie Title" ≠ Some t) fresh →
  ∃ out, merge_data existing fresh = Some out ∧ titled t out = [old].
Proof.
  intros Hin Hold Hfresh.
  destruct (merge_data_output _ _ Hin)
    as (updated & out & Hloop & Hok & Hout & Hperm & _ & _).
  exists out. split; [done|]. apply (titled_entry updated); [done|done|].
  by rewrite (merge_loop_lookup_other _ _ _ _ Hfresh Hloop).
Qed.

Lemma merge_keeps_untouched_rows_witness :
  inputs_ok sheet_ba fresh_cb ∧
  od_get (VStr "Movie A") sheet_ba = Some (row "Movie A" "Action" "2024-01-01") ∧
  Forall (λ m, m !! "Movie Title" ≠ Some (VStr "Movie A")) fresh_cb ∧
  ∃ out, merge_data sheet_ba fresh_cb = Some out ∧
         titled (VStr "Movie A") out = [row "Movie A" "Action" "2024-01-01"].
Proof.
  assert (inputs_ok sheet_ba fresh_cb) as Hin.
  { split; [apply MergeSpec.sheet_ba_ok|]. repeat constructor; apply MergeSpec.row_is_ok. }
  assert (Forall (λ m : record, m !! "Movie Title" ≠ Some (VStr "Movie A")) fresh_cb) as Hfresh.
  { repeat constructor; vm_compute; discriminate. }
  split; [exact Hin|]. split; [reflexivity|]. split; [exact Hfresh|].
  apply (merge_keeps_untouched_rows sheet_ba fresh_cb (VStr "Movie A")
           (row "Movie A" "Action" "2024-01-01") Hin eq_refl Hfresh).
Defined.

(** X2: a title that is new to the collection and carried by one fresh row
    comes out with that row as it is, sentinel fields included. *)
Theorem merge_adds_new_row existing fresh pre movie post t :
  inputs_ok existing fresh →
  od_get t existing = None →
  fresh = pre ++ movie :: post →
  movie !! "Movie Title" = Some t →
  Forall (λ m, m !! "Movie Title" ≠ Some t) (pre ++ post) →
  ∃ out, merge_data existing fresh = Some out ∧ titled t out = [movie].
Proof.
  intros Hin Hnew -> Ht [Hpre Hpost]%Forall_app.
  destruct (merge_data_output _ _ Hin)
    as (updated & out & Hloop & Hok & Hout & Hperm & _ & _).
  destruct (merge_loop_last _ _ _ _ _ _ Ht Hpost Hloop)
    as (mid & merged & Hmid & Hget & Hcase).
  rewrite (merge_loop_lookup_other _ _ _ _ Hpre Hmid), Hnew in Hcase. subst merged.
  exists out. split; [done|]. by apply (titled_entry updated).
Qed.

Lemma merge_adds_new_row_witness :
  inputs_ok sheet_ba fresh_cb ∧
  od_get (VStr "Movie C") sheet_ba = None ∧
  fresh_cb = [] ++ row "Movie C" "Comedy" "2024-02-01" :: [row "Movie B" "N/A" "2024-02-01"] ∧
  row "Movie C" "Comedy" "2024-02-01" !! "Movie Title" = Some (VStr "Movie C") ∧
  Forall (λ m, m !! "Movie Title" ≠ Some (VStr "Movie C"))
         ([] ++ [row "Movie B" "N/A" "2024-02-01"]) ∧
  ∃ out, merge_data sheet_ba fresh_cb = Some out ∧
         titled (VStr "Movie C") out = [row "Movie C" "Comedy" "2024-02-01"].
Proof.
  assert (inputs_ok sheet_ba fresh_cb) as Hin.
  { split; [apply MergeSpec.sheet_ba_ok|]. repeat constructor; apply MergeSpec.row_is_ok. }
  assert (Forall (λ m : record, m !! "Movie Title" ≠ Some (VStr "Movie C"))
                 ([] ++ [row "Movie B" "N/A" "2024-02-01"])) as Hrest.
  { repeat constructor; vm_compute; discriminate. }
  assert (row "Movie C" "Comedy" "2024-02-01" !! "Movie Title" = Some (VStr "Movie C")) as Ht.
  { vm_compute. reflexivity. }
  split; [exact Hin|]. split; [reflexivity|]. split; [reflexivity|].
  split; [exact Ht|]. split; [exact Hrest|].
  apply (merge_adds_new_row sheet_ba fresh_cb [] (row "Movie C" "Comedy" "2024-02-01")
           [row "Movie B" "N/A" "2024-02-01"] (VStr "Movie C") Hin eq_refl eq_refl Ht Hrest).
Defined.

(** X3: the output of [merge_data] has one row per title, and its titles
    are those of the existing collection together with those of the fresh
    rows: no row is lost and none appears from nowhere. *)
Theorem merge_titles_are_existing_and_fresh existing fresh :
  inputs_ok existing fresh →
  ∃ out, merge_data existing fresh = Some out ∧
    NoDup (title_key <$> out) ∧
    ∀ t, t ∈ title_key <$> out ↔
         t ∈ od_keys existing ∨ Exists (λ m, m !! "Movie Title" = Some t) fresh.
Proof.
  intros Hin.
  destruct (merge_data_output _ _ Hin)
    as (updated & out & Hloop & Hok & Hout & Hperm & _ & _).
  exists out. split; [done|].
  assert (title_key <$> out ≡ₚ od_keys updated) as Hkeys.
  { rewrite <- Hperm. by rewrite keyed_title_keys by apply Hok. }
  split; [rewrite Hkeys; apply Hok|].
  intros t. rewrite Hkeys, <- !od_get_is_Some. by apply merge_loop_keys.
Qed.

Lemma merge_titles_are_existing_and_fresh_witness :
  inputs_ok sheet_ba fresh_cb ∧
  ∃ out, merge_data sheet_ba fresh_cb = Some out ∧
    NoDup (title_key <$> out) ∧
    ∀ t, t ∈ title_key <$> out ↔
         t ∈ od_keys sheet_ba ∨ Exists (λ m, m !! "Movie Title" = Some t) fresh_cb.
Proof.
  assert (inputs_ok sheet_ba fresh_cb) as Hin.
  { split; [apply MergeSpec.sheet_ba_ok|]. repeat constructor; apply MergeSpec.row_is_ok. }
  split; [exact Hin|]. exact (merge_titles_are_existing_and_fresh sheet_ba fresh_cb Hin).
Defined.

Lemma merge_loop_raises_without_title d fresh :
  Exists (λ m : record, m !! "Movie Title" = None) fresh → merge_loop d fresh = None.
Proof.
  intros Hex. revert d. induction Hex as [m fresh Hm|m fresh _ IH]; intros d; simpl.
  - unfold merge_step. by rewrite Hm.
  - destruct (merge_step d m); simpl; [apply IH|done].
Qed.

(** X4: a fresh row without the title column makes [merge_data] raise,
    whatever the other rows and the existing collection are. *)
Theorem merge_raises_without_title existing fresh :
  Exists (λ m : record, m !! "Movie Title" = None) fresh →
  merge_data existing fresh = None.
Proof.
  intros Hex. unfold merge_data. by rewrite merge_loop_raises_without_title.
Qed.

Lemma merge_raises_without_title_witness :
  Exists (λ m : record, m !! "Movie Title" = None)
         [fresh_a; {[ "Genre" := VStr "Drama" ]}] ∧
  merge_data sheet_a [fresh_a; {[ "Genre" := VStr "Drama" ]}] = None.
Proof.
  assert (Exists (λ m : record, m !! "Movie Title" = None)
                 [fresh_a; {[ "Genre" := VStr "Drama" ]}]) as Hex.
  { right. left. vm_compute. reflexivity. }
  split; [exact Hex|]. exact (merge_raises_without_title sheet_a _ Hex).
Defined.



(** *** Titles of mixed type *)

Lemma lt_same_kind a b o :
  lt a b = Some o → (is_str a ∧ is_str b) ∨ (is_int a ∧ is_int b).
Proof.
  destruct a, b; simpl; try done; intros _; [right|left]; split; by eexists.
Qed.

Lemma str_not_int v : is_str v → is_int v → False.
Proof. intros [s ->] [z Hz]. discriminate Hz. Qed.

(** [sorted] returns only on keys of one type, or on fewer than two rows. *)
Lemma sorted_uniform {A} (key : A → value) l l' :
  sorted key l = Some l' →
  (length l ≤ 1)%nat ∨ Forall (λ a, is_str (key a)) l ∨ Forall (λ a, is_int (key a)) l.
Proof.
  revert l'. induction l as [|x l IH]; intros l'; simpl; [left; lia|].
  destruct (sorted key l) as [s|] eqn:Hs; simpl; [|done].
  intros Hins. pose proof (sorted_perm _ _ _ Hs) as Hperm.
  destruct s as [|y s]; [apply Permutation_nil_r in Hperm as ->; left; simpl; lia|].
  simpl in Hins. destruct (lt (key y) (key x)) as [o|] eqn:Hlt; [|done].
  apply lt_same_kind in Hlt. right.
  assert (y ∈ l) as Hy by (rewrite Hperm; left).
  destruct (IH _ eq_refl) as [Hlen|[Hstr|Hint]].
  - destruct l as [|y' [|? ?]]; simpl in Hlen; try lia.
    + by apply elem_of_nil in Hy.
    + apply list_elem_of_singleton in Hy as ->.
      destruct Hlt as [[? ?]|[? ?]]; [left|right]; by repeat constructor.
  - left. constructor; [|done]. rewrite Forall_forall in Hstr.
    destruct Hlt as [[_ ?]|[Hyint _]]; [done|].
    destruct (str_not_int _ (Hstr _ Hy) Hyint).
  - right. constructor; [|done]. rewrite Forall_forall in Hint.
    destruct Hlt as [[Hystr _]|[_ ?]]; [|done].
    destruct (str_not_int _ Hystr (Hint _ Hy)).
Qed.

Lemma sorted_raises_on_mixed {A} (key : A → value) l x y :
  x ∈ l → y ∈ l → is_str (key x) → is_int (key y) → sorted key l = None.
Proof.
  intros Hx Hy Hstr Hint. destruct (sorted key l) as [l'|] eqn:Hs; [|done].
  exfalso. destruct (sorted_uniform _ _ _ Hs) as [Hlen|[Hall|Hall]].
  - destruct l as [|z [|? ?]]; simpl in Hlen; try lia.
    + by apply elem_of_nil in Hx.
    + apply list_elem_of_singleton in Hx as ->.
      apply list_elem_of_singleton in Hy as ->. by eapply str_not_int.
  - rewrite Forall_forall in Hall. by eapply str_not_int; [apply (Hall y)|].
  - rewrite Forall_forall in Hall. by eapply str_not_int; [|apply (Hall x)].
Qed.

(** An entry that carries its key as title keeps doing so. *)
Lemma merge_step_title_stays d movie d' k r :
  merge_step d movie = Some d' →
  od_get k d = Some r → r !! "Movie Title" = Some k →
  ∃ r', od_get k d' = Some r' ∧ r' !! "Movie Title" = Some k.
Proof.
  intros Hs Hg Hr. destruct (decide (movie !! "Movie Title" = Some k)) as [Ht|Ht].
  - destruct (merge_step_lookup_same _ _ _ _ Ht Hs) as (merged & Hm & Hu).
    rewrite Hg in Hu. exists merged. split; [done|].
    rewrite (update_entry_lookup _ _ _ "Movie Title" Hu), decide_False by done.
    unfold field_merge. rewrite Ht, Hr. by destruct (overwrites k).
  - exists r. by rewrite (merge_step_lookup_other _ _ _ _ Ht Hs).
Qed.

Lemma merge_loop_title_stays d fresh d' k r :
  merge_loop d fresh = Some d' →
  od_get k d = Some r → r !! "Movie Title" = Some k →
  ∃ r', od_get k d' = Some r' ∧ r' !! "Movie Title" = Some k.
Proof.
  revert d r. induction fresh as [|m fresh IH]; intros d r; simpl.
  - intros [= <-] ? ?. by exists r.
  - destruct (merge_step d m) as [d1|] eqn:Hs; simpl; [|done].
    intros Hl Hg Hr.
    destruct (merge_step_title_stays _ _ _ _ _ Hs Hg Hr) as (r1 & Hg1 & Hr1).
    by eapply IH.
Qed.

(** The entry of a merged row whose title overwrites carries that title. *)
Lemma merge_step_title_set d movie d' k :
  merge_step d movie = Some d' →
  movie !! "Movie Title" = Some k → overwrites k = true →
  ∃ r', od_get k d' = Some r' ∧ r' !! "Movie Title" = Some k.
Proof.
  intros Hs Ht Hk.
  destruct (merge_step_lookup_same _ _ _ _ Ht Hs) as (merged & Hm & Hu).
  exists merged. split; [done|]. destruct (od_get k d) as [target|].
  - rewrite (update_entry_lookup _ _ _ "Movie Title" Hu), decide_False by done.
    unfold field_merge. by rewrite Ht, Hk.
  - by subst merged.
Qed.

Lemma merge_loop_title_set d fresh d' movie k :
  merge_loop d fresh = Some d' → movie ∈ fresh →
  movie !! "Movie Title" = Some k → overwrites k = true →
  ∃ r', od_get k d' = Some r' ∧ r' !! "Movie Title" = Some k.
Proof.
  revert d. induction fresh as [|m fresh IH]; intros d Hl Hin Ht Hk; simpl in Hl.
  - by apply elem_of_nil in Hin.
  - destruct (merge_step d m) as [d1|] eqn:Hs; simpl in Hl; [|done].
    apply elem_of_cons in Hin as [<-|Hin]; [|by eapply IH].
    destruct (merge_step_title_set _ _ _ _ Hs Ht Hk) as (r1 & Hg1 & Hr1).
    by eapply merge_loop_title_stays.
Qed.

(** X6: when the collection holds a row whose title is an [int] (a title
    such as 1917 read back from the sheet as a number) and a fresh row has
    a non-empty, non-sentinel [str] title, [merge_data] raises: the final
    [sorted] cannot compare the two titles. *)
Theorem merge_raises_on_mixed_titles existing fresh z r movie s :
  od_get (VInt z) existing = Some r →
  r !! "Movie Title" = Some (VInt z) →
  movie ∈ fresh →
  movie !! "Movie Title" = Some (VStr s) →
  overwrites (VStr s) = true →
  merge_data existing fresh = None.
Proof.
  intros Hg Hr Hin Ht Hs. unfold merge_data.
  destruct (merge_loop existing fresh) as [updated|] eqn:Hloop; simpl; [|done].
  destruct (merge_loop_title_stays _ _ _ _ _ Hloop Hg Hr) as (ri & Hgi & Hri).
  destruct (merge_loop_title_set _ _ _ _ _ Hloop Hin Ht Hs) as (rs & Hgs & Hrs).
  apply (sorted_raises_on_mixed title_key _ rs ri).
  - apply od_values_elem. exists (VStr s). by apply od_get_Some_elem.
  - apply od_values_elem. exists (VInt z). by apply od_get_Some_elem.
  - exists s. unfold title_key. by rewrite Hrs.
  - exists z. unfold title_key. by rewrite Hri.
Qed.

Lemma merge_raises_on_mixed_titles_witness :
  od_get (VInt 1917) [(VInt 1917, ({[ "Movie Title" := VInt 1917 ]} : record))]
    = Some {[ "Movie Title" := VInt 1917 ]} ∧
  ({[ "Movie Title" := VInt 1917 ]} : record) !! "Movie Title" = Some (VInt 1917) ∧
  fresh_a ∈ [fresh_a] ∧
  fresh_a !! "Movie Title" = Some (VStr "Movie A") ∧
  overwrites (VStr "Movie A") = true ∧
  merge_data [(VInt 1917, {[ "Movie Title" := VInt 1917 ]})] [fresh_a] = None.
Proof.
  assert (fresh_a !! "Movie Title" = Some (VStr "Movie A")) as Ht by (vm_compute; reflexivity).
  assert (fresh_a ∈ [fresh_a]) as Hin by left.
  assert (({[ "Movie Title" := VInt 1917 ]} : record) !! "Movie Title" = Some (VInt 1917))
    as Hr by (vm_compute; reflexivity).
  split; [reflexivity|]. split; [exact Hr|]. split; [exact Hin|].
  split; [exact Ht|]. split; [reflexivity|].
  apply (merge_raises_on_mixed_titles
           [(VInt 1917, {[ "Movie Title" := VInt 1917 ]})] [fresh_a] 1917
           {[ "Movie Title" := VInt 1917 ]} fresh_a "Movie A" eq_refl Hr Hin Ht eq_refl).
Defined.

End MergeMore.

(* ===================================================================== *)
(** ** The sink adapter: properties *)
(* ===================================================================== *)

Module SheetSpec.
Import Py PyFacts Merge MergeFacts Sheet Builder Props Samples.

Lemma own_title_set k r d :
  r !! "Movie Title" = Some k → own_title d → own_title (od_set k r d).
Proof.
  unfold own_title. rewrite !Forall_forall. intros Hr Hd [k' r'] Hin.
  apply od_elem_set_inv in Hin as [[-> ->]|Hin]; [done|by apply Hd].
Qed.

Lemma index_by_title_inv d records d' :
  index_by_title d records = Some d' →
  (od_wf d → od_wf d') ∧ (own_title d → own_title d') ∧
  (Forall has_title records → keyed_by_title d → keyed_by_title d').
Proof.
  revert d. induction records as [|r records IH]; intros d; simpl.
  - by intros [= <-].
  - destruct (r !! "Movie Title") as [title|] eqn:Ht; simpl; [|done].
    intros Hidx. destruct (IH _ Hidx) as (Hwf & Hown & Hkeyed). split_and!.
    + intros Hd. by apply Hwf, od_wf_set.
    + intros Hd. by apply Hown, own_title_set.
    + intros [[s Hs] Hrest]%Forall_cons Hd. apply Hkeyed; [done|].
      assert (title = VStr s) as -> by congruence.
      apply keyed_by_title_set; [by exists s|done|done].
Qed.

Lemma index_by_title_total d records :
  Forall (λ r : record, is_Some (r !! "Movie Title")) records →
  is_Some (index_by_title d records).
Proof.
  intros Hall. revert d. induction Hall as [|r records [t Ht] _ IH]; intros d; simpl.
  - by eauto.
  - rewrite Ht. simpl. apply IH.
Qed.

Lemma index_by_title_app d l1 l2 :
  index_by_title d (l1 ++ l2) = index_by_title d l1 ≫= λ d', index_by_title d' l2.
Proof.
  revert d. induction l1 as [|r l1 IH]; intros d; simpl; [done|].
  destruct (r !! "Movie Title"); simpl; [apply IH|done].
Qed.

Lemma index_by_title_other d records d' t :
  Forall (λ r : record, r !! "Movie Title" ≠ Some t) records →
  index_by_title d records = Some d' → od_get t d' = od_get t d.
Proof.
  intros Hall. revert d. induction Hall as [|r records Hr _ IH]; intros d; simpl.
  - by intros [= <-].
  - destruct (r !! "Movie Title") as [title|] eqn:Ht; simpl; [|done].
    intros Hidx. rewrite (IH _ Hidx). apply od_get_set_ne. congruence.
Qed.

(** X7: whatever [get_all_records] returns, [read_master_sheet] yields a
    dictionary (no title twice) whose rows sit under their own title; when
    the titles read are strings it is a collection [merge_data] accepts,
    and [merge_data] returns on it for any well-formed fresh batch. *)
Theorem read_master_sheet_feeds_merge records :
  od_wf (read_master_sheet records) ∧
  own_title (read_master_sheet records) ∧
  ∀ rows fresh,
    records = Some rows → Forall has_title rows → Forall row_ok fresh →
    collection_ok (read_master_sheet records) ∧
    ∃ out, merge_data (read_master_sheet records) fresh = Some out.
Proof.
  unfold read_master_sheet.
  destruct (records ≫= index_by_title []) as [d|] eqn:Hidx.
  - destruct records as [rows|]; simpl in Hidx; [|done].
    destruct (index_by_title_inv _ _ _ Hidx) as (Hwf & Hown & Hkeyed).
    split; [apply Hwf; constructor|]. split; [apply Hown; constructor|].
    intros rows' fresh [= <-] Hrows Hfresh.
    assert (collection_ok d) as Hok.
    { split; [apply Hwf; constructor|apply Hkeyed; [done|constructor]]. }
    split; [done|].
    destruct (merge_data_output d fresh) as (updated & out & _ & _ & Hout & _);
      [by split|]. by exists out.
  - split; [constructor|]. split; [constructor|].
    intros rows fresh -> Hrows Hfresh. simpl in Hidx.
    destruct (index_by_title_total [] rows) as [d Hd]; [|congruence].
    eapply Forall_impl; [exact Hrows|]. intros r [s Hs]. by eauto.
Qed.

(** X8: when several rows of the sheet have one title, the collection holds
    the last of them under that title. *)
Theorem read_master_sheet_last_row_wins rows pre r post t :
  rows = pre ++ r :: post →
  Forall (λ r : record, is_Some (r !! "Movie Title")) rows →
  r !! "Movie Title" = Some t →
  Forall (λ r' : record, r' !! "Movie Title" ≠ Some t) post →
  od_get t (read_master_sheet (Some rows)) = Some r.
Proof.
  intros -> Hall Ht Hpost. unfold read_master_sheet. simpl.
  destruct (index_by_title_total [] _ Hall) as [d Hd]. rewrite Hd.
  rewrite index_by_title_app in Hd.
  destruct (index_by_title [] pre) as [d1|]; simpl in Hd; [|done].
  rewrite Ht in Hd. simpl in Hd.
  rewrite (index_by_title_other _ _ _ _ Hpost Hd). apply od_get_set_eq.
Qed.

Lemma read_master_sheet_last_row_wins_witness :
  [row "Movie A" "Action" "2024-01-01"; row "Movie A" "Drama" "2024-01-02"]
    = [row "Movie A" "Action" "2024-01-01"] ++ row "Movie A" "Drama" "2024-01-02" :: [] ∧
  Forall (λ r : record, is_Some (r !! "Movie Title"))
    [row "Movie A" "Action" "2024-01-01"; row "Movie A" "Drama" "2024-01-02"] ∧
  row "Movie A" "Drama" "2024-01-02" !! "Movie Title" = Some (VStr "Movie A") ∧
  Forall (λ r' : record, r' !! "Movie Title" ≠ Some (VStr "Movie A")) [] ∧
  od_get (VStr "Movie A")
    (read_master_sheet
       (Some [row "Movie A" "Action" "2024-01-01"; row "Movie A" "Drama" "2024-01-02"]))
    = Some (row "Movie A" "Drama" "2024-01-02").
Proof.
  assert (Forall (λ r : record, is_Some (r !! "Movie Title"))
            [row "Movie A" "Action" "2024-01-01"; row "Movie A" "Drama" "2024-01-02"]) as Hall.
  { repeat constructor; eexists; vm_compute; reflexivity. }
  assert (row "Movie A" "Drama" "2024-01-02" !! "Movie Title" = Some (VStr "Movie A")) as Ht.
  { vm_compute. reflexivity. }
  split; [reflexivity|]. split; [exact Hall|]. split; [exact Ht|]. split; [constructor|].
  apply (read_master_sheet_last_row_wins _ [row "Movie A" "Action" "2024-01-01"]
           (row "Movie A" "Drama" "2024-01-02") [] (VStr "Movie A") eq_refl Hall Ht).
  constructor.
Defined.

Lemma index_by_title_raises d rows :
  Exists (λ r : record, r !! "Movie Title" = None) rows → index_by_title d rows = None.
Proof.
  intros Hex. revert d. induction Hex as [r rows Hr|r rows _ IH]; intros d; simpl.
  - by rewrite Hr.
  - destruct (r !! "Movie Title"); simpl; [apply IH|done].
Qed.

(** X9: one row without the title column, among any number of good rows,
    leaves [read_master_sheet] with the empty collection, as when reading
    the sheet raised; the merge that follows then sees no history at all. *)
Theorem read_master_sheet_bad_row_empties rows fresh :
  Exists (λ r : record, r !! "Movie Title" = None) rows →
  read_master_sheet (Some rows) = [] ∧
  read_master_sheet (Some rows) = read_master_sheet None ∧
  merge_data (read_master_sheet (Some rows)) fresh = merge_data [] fresh.
Proof.
  intros Hex. unfold read_master_sheet. simpl.
  by rewrite index_by_title_raises.
Qed.

Lemma read_master_sheet_bad_row_empties_witness :
  Exists (λ r : record, r !! "Movie Title" = None)
         [row "Movie A" "Action" "2024-01-01"; {[ "Genre" := VStr "Drama" ]}] ∧
  read_master_sheet
    (Some [row "Movie A" "Action" "2024-01-01"; {[ "Genre" := VStr "Drama" ]}]) = [] ∧
  read_master_sheet
    (Some [row "Movie A" "Action" "2024-01-01"; {[ "Genre" := VStr "Drama" ]}])
    = read_master_sheet None ∧
  merge_data
    (read_master_sheet
       (Some [row "Movie A" "Action" "2024-01-01"; {[ "Genre" := VStr "Drama" ]}]))
    [fresh_a]
    = merge_data [] [fresh_a].
Proof.
  assert (Exists (λ r : record, r !! "Movie Title" = None)
            [row "Movie A" "Action" "2024-01-01"; {[ "Genre" := VStr "Drama" ]}]) as Hex.
  { right. left. vm_compute. reflexivity. }
  split; [exact Hex|].
  exact (read_master_sheet_bad_row_empties _ [fresh_a] Hex).
Defined.

(** *** Writing back *)

Lemma length_sheet_row d : length (sheet_row d) = 17%nat.
Proof. reflexivity. Qed.

(** X10: when [update_master_sheet] is given rows and clearing does not
    raise, it clears the sheet and then writes one table: the header row
    followed by one row per record, in the order given, every row 17 cells
    wide. With no rows it touches nothing. *)
Theorem update_master_sheet_shape data :
  update_master_sheet false [] = [] ∧
  (data ≠ [] →
   ∃ rows, update_master_sheet false data = [Clear; Update rows "USER_ENTERED"] ∧
     update_master_sheet true data = [Clear] ∧
     rows !! 0%nat = Some HEADERS ∧
     length rows = S (length data) ∧
     Forall (λ cells, length cells = 17%nat) rows ∧
     ∀ i d, data !! i = Some d → rows !! S i = Some (sheet_row d)).
Proof.
  split; [done|]. intros Hne. exists (rows_to_write data).
  destruct data as [|d0 data]; [done|]. unfold update_master_sheet, rows_to_write.
  split_and!; [done|done|done|by rewrite length_cons, length_fmap| |].
  - constructor; [reflexivity|]. apply Forall_fmap, Forall_forall. intros d _.
    apply length_sheet_row.
  - intros i d Hd. change ((sheet_row <$> d0 :: data) !! i = Some (sheet_row d)).
    by rewrite list_lookup_fmap, Hd.
Qed.

(** A row depends on the 17 columns only: what else a record holds is not
    written, and a column it lacks is written empty. *)
Lemma sheet_row_cell d i h :
  HEADERS !! i = Some h →
  sheet_row d !! i = Some (py_str (default (VStr EmptyString) (d !! h))).
Proof. intros Hh. unfold sheet_row. by rewrite list_lookup_fmap, Hh. Qed.

(** X11: the row built for a scraped movie (its poster URL a string) is
    written column for column:
    the 17 keys of the record are the 17 headers, so no value is dropped
    or misplaced. The poster path of a failed download is written as the
    text [None], and the showtimes cell stays under 50000 characters. *)
Theorem scraped_record_row title movie_url description total_minutes
    formatted_date language genre distributor classification cast director
    format poster_url local_poster_path showtimes_data scrape_date :
  sheet_row
    (scraped_record title movie_url description total_minutes formatted_date
       language genre distributor classification cast director format poster_url
       local_poster_path showtimes_data scrape_date)
  = [ title; movie_url; description; py_str total_minutes; formatted_date;
      language; genre; distributor; classification; cast; director; format;
      "N/A"; poster_url;
      match local_poster_path with Some path => path | None => "None" end;
      truncate_showtimes showtimes_data; scrape_date ] ∧
  len (truncate_showtimes showtimes_data) < 50000.
Proof.
  split.
  - unfold scraped_record. generalize (truncate_showtimes showtimes_data). intros stored.
    destruct local_poster_path; reflexivity.
  - pose proof BuilderSpec.limit_value as Hlimit.
    pose proof BuilderSpec.len_marker as Hmarker.
    pose proof (BuilderSpec.len_nonneg showtimes_data) as Hnonneg.
    destruct (Z.le_gt_cases (len showtimes_data) SHEETS_CELL_CHAR_LIMIT) as [Hle|Hgt].
    + rewrite BuilderSpec.truncate_showtimes_short by done. lia.
    + rewrite BuilderSpec.truncate_showtimes_long, BuilderSpec.len_append,
        BuilderSpec.len_slice_to by lia. lia.
Qed.

Lemma sheet_row_title (d : record) :
  has_title d → default EmptyString (head (sheet_row d)) = str_of (title_key d).
Proof. intros [s Hs]. unfold sheet_row, title_key. simpl. by rewrite Hs. Qed.

Lemma first_cells (out : list record) :
  Forall has_title out →
  (λ cells, default EmptyString (head cells)) <$> (sheet_row <$> out)
  = (str_of ∘ title_key <$> out).
Proof.
  induction 1 as [|d out Hd _ IH]; [done|].
  rewrite !fmap_cons. f_equal; [by apply sheet_row_title|done].
Qed.

(** X12: when at least one movie was scraped, the end of the run clears
    the sheet and writes the header followed by one row per title of the
    merge, with the title column strictly ascending down the rows; the
    guard for an empty table never fires there. With nothing scraped the
    sheet is not touched. *)
Theorem reconcile_rewrites_sorted existing scraped :
  inputs_ok existing scraped →
  scraped ≠ [] →
  ∃ out,
    merge_data existing scraped = Some out ∧
    out ≠ [] ∧
    reconcile false existing scraped
      = Some [Clear; Update (HEADERS :: (sheet_row <$> out)) "USER_ENTERED"] ∧
    reconcile true existing scraped = Some [Clear] ∧
    reconcile false existing [] = Some [] ∧
    Sorted str_lt ((λ cells, default EmptyString (head cells)) <$> (sheet_row <$> out)).
Proof.
  intros Hin Hne.
  destruct (merge_data_sorted _ _ Hin)
    as (updated & out & Hloop & Hok & Hout & Hperm & Htitles & Hle & Hnd).
  destruct (merge_data_output _ _ Hin) as (updated' & out' & _ & _ & Hout' & _ & Htitle & _).
  assert (out' = out) as -> by congruence.
  assert (out ≠ []) as Hout_ne.
  { destruct scraped as [|m scraped]; [done|].
    destruct Hin as [_ [[[s Hs] _] _]%Forall_cons].
    destruct (merge_loop_present _ _ _ (VStr s) Hloop) as [r Hr]; [right; by left|].
    intros ->. apply Permutation_nil_r in Hperm.
    apply od_get_Some_elem in Hr. destruct updated; [by apply elem_of_nil in Hr|done]. }
  exists out. split_and!; [done|done| | |done|].
  - destruct scraped; [done|]. unfold reconcile. rewrite Hout. simpl.
    by destruct out.
  - destruct scraped; [done|]. unfold reconcile. rewrite Hout. simpl.
    by destruct out.
  - rewrite (first_cells out Htitle). by apply Sorted_strict.
Qed.

Lemma reconcile_rewrites_sorted_witness :
  inputs_ok sheet_ba fresh_cb ∧ fresh_cb ≠ [] ∧
  ∃ out,
    merge_data sheet_ba fresh_cb = Some out ∧
    out ≠ [] ∧
    reconcile false sheet_ba fresh_cb
      = Some [Clear; Update (HEADERS :: (sheet_row <$> out)) "USER_ENTERED"] ∧
    reconcile true sheet_ba fresh_cb = Some [Clear] ∧
    reconcile false sheet_ba [] = Some [] ∧
    Sorted str_lt ((λ cells, default EmptyString (head cells)) <$> (sheet_row <$> out)).
Proof.
  assert (inputs_ok sheet_ba fresh_cb) as Hin.
  { split; [apply MergeSpec.sheet_ba_ok|]. repeat constructor; apply MergeSpec.row_is_ok. }
  assert (fresh_cb ≠ []) as Hne by discriminate.
  split; [exact Hin|]. split; [exact Hne|].
  exact (reconcile_rewrites_sorted sheet_ba fresh_cb Hin Hne).
Defined.

End SheetSpec.

(* ===================================================================== *)
(** ** The showtime extraction: further properties *)
(* ===================================================================== *)

Module ParseMore.
Import Py PyFacts Showtimes ParseFacts Props Samples.

Lemma nonempty_ne s : nonempty s = true ↔ s ≠ EmptyString.
Proof.
  unfold nonempty. rewrite negb_true_iff. split.
  - intros Hf ->. by rewrite String.eqb_refl in Hf.
  - intros Hne. by apply String.eqb_neq.
Qed.

Lemma dedup_sort_keys d t : dedup_sort d = Some t → od_keys t = od_keys d.
Proof.
  revert t. induction d as [|[c ts] d IH]; simpl; intros t.
  - by intros [= <-].
  - destruct (sorted VStr (set_list ts)); simpl; [|done].
    destruct (dedup_sort d) as [t'|]; simpl; [|done].
    intros [= <-]. simpl. f_equal. by apply IH.
Qed.

Lemma scan_element_scanned els st el st' :
  el ∈ els → scan_element st el = Some st' → scanned els st.1 → scanned els st'.1.
Proof.
  destruct st as [showtimes current]. simpl. intros Hel Hs (Hwf & Hnames & Hlabels).
  destruct el as [[b_text|]|labels]; simpl in Hs.
  - destruct (od_mem (strip b_text) showtimes) eqn:Hmem; injection Hs as <-; simpl;
      [done|]. split_and!.
    + by apply od_wf_set.
    + intros c. rewrite od_keys_set, Hmem. rewrite elem_of_app, list_elem_of_singleton.
      intros [Hc| ->]; [by apply Hnames|by exists b_text].
    + intros c ts l [[-> ->]|Hin]%od_elem_set_inv Hl; [by apply elem_of_nil in Hl|].
      by eapply Hlabels.
  - by injection Hs as <-.
  - destruct (_ && _); [|by injection Hs as <-].
    destruct (od_get current showtimes) as [old|] eqn:Hold; simpl in Hs; [|done].
    injection Hs as <-. simpl. split_and!.
    + by apply od_wf_set.
    + intros c. rewrite od_keys_set. unfold od_mem. rewrite Hold. apply Hnames.
    + intros c ts l [[-> ->]|Hin]%od_elem_set_inv Hl; [|by eapply Hlabels].
      apply elem_of_app in Hl as [Hl|Hl].
      * eapply Hlabels; [by apply od_get_Some_elem|done].
      * apply list_elem_of_filter in Hl as [Hne%nonempty_ne Hl].
        apply list_elem_of_fmap in Hl as (raw & -> & Hraw).
        split; [done|]. by exists labels, raw.
Qed.

Lemma scan_elements_scanned els st suffix st' :
  (∀ el, el ∈ suffix → el ∈ els) →
  scan_elements st suffix = Some st' → scanned els st.1 → scanned els st'.1.
Proof.
  revert st. induction suffix as [|el suffix IH]; intros st Hsub; simpl.
  - by intros [= <-].
  - destruct (scan_element st el) as [st1|] eqn:Hs; simpl; [|done].
    intros Hscan Hst. apply (IH st1); [|done|].
    + intros e He. apply Hsub. by right.
    + eapply scan_element_scanned; [|done|done]. apply Hsub. left.
Qed.

(** X13: the table of a page is a dictionary of the cinemas the page
    introduces: no name twice, and a name is in it exactly when a
    cinema-name anchor with a bold text introduces it. *)
Theorem page_table_names page :
  od_wf (table_of page) ∧
  ∀ c, c ∈ od_keys (table_of page) ↔ introduced (showtimes_list page) c.
Proof.
  pose proof (parse_table_of page) as Hparse.
  unfold parse_showtimes_from_html in Hparse.
  destruct (scan_elements _ (showtimes_list page)) as [st|] eqn:Hscan;
    simpl in Hparse; [|done].
  destruct (scan_elements_scanned (showtimes_list page) _ _ _ (λ _ H, H) Hscan)
    as (Hwf & Hnames & _).
  { split_and!; [constructor| |]; simpl.
    - intros c Hc. by apply elem_of_nil in Hc.
    - intros c ts l Hin. by apply elem_of_nil in Hin. }
  unfold od_wf. rewrite (dedup_sort_keys _ _ Hparse). split; [done|].
  intros c. split; [apply Hnames|].
  intros (b_text & Hin & <-). rewrite <- (dedup_sort_keys _ _ Hparse).
  apply od_get_is_Some. rewrite (dedup_sort_get _ _ (strip b_text) Hparse).
  destruct (ParseSpec.scan_elements_intro _ _ _ _ Hin Hscan) as [ts0 ->]. simpl.
  apply sorted_labels_total.
Qed.

(** X14: every time label in the table of a page is the stripped,
    non-empty text of a label of one of the page's time blocks: the
    extraction invents no label and keeps no blank one. *)
Theorem page_table_labels_offered page c ts l :
  (c, ts) ∈ table_of page → l ∈ ts → offered (showtimes_list page) l.
Proof.
  intros Hin Hl. pose proof (parse_table_of page) as Hparse.
  unfold parse_showtimes_from_html in Hparse.
  destruct (scan_elements _ (showtimes_list page)) as [st|] eqn:Hscan;
    simpl in Hparse; [|done].
  destruct (scan_elements_scanned (showtimes_list page) _ _ _ (λ _ H, H) Hscan)
    as (_ & _ & Hlabels).
  { split_and!; [constructor| |]; simpl.
    - intros c' Hc. by apply elem_of_nil in Hc.
    - intros c' ts' l' Hin'. by apply elem_of_nil in Hin'. }
  destruct (dedup_sort_elem _ _ _ _ Hparse Hin) as (ts0 & Hin0 & Hs).
  apply (Hlabels c ts0 l Hin0).
  apply sorted_perm in Hs. rewrite <- Hs in Hl. unfold set_list in Hl.
  by rewrite elem_of_remove_dups in Hl.
Qed.

Lemma page_table_labels_offered_witness :
  ("GSC", ["10:00"]) ∈ table_of page_mon ∧ "10:00" ∈ ["10:00"] ∧
  offered (showtimes_list page_mon) "10:00".
Proof.
  assert (("GSC", ["10:00"]) ∈ table_of page_mon) as Hin by (vm_compute; left).
  assert ("10:00" ∈ ["10:00"]) as Hl by left.
  split; [exact Hin|]. split; [exact Hl|].
  exact (page_table_labels_offered page_mon "GSC" ["10:00"] "10:00" Hin Hl).
Defined.

(** The times of a cinema named like the sentinel stay empty. *)
Lemma scan_sentinel_name st els st' :
  (od_get "N/A" st.1 = None ∨ od_get "N/A" st.1 = Some []) →
  scan_elements st els = Some st' →
  od_get "N/A" st'.1 = None ∨ od_get "N/A" st'.1 = Some [].
Proof.
  revert st. induction els as [|el els IH]; intros [showtimes current]; simpl.
  - by intros Hc [= <-].
  - intros Hc. destruct el as [[b_text|]|labels]; simpl.
    + destruct (od_mem (strip b_text) showtimes) eqn:Hmem; simpl; apply IH; simpl; [done|].
      destruct (decide (strip b_text = "N/A")) as [->|Hne].
      * right. apply od_get_set_eq.
      * by rewrite od_get_set_ne.
    + by apply IH.
    + destruct (negb (bool_decide (_ = [])) && negb (String.eqb current "N/A")) eqn:Hcond.
      * apply andb_prop in Hcond as [_ Hna%negb_true_iff%eqb_false_ne].
        destruct (od_get current showtimes) as [old|]; simpl; [|done].
        apply IH. simpl. by rewrite od_get_set_ne.
      * by apply IH.
Qed.

(** X15: a cinema whose name is the sentinel text N/A never gets a time:
    the current-cinema variable cannot tell it from "no cinema yet", so its
    time blocks are dropped and its entry, when it has one, stays empty. *)
Theorem sentinel_named_cinema_has_no_times page :
  od_get "N/A" (table_of page) = None ∨ od_get "N/A" (table_of page) = Some [].
Proof.
  pose proof (parse_table_of page) as Hparse.
  unfold parse_showtimes_from_html in Hparse.
  destruct (scan_elements _ (showtimes_list page)) as [st|] eqn:Hscan;
    simpl in Hparse; [|done].
  rewrite (dedup_sort_get _ _ "N/A" Hparse).
  destruct (scan_sentinel_name ([], "N/A") (showtimes_list page) st) as [->| ->];
    [by left|done|by left|by right].
Qed.

(** Lists of labels only grow along a scan. *)
Lemma scan_element_grows st el st' c ts :
  scan_element st el = Some st' → od_get c st.1 = Some ts →
  ∃ ts', od_get c st'.1 = Some ts' ∧ ts ⊆ ts'.
Proof.
  destruct st as [showtimes current]. simpl.
  destruct el as [[b_text|]|labels]; simpl.
  - destruct (od_mem (strip b_text) showtimes) eqn:Hmem; intros [= <-] Hc; simpl;
      [by exists ts|].
    exists ts. split; [|done]. rewrite od_get_set_ne; [done|].
    intros Heq. rewrite Heq in Hmem. apply od_mem_false in Hmem. congruence.
  - intros [= <-] Hc. by exists ts.
  - destruct (_ && _); [|intros [= <-] Hc; by exists ts].
    destruct (od_get current showtimes) as [old|] eqn:Hold; simpl; [|done].
    intros [= <-] Hc. simpl. destruct (decide (current = c)) as [->|Hne].
    + rewrite od_get_set_eq. eexists. split; [done|].
      assert (old = ts) as -> by congruence. intros x Hx. apply elem_of_app. by left.
    + exists ts. by rewrite od_get_set_ne.
Qed.

Lemma scan_elements_grows st els st' c ts :
  scan_elements st els = Some st' → od_get c st.1 = Some ts →
  ∃ ts', od_get c st'.1 = Some ts' ∧ ts ⊆ ts'.
Proof.
  revert st ts. induction els as [|el els IH]; intros st ts; simpl.
  - intros [= <-] Hc. by exists ts.
  - destruct (scan_element st el) as [st1|] eqn:Hs; simpl; [|done].
    intros Hscan Hc. destruct (scan_element_grows _ _ _ _ _ Hs Hc) as (ts1 & Hc1 & Hsub1).
    destruct (IH _ _ Hscan Hc1) as (ts' & Hc' & Hsub'). exists ts'. split; [done|].
    by trans ts1.
Qed.

(** Elements that introduce no cinema leave the current one in place. *)
Lemma scan_no_intro_current st els st' :
  Forall no_intro els → scan_elements st els = Some st' → st'.2 = st.2.
Proof.
  intros Hall. revert st. induction Hall as [|el els Hel _ IH]; intros st; simpl.
  - by intros [= <-].
  - destruct (scan_element st el) as [st1|] eqn:Hs; simpl; [|done].
    intros Hscan. rewrite (IH _ Hscan). destruct st as [showtimes current].
    destruct el as [[b_text|]|labels]; simpl in *; [done|by injection Hs as <-|].
    destruct (_ && _); [|by injection Hs as <-].
    destruct (od_get current showtimes); simpl in Hs; [|done]. by injection Hs as <-.
Qed.

(** X16: a non-blank label of a time block is in the times of the cinema
    introduced last before the block, provided that cinema is not named
    like the sentinel: no offered time is lost. *)
Theorem block_label_reaches_its_cinema page pre b_text mid labels post raw :
  showtimes_list page = pre ++ Anchor (Some b_text) :: mid ++ Block labels :: post →
  Forall no_intro mid →
  strip b_text ≠ "N/A" →
  raw ∈ labels → strip raw ≠ EmptyString →
  ∃ ts, od_get (strip b_text) (table_of page) = Some ts ∧ strip raw ∈ ts.
Proof.
  intros Hsplit Hmid Hname Hraw Hblank.
  pose proof (parse_table_of page) as Hparse.
  unfold parse_showtimes_from_html in Hparse.
  destruct (scan_elements _ (showtimes_list page)) as [st|] eqn:Hscan;
    simpl in Hparse; [|done].
  rewrite Hsplit, scan_elements_app in Hscan.
  destruct (scan_elements _ pre) as [st1|]; simpl in Hscan; [|done].
  destruct (scan_element st1 (Anchor (Some b_text))) as [st2|] eqn:Hanchor;
    simpl in Hscan; [|done].
  rewrite scan_elements_app in Hscan.
  destruct (scan_elements st2 mid) as [st3|] eqn:Hscan_mid; simpl in Hscan; [|done].
  destruct (scan_element st3 (Block labels)) as [st4|] eqn:Hblock;
    simpl in Hscan; [|done].
  assert (st2.2 = strip b_text ∧ is_Some (od_get (strip b_text) st2.1)) as [Hcur2 [ts2 Hts2]].
  { destruct st1 as [showtimes current]. simpl in Hanchor.
    destruct (od_mem (strip b_text) showtimes) eqn:Hmem; injection Hanchor as <-; simpl.
    - split; [done|]. by apply od_mem_true.
    - split; [done|]. rewrite od_get_set_eq. by eauto. }
  pose proof (scan_no_intro_current _ _ _ Hmid Hscan_mid) as Hcur3. rewrite Hcur2 in Hcur3.
  destruct (scan_elements_grows _ _ _ _ _ Hscan_mid Hts2) as (ts3 & Hts3 & _).
  assert (∃ ts4, od_get (strip b_text) st4.1 = Some ts4 ∧ strip raw ∈ ts4) as (ts4 & Hts4 & Hin4).
  { destruct st3 as [showtimes current]. simpl in *. subst current.
    assert (strip raw ∈ filter (λ t, nonempty t = true) (map strip labels)) as Hin.
    { apply list_elem_of_filter. split; [by apply nonempty_ne|].
      apply list_elem_of_fmap. by exists raw. }
    destruct (bool_decide (filter (λ t, nonempty t = true) (map strip labels) = []))
      eqn:Hnil.
    { apply bool_decide_eq_true in Hnil. rewrite Hnil in Hin. by apply elem_of_nil in Hin. }
    rewrite (proj2 (String.eqb_neq _ _) Hname) in Hblock. simpl in Hblock.
    rewrite Hts3 in Hblock. simpl in Hblock. injection Hblock as <-. simpl.
    rewrite od_get_set_eq. eexists. split; [done|]. apply elem_of_app. by right. }
  destruct (scan_elements_grows _ _ _ _ _ Hscan Hts4) as (ts5 & Hts5 & Hsub).
  rewrite (dedup_sort_get _ _ (strip b_text) Hparse), Hts5. simpl.
  destruct (sorted_labels_total (set_list ts5)) as [ts Hts]. exists ts. split; [done|].
  apply sorted_perm in Hts. rewrite <- Hts. unfold set_list.
  apply elem_of_remove_dups. by apply Hsub.
Qed.

Lemma block_label_reaches_its_cinema_witness :
  showtimes_list page_mon = [] ++ Anchor (Some "GSC") :: [] ++ Block ["10:00"] :: [] ∧
  Forall no_intro [] ∧ strip "GSC" ≠ "N/A" ∧ "10:00" ∈ ["10:00"] ∧
  strip "10:00" ≠ EmptyString ∧
  ∃ ts, od_get (strip "GSC") (table_of page_mon) = Some ts ∧ strip "10:00" ∈ ts.
Proof.
  assert ("10:00" ∈ ["10:00"]) as Hraw by left.
  assert (strip "GSC" ≠ "N/A") as Hname by (vm_compute; discriminate).
  assert (strip "10:00" ≠ EmptyString) as Hblank by (vm_compute; discriminate).
  split; [reflexivity|]. split; [constructor|]. split; [exact Hname|].
  split; [exact Hraw|]. split; [exact Hblank|].
  apply (block_label_reaches_its_cinema page_mon [] "GSC" [] ["10:00"] [] "10:00"
           eq_refl (Forall_nil_2 _) Hname Hraw Hblank).
Defined.

End ParseMore.

(* ===================================================================== *)
(** ** The session walker: further properties *)
(* ===================================================================== *)

Module WalkMore.
Import Py PyFacts Showtimes ParseFacts WalkFacts Props Samples MoreSamples.

(** *** Restructuring *)

Lemma restructured_add d date_str table cinema_map item :
  (date_str, table) ∈ d → item ∈ table →
  restructured d cinema_map → restructured d (add_showing date_str cinema_map item).
Proof.
  destruct item as [c ts]. intros Hd Hitem [Hwf Hall]. unfold add_showing.
  assert (∀ e, (cinemaName e = c ∧ showings e ≠ [] ∧
                ∀ s, s ∈ showings e → ∃ table, (date s, table) ∈ d ∧ (c, times s) ∈ table) →
               restructured d (od_set c e cinema_map)) as Hset.
  { intros e He. split; [by apply od_wf_set|].
    rewrite Forall_forall in Hall. apply Forall_forall. intros [c' e'] Hin.
    apply od_elem_set_inv in Hin as [[-> ->]|Hin]; [done|by apply Hall]. }
  destruct (od_get c cinema_map) as [e|] eqn:Hg; apply Hset; simpl.
  - rewrite Forall_forall in Hall.
    destruct (Hall _ (od_get_Some_elem _ _ _ Hg)) as (Hname & _ & Hshow). simpl in *.
    split_and!; [done|by destruct (showings e)|].
    intros s [Hs| ->%list_elem_of_singleton]%elem_of_app; [by apply Hshow|by exists table].
  - split_and!; [done|done|]. intros s ->%list_elem_of_singleton. by exists table.
Qed.

Lemma restructured_date d date_str table cinema_map (items : page_table) :
  (date_str, table) ∈ d → (∀ item, item ∈ items → item ∈ table) →
  restructured d cinema_map → restructured d (foldl (add_showing date_str) cinema_map items).
Proof.
  intros Hd. revert cinema_map. induction items as [|item items IH]; intros cm Hsub Hcm;
    simpl; [done|].
  apply IH; [intros i Hi; apply Hsub; by right|].
  apply (restructured_add d date_str table); [done|apply Hsub; left|done].
Qed.

Lemma restructured_dates d (visited : dates_table) cinema_map :
  (∀ visit, visit ∈ visited → visit ∈ d) →
  restructured d cinema_map → restructured d (foldl add_date cinema_map visited).
Proof.
  revert cinema_map. induction visited as [|[date_str table] visited IH]; intros cm Hsub Hcm;
    simpl; [done|].
  apply IH; [intros v Hv; apply Hsub; by right|].
  apply (restructured_date d date_str table); [apply Hsub; left|done|done].
Qed.

(** X17: the payload structure has one entry per cinema, each with at least
    one showing; an entry has a showing of a date and times exactly when
    the table of that date lists the cinema with those times. Nothing is
    added and nothing is dropped by the restructuring. *)
Theorem restructure_showings (all_dates_data : dates_table) :
  NoDup (cinemaName <$> restructure all_dates_data) ∧
  Forall (λ e, showings e ≠ []) (restructure all_dates_data) ∧
  ∀ c label times,
    (∃ e, e ∈ restructure all_dates_data ∧ cinemaName e = c ∧
          Showing label times ∈ showings e)
    ↔ (∃ table, (label, table) ∈ all_dates_data ∧ (c, times) ∈ table).
Proof.
  pose proof (restructured_dates all_dates_data all_dates_data [] (λ _ H, H))
    as [Hwf Hall]; [by split; constructor|].
  rewrite restructure_fold. set (cm := foldl add_date [] all_dates_data) in *.
  assert (cinemaName <$> od_values cm = od_keys cm) as Hnames.
  { unfold od_values, od_keys. clear Hwf. induction Hall as [|[c e] l [Hn _] _ IH]; csimpl; [done|].
    simpl in Hn. by rewrite Hn, IH. }
  split_and!.
  - by rewrite Hnames.
  - apply Forall_forall. intros e [c Hin]%od_values_elem.
    rewrite Forall_forall in Hall. by destruct (Hall _ Hin) as (_ & Hne & _).
  - intros c label times. split.
    + intros (e & [c' Hin]%od_values_elem & <- & Hs).
      rewrite Forall_forall in Hall. destruct (Hall _ Hin) as (Hn & _ & Hshow).
      simpl in *. destruct (Hshow _ Hs) as (table & Hd & Ht). simpl in *.
      exists table. by rewrite Hn.
    + intros (table & Hd & Ht).
      destruct (restructure_keeps all_dates_data label table c times Hd Ht)
        as (e & He & Hn & Hs).
      rewrite restructure_fold in He. by exists e.
Qed.

(** *** Steps of the walk under any transport *)

Lemma posted_forms_snoc log e : posted_forms (log ++ [e]) = posted_forms log ++ posted_forms [e].
Proof. apply omap_app. Qed.

Lemma paced_nil : paced [].
Proof. intros before url data after Heq. by destruct before. Qed.

Lemma paced_snoc log e :
  (∀ url data, e ≠ Sent (Post url data)) → paced log → paced (log ++ [e]).
Proof.
  intros He Hlog before url data after Heq.
  destruct after as [|x after _] using rev_ind.
  - apply app_inj_tail in Heq as [_ ->]. by destruct (He url data).
  - rewrite app_comm_cons, app_assoc in Heq. apply app_inj_tail in Heq as [Heq _].
    by eapply Hlog.
Qed.

Lemma paced_post log url data :
  paced log → paced ((log ++ [Slept REQUEST_DELAY]) ++ [Sent (Post url data)]).
Proof.
  intros Hlog before url' data' after Heq.
  destruct after as [|x after _] using rev_ind.
  - apply app_inj_tail in Heq as [<- _]. by exists log.
  - rewrite app_comm_cons, app_assoc in Heq. apply app_inj_tail in Heq as [Heq _].
    destruct after as [|y after _] using rev_ind.
    + by apply app_inj_tail in Heq as [_ ?].
    + rewrite app_comm_cons, app_assoc in Heq. apply app_inj_tail in Heq as [Heq _].
      by eapply Hlog.
Qed.

Section any_client.
Variable client : nat → reply.
Variable raises_for_status : Z → bool.

Lemma send_log r log : (send client r log).2 = log ++ [Sent r].
Proof. unfold send. by destruct (client _). Qed.

Lemma parse_log page log : (parse page log).2 = log ++ [Parsed page].
Proof. by rewrite parse_step. Qed.

(** One turn of the loop, whatever the transport answers. *)
Lemma post_loop_cons url date_val date_txt rest st log :
  let data := form_data (viewstate st) (eventvalidation st) date_val in
  let log1 := (log ++ [Slept REQUEST_DELAY]) ++ [Sent (Post url data)] in
  post_loop client url ((date_val, date_txt) :: rest) st log =
    match client (S (requests_sent log) - 1) with
    | Failed => (None, log1)
    | Response status_code post_soup =>
        if negb (status_code =? 200) then (Some st, log1)
        else post_loop client url rest
               (LoopState (refresh (viewstate st) (viewstate_field post_soup))
                          (refresh (eventvalidation st) (eventvalidation_field post_soup))
                          (od_set date_txt (table_of post_soup) (all_dates_data st)))
               (log1 ++ [Parsed post_soup])
    end.
Proof.
  simpl. unfold bind at 1, sleep, emit. unfold bind at 1, send.
  rewrite requests_sent_snoc. simpl.
  replace (requests_sent log + 0)%nat with (requests_sent log - 0)%nat by lia.
  destruct (client _) as [|status_code post_soup]; [done|].
  destruct (negb (status_code =? 200)); [done|].
  unfold bind at 1. by rewrite parse_step.
Qed.

Lemma post_loop_bounds url dates :
  ∀ st log,
    let log' := (post_loop client url dates st log).2 in
    (requests_sent log' ≤ requests_sent log + length dates)%nat ∧
    (length (posted_dates log') ≤ length (posted_dates log) + length dates)%nat ∧
    (length (parsed_pages log') ≤ length (parsed_pages log) + length dates)%nat ∧
    (paced log → paced log').
Proof.
  induction dates as [|[date_val date_txt] dates IH]; intros st log.
  - simpl. split_and!; [lia|lia|lia|done].
  - cbv zeta. rewrite post_loop_cons. cbv zeta.
    set (log1 := (log ++ [Slept REQUEST_DELAY]) ++ [Sent _]).
    assert (requests_sent log1 = S (requests_sent log)) as Hsent.
    { unfold log1. rewrite !requests_sent_snoc. simpl. lia. }
    assert (length (posted_dates log1) = S (length (posted_dates log))) as Hposted.
    { unfold log1. rewrite !posted_dates_snoc, posted_form, !length_app. simpl. lia. }
    assert (parsed_pages log1 = parsed_pages log) as Hparsed.
    { unfold log1. rewrite !parsed_pages_snoc. simpl. by rewrite !app_nil_r. }
    assert (paced log → paced log1) as Hpaced by apply paced_post.
    destruct (client _) as [|status_code post_soup]; simpl.
    { rewrite Hsent, Hposted, Hparsed. split_and!; [lia|lia|lia|done]. }
    destruct (negb (status_code =? 200)); simpl.
    { rewrite Hsent, Hposted, Hparsed. split_and!; [lia|lia|lia|done]. }
    match goal with |- context [post_loop client url dates ?s ?l] =>
      destruct (IH s l) as (H1 & H2 & H3 & H4) end.
    rewrite requests_sent_snoc, posted_dates_snoc, parsed_pages_snoc, !length_app in *.
    simpl in *. rewrite Hsent, Hposted, Hparsed in *. split_and!; [lia|lia|lia|].
    intros Hlog. apply H4, paced_snoc; [done|by apply Hpaced].
Qed.

Lemma length_truncate_days l : (length (truncate_days l) ≤ 5)%nat.
Proof.
  unfold truncate_days. change (MAX_DAYS_TO_SCRAPE =? 0) with false. cbv iota.
  change (Z.to_nat MAX_DAYS_TO_SCRAPE) with 5%nat. rewrite length_take. lia.
Qed.

(** The trace of a walk, by what the first request comes back with. *)
Lemma walk_log url :
  let log := (scrape_aggregated_showtimes client raises_for_status url).2 in
  log = [Sent (Get url)] ∨
  ∃ page (rest : list (string * string)) st,
    (length rest ≤ 4)%nat ∧
    log = (post_loop client url rest st [Sent (Get url); Parsed page]).2.
Proof.
  cbv zeta.
  remember (scrape_aggregated_showtimes client raises_for_status url) as res eqn:Hres.
  unfold scrape_aggregated_showtimes, walk_dates in Hres. unfold bind at 1 in Hres.
  destruct (client 0%nat) as [|status_code page] eqn:Hc.
  { left. unfold send in Hres. change (requests_sent []) with 0%nat in Hres.
    rewrite Hc in Hres. by subst res. }
  rewrite (send_response _ _ _ status_code page) in Hres by done.
  unfold bind at 1 in Hres.
  destruct (raises_for_status status_code); [left; by subst res|].
  unfold ret at 1 in Hres.
  destruct (date_dropdown page) as [options|]; [|left; by subst res].
  pose proof (length_truncate_days (selectable options)) as Hlen.
  destruct (truncate_days (selectable options)) as [|[first_val first_txt] rest];
    [left; by subst res|].
  right. unfold bind at 1 in Hres. rewrite parse_step in Hres. unfold bind at 1 in Hres.
  change (([] ++ [Sent (Get url)]) ++ [Parsed page]) with [Sent (Get url); Parsed page] in Hres.
  exists page, rest,
    (LoopState (token (viewstate_field page)) (token (eventvalidation_field page))
               (od_set first_txt (table_of page) [])).
  split; [simpl in Hlen; lia|]. subst res. unfold ret.
  by destruct (post_loop _ _ _ _ _) as [[st'|] log'].
Qed.

(** X18: whatever the server answers, a walk sends at most
    [MAX_DAYS_TO_SCRAPE] requests (the initial one and at most four
    postbacks), extracts showtimes from at most five pages, and every
    postback directly follows a pause of [REQUEST_DELAY] seconds. *)
Theorem walk_is_bounded_and_paced url :
  let log := (scrape_aggregated_showtimes client raises_for_status url).2 in
  (Z.of_nat (requests_sent log) ≤ MAX_DAYS_TO_SCRAPE) ∧
  (length (posted_dates log) ≤ 4)%nat ∧
  (length (parsed_pages log) ≤ 5)%nat ∧
  paced log.
Proof.
  cbv zeta. destruct (walk_log url) as [->|(page & rest & st & Hlen & ->)].
  - split_and!; [done|simpl; lia|simpl; lia|].
    apply (paced_snoc []); [done|apply paced_nil].
  - destruct (post_loop_bounds url rest st [Sent (Get url); Parsed page])
      as (H1 & H2 & H3 & H4).
    simpl in H1, H2, H3. unfold MAX_DAYS_TO_SCRAPE. split_and!; [lia|lia|lia|].
    apply H4. apply (paced_snoc [Sent (Get url)]); [done|].
    apply (paced_snoc []); [done|apply paced_nil].
Qed.

(** The loop while its postbacks succeed. *)
Lemma post_loop_successes url pages :
  ∀ dates st log,
    (length pages ≤ length dates)%nat →
    (∀ i p, pages !! i = Some p → client (requests_sent log + i) = Response 200 p) →
    ∃ st' log' forms,
      post_loop client url dates st log
        = post_loop client url (drop (length pages) dates) st' log' ∧
      all_dates_data st' =
        foldl assign (all_dates_data st)
              (zip (snd <$> take (length pages) dates) (table_of <$> pages)) ∧
      requests_sent log' = (requests_sent log + length pages)%nat ∧
      posted_dates log' = posted_dates log ++ (fst <$> take (length pages) dates) ∧
      parsed_pages log' = parsed_pages log ++ pages ∧
      posted_forms log' = posted_forms log ++ forms ∧
      length forms = length pages ∧
      ∀ i date_val date_txt,
        dates !! i = Some (date_val, date_txt) → (i < length pages)%nat →
        forms !! i =
          Some (form_data
                  (foldl (λ tok p, refresh tok (viewstate_field p)) (viewstate st) (take i pages))
                  (foldl (λ tok p, refresh tok (eventvalidation_field p))
                         (eventvalidation st) (take i pages))
                  date_val).
Proof.
  induction pages as [|p pages IH]; intros dates st log Hlen Hok.
  - exists st, log, []. simpl. rewrite drop_0, !app_nil_r, Nat.add_0_r.
    split_and!; try done. intros i ? ? _ Hi. lia.
  - destruct dates as [|[date_val date_txt] dates]; simpl in Hlen; [lia|].
    rewrite post_loop_cons. cbv zeta.
    pose proof (Hok 0%nat p eq_refl) as Hp.
    replace (requests_sent log + 0)%nat with (S (requests_sent log) - 1)%nat in Hp by lia.
    rewrite Hp. simpl negb. cbv iota.
    set (data := form_data (viewstate st) (eventvalidation st) date_val).
    set (log1 := ((log ++ [Slept REQUEST_DELAY]) ++ [Sent (Post url data)]) ++ [Parsed p]).
    set (st1 := LoopState _ _ _).
    assert (requests_sent log1 = S (requests_sent log)) as Hsent.
    { unfold log1. rewrite !requests_sent_snoc. simpl. lia. }
    destruct (IH dates st1 log1) as (st' & log' & forms & Hloop & Hdata & Hreq & Hposted
                                      & Hparsed & Hforms & Hcount & Hform); [lia| |].
    { intros i q Hq. rewrite Hsent, <- (Hok (S i) q Hq). f_equal. lia. }
    exists st', log', (data :: forms). split_and!.
    + exact Hloop.
    + by rewrite Hdata.
    + rewrite Hreq, Hsent. simpl. lia.
    + rewrite Hposted. unfold log1, data.
      rewrite !posted_dates_snoc, posted_form. simpl. by rewrite !app_nil_r, <- app_assoc.
    + rewrite Hparsed. unfold log1. rewrite !parsed_pages_snoc. simpl.
      by rewrite !app_nil_r, <- app_assoc.
    + rewrite Hforms. unfold log1. rewrite !posted_forms_snoc. simpl.
      by rewrite !app_nil_r, <- app_assoc.
    + simpl. by rewrite Hcount.
    + intros [|i] dv dt Hd Hi; simpl in Hd.
      * by injection Hd as <- <-.
      * simpl in Hi. simpl. apply (Hform i dv dt Hd). lia.
Qed.

(** X19: when the initial request fails in the transport, or its response
    has a status [raise_for_status] raises on, the walker returns the
    sentinel after that one request, whatever the page holds. *)
Theorem failed_first_request_is_sentinel url :
  (client 0%nat = Failed ∨
   ∃ status_code page, client 0%nat = Response status_code page ∧
                       raises_for_status status_code = true) →
  scrape_aggregated_showtimes client raises_for_status url = ("N/A", [Sent (Get url)]).
Proof.
  unfold scrape_aggregated_showtimes, walk_dates. unfold bind at 1.
  intros [Hc|(status_code & page & Hc & Hraises)].
  - unfold send. change (requests_sent []) with 0%nat. by rewrite Hc.
  - rewrite (send_response _ _ _ status_code page) by done.
    unfold bind at 1. by rewrite Hraises.
Qed.

(** X20: when a postback fails in the transport (the request raises, as
    opposed to coming back with a status), the walker returns the sentinel:
    the dates collected from the first page and from the postbacks before
    it are dropped, unlike after a response with a bad status. *)
Theorem raised_postback_drops_collected url status_code page0 options
    first_val first_txt rest pages :
  client 0%nat = Response status_code page0 →
  raises_for_status status_code = false →
  date_dropdown page0 = Some options →
  truncate_days (selectable options) = (first_val, first_txt) :: rest →
  (length pages < length rest)%nat →
  (∀ i p, pages !! i = Some p → client (S i) = Response 200 p) →
  client (S (length pages)) = Failed →
  ∃ log,
    scrape_aggregated_showtimes client raises_for_status url = ("N/A", log) ∧
    posted_dates log = fst <$> take (S (length pages)) rest ∧
    parsed_pages log = page0 :: pages.
Proof.
  intros Hreply Hstatus Hsome Hdates Hlen Hok Hfail.
  set (log1 := ([] ++ [Sent (Get url)]) ++ [Parsed page0]).
  set (st1 := LoopState (token (viewstate_field page0))
                        (token (eventvalidation_field page0))
                        (od_set first_txt (table_of page0) [])).
  destruct (post_loop_successes url pages rest st1 log1)
    as (st' & log' & forms & Hloop & _ & Hreq & Hposted & Hparsed & _); [lia| |].
  { intros i p Hp. by apply Hok. }
  destruct (drop (length pages) rest) as [|[date_val date_txt] rest'] eqn:Hdrop.
  { apply (f_equal length) in Hdrop. rewrite length_drop in Hdrop. simpl in Hdrop. lia. }
  rewrite post_loop_cons in Hloop. cbv zeta in Hloop.
  replace (S (requests_sent log') - 1)%nat with (S (length pages)) in Hloop
    by (rewrite Hreq; simpl; lia).
  rewrite Hfail in Hloop.
  eexists. split_and!.
  - unfold scrape_aggregated_showtimes, walk_dates.
    unfold bind at 1. rewrite (send_response _ _ _ status_code page0) by done.
    unfold bind at 1. rewrite Hstatus. unfold ret at 1. rewrite Hsome, Hdates.
    unfold bind at 1. rewrite parse_step.
    unfold bind at 1. fold log1. fold st1. rewrite Hloop. reflexivity.
  - rewrite !posted_dates_snoc, Hposted, posted_form.
    rewrite (take_S_r _ _ (date_val, date_txt)).
    + rewrite fmap_app. unfold log1. simpl. by rewrite app_nil_r.
    + rewrite <- (Nat.add_0_r (length pages)), <- lookup_drop. by rewrite Hdrop.
  - rewrite !parsed_pages_snoc, Hparsed. unfold log1. simpl. by rewrite !app_nil_r.
Qed.

(** X21: when every postback succeeds, the walk visits every date of the
    selector (up to the first five), the payload holds them all, and each
    postback carries the session tokens of the latest earlier response that
    had them, those of the first page when none had. *)
Theorem complete_walk_threads_tokens url status_code page0 options
    first_val first_txt rest pages :
  client 0%nat = Response status_code page0 →
  raises_for_status status_code = false →
  date_dropdown page0 = Some options →
  truncate_days (selectable options) = (first_val, first_txt) :: rest →
  length pages = length rest →
  (∀ i p, pages !! i = Some p → client (S i) = Response 200 p) →
  ∃ log,
    scrape_aggregated_showtimes client raises_for_status url
      = (json_dumps (restructure (collect (visits first_txt rest page0 pages))), log) ∧
    posted_dates log = fst <$> rest ∧
    parsed_pages log = page0 :: pages ∧
    length (posted_forms log) = length rest ∧
    ∀ i date_val date_txt,
      rest !! i = Some (date_val, date_txt) →
      posted_forms log !! i =
        Some (form_data (threaded viewstate_field page0 (take i pages))
                        (threaded eventvalidation_field page0 (take i pages))
                        date_val).
Proof.
  intros Hreply Hstatus Hsome Hdates Hlen Hok.
  set (log1 := ([] ++ [Sent (Get url)]) ++ [Parsed page0]).
  set (st1 := LoopState (token (viewstate_field page0))
                        (token (eventvalidation_field page0))
                        (od_set first_txt (table_of page0) [])).
  destruct (post_loop_successes url pages rest st1 log1)
    as (st' & log' & forms & Hloop & Hdata & Hreq & Hposted & Hparsed & Hforms & Hcount
        & Hform); [lia| |].
  { intros i p Hp. by apply Hok. }
  rewrite Hlen, drop_all in Hloop. simpl in Hloop.
  exists log'. split_and!.
  - unfold scrape_aggregated_showtimes, walk_dates.
    unfold bind at 1. rewrite (send_response _ _ _ status_code page0) by done.
    unfold bind at 1. rewrite Hstatus. unfold ret at 1. rewrite Hsome, Hdates.
    unfold bind at 1. rewrite parse_step.
    unfold bind at 1. fold log1. fold st1. rewrite Hloop. unfold ret.
    do 3 f_equal. by rewrite Hdata.
  - rewrite Hposted, Hlen, firstn_all. done.
  - by rewrite Hparsed.
  - rewrite Hforms. simpl. by rewrite Hcount.
  - intros i dv dt Hd. rewrite Hforms. simpl. apply (Hform i dv dt Hd).
    rewrite Hlen. by eapply lookup_lt_Some.
Qed.

End any_client.

Lemma failed_first_request_is_sentinel_witness :
  (dead_client 0%nat = Failed ∨
   ∃ status_code page, dead_client 0%nat = Response status_code page ∧
                       httpx_raises status_code = true) ∧
  scrape_aggregated_showtimes dead_client httpx_raises "/showtimes"
    = ("N/A", [Sent (Get "/showtimes")]).
Proof.
  assert (dead_client 0%nat = Failed ∨
          ∃ status_code page, dead_client 0%nat = Response status_code page ∧
                              httpx_raises status_code = true) as Hfirst.
  { left. reflexivity. }
  split; [exact Hfirst|].
  exact (failed_first_request_is_sentinel dead_client httpx_raises "/showtimes" Hfirst).
Defined.

Lemma raised_postback_drops_collected_witness :
  raising_client page_mon 0%nat = Response 200 page_mon ∧
  httpx_raises 200 = false ∧
  date_dropdown page_mon
    = Some [(Some "1", "Mon"); (Some "2", "Tue"); (Some "3", "Wed")] ∧
  truncate_days (selectable [(Some "1", "Mon"); (Some "2", "Tue"); (Some "3", "Wed")])
    = ("1", "Mon") :: [("2", "Tue"); ("3", "Wed")] ∧
  (length [page_tue] < length [("2", "Tue"); ("3", "Wed")])%nat ∧
  (∀ i p, [page_tue] !! i = Some p → raising_client page_mon (S i) = Response 200 p) ∧
  raising_client page_mon (S (length [page_tue])) = Failed ∧
  ∃ log,
    scrape_aggregated_showtimes (raising_client page_mon) httpx_raises "/showtimes"
      = ("N/A", log) ∧
    posted_dates log = fst <$> take (S (length [page_tue])) [("2", "Tue"); ("3", "Wed")] ∧
    parsed_pages log = page_mon :: [page_tue].
Proof.
  assert (∀ i p, [page_tue] !! i = Some p →
                 raising_client page_mon (S i) = Response 200 p) as Hok.
  { intros [|i] p Hp; simpl in Hp; [by injection Hp as <-|done]. }
  split_and!; [reflexivity|reflexivity|reflexivity|reflexivity|simpl; lia|exact Hok
              |reflexivity|].
  apply (raised_postback_drops_collected (raising_client page_mon) httpx_raises
           "/showtimes" 200 page_mon
           [(Some "1", "Mon"); (Some "2", "Tue"); (Some "3", "Wed")]
           "1" "Mon" [("2", "Tue"); ("3", "Wed")] [page_tue]);
    [reflexivity|reflexivity|reflexivity|reflexivity|simpl; lia|exact Hok|reflexivity].
Defined.

Lemma complete_walk_threads_tokens_witness :
  succeeding_client page_mon 0%nat = Response 200 page_mon ∧
  httpx_raises 200 = false ∧
  date_dropdown page_mon
    = Some [(Some "1", "Mon"); (Some "2", "Tue"); (Some "3", "Wed")] ∧
  truncate_days (selectable [(Some "1", "Mon"); (Some "2", "Tue"); (Some "3", "Wed")])
    = ("1", "Mon") :: [("2", "Tue"); ("3", "Wed")] ∧
  length [page_tue; page_tue] = length [("2", "Tue"); ("3", "Wed")] ∧
  (∀ i p, [page_tue; page_tue] !! i = Some p →
          succeeding_client page_mon (S i) = Response 200 p) ∧
  ∃ log,
    scrape_aggregated_showtimes (succeeding_client page_mon) httpx_raises "/showtimes"
      = (json_dumps (restructure (collect (visits "Mon" [("2", "Tue"); ("3", "Wed")]
                                                  page_mon [page_tue; page_tue]))), log) ∧
    posted_dates log = fst <$> [("2", "Tue"); ("3", "Wed")] ∧
    parsed_pages log = page_mon :: [page_tue; page_tue] ∧
    length (posted_forms log) = length [("2", "Tue"); ("3", "Wed")] ∧
    ∀ i date_val date_txt,
      [("2", "Tue"); ("3", "Wed")] !! i = Some (date_val, date_txt) →
      posted_forms log !! i =
        Some (form_data (threaded viewstate_field page_mon (take i [page_tue; page_tue]))
                        (threaded eventvalidation_field page_mon (take i [page_tue; page_tue]))
                        date_val).
Proof.
  assert (∀ i p, [page_tue; page_tue] !! i = Some p →
                 succeeding_client page_mon (S i) = Response 200 p) as Hok.
  { intros [|[|i]] p Hp; simpl in Hp; [by injection Hp as <-|by injection Hp as <-|done]. }
  split_and!; [reflexivity|reflexivity|reflexivity|reflexivity|reflexivity|exact Hok|].
  apply (complete_walk_threads_tokens (succeeding_client page_mon) httpx_raises
           "/showtimes" 200 page_mon
           [(Some "1", "Mon"); (Some "2", "Tue"); (Some "3", "Wed")]
           "1" "Mon" [("2", "Tue"); ("3", "Wed")] [page_tue; page_tue]);
    [reflexivity|reflexivity|reflexivity|reflexivity|reflexivity|exact Hok].
Defined.

(** The tokens of the sample walk, run: the first postback carries those of
    the first page, the second the view state the first postback returned
    and, that response having no validation field, the old validation. *)
Example sample_tokens :
  posted_forms
    (scrape_aggregated_showtimes (succeeding_client page_mon) httpx_raises "/showtimes").2
  = [form_data (Some "vs0") (Some "ev0") "2"; form_data (Some "vs1") (Some "ev0") "3"].
Proof. vm_compute. reflexivity. Qed.

End WalkMore.

(* ===================================================================== *)
(** ** The record builder: properties *)
(* ===================================================================== *)

Module DetailsSpec.
Import Py PyFacts Details.

Lemma append_cons c a b : String c a +:+ b = String c (a +:+ b).
Proof. reflexivity. Qed.

Lemma append_empty b : EmptyString +:+ b = b.
Proof. reflexivity. Qed.

(** *** The file name of a poster *)







(** X23 ([download_image], lines 49-63). Once the directory exists, a
    failure of the request, of the status check, of [open] or of the write
    never leaves the function and never yields a path: the call returns
    [None]. *)
Theorem download_image_failure_is_none reply raises_for_status open_raises write_raises
    image_url save_dir :
  reply = FetchFailed ∨
  (∃ status_code content, reply = Fetched status_code content ∧
                          raises_for_status status_code = true) ∨
  open_raises = true ∨ write_raises = true →
  (download_image false reply raises_for_status open_raises write_raises
                  image_url save_dir).1 = Returned None.
Proof.
  intros Hfail. unfold download_image. destruct image_url as [url|]; [|done].
  destruct (_ || _); [done|]. destruct reply as [|status_code content]; [done|].
  destruct (raises_for_status status_code) eqn:Hstatus; [done|].
  destruct open_raises; [done|]. destruct write_raises; [done|].
  destruct Hfail as [?|[(c & content' & [= <- <-] & Hc)|[?|?]]]; try done.
  by rewrite Hstatus in Hc.
Qed.

Lemma download_image_failure_is_none_witness :
  (Fetched 404 "gone" = FetchFailed ∨
   (∃ status_code content, Fetched 404 "gone" = Fetched status_code content ∧
                           (400 <=? status_code) = true) ∨
   false = true ∨ false = true) ∧
  (download_image false (Fetched 404 "gone") (λ c, 400 <=? c) false false
                  (Some "https://cdn.example/posters/dune.jpg") "images/2024_05").1
    = Returned None.
Proof.
  assert (Fetched 404 "gone" = FetchFailed ∨
          (∃ status_code content, Fetched 404 "gone" = Fetched status_code content ∧
                                  (400 <=? status_code) = true) ∨
          false = true ∨ false = true) as Hfail.
  { right. left. exists 404, "gone". split; reflexivity. }
  split; [exact Hfail|].
  exact (download_image_failure_is_none (Fetched 404 "gone") (λ c, 400 <=? c) false false
           (Some "https://cdn.example/posters/dune.jpg") "images/2024_05" Hfail).
Defined.

(** *** The description *)

(** X24 ([main_scraper], line 253). The description is the sentinel when
    no string child of the container is longer than 50 characters once
    stripped; otherwise it is the first such child, stripped. *)
Theorem description_first_long_text children :
  (description children = "N/A" ∧
   ∀ node, Some node ∈ children → len (strip node) ≤ 50) ∨
  ∃ pre node post,
    children = pre ++ Some node :: post ∧
    description children = strip node ∧ 50 < len (strip node) ∧
    ∀ node', Some node' ∈ pre → len (strip node') ≤ 50.
Proof.
  induction children as [|[node|] children IH]; simpl.
  - left. split; [done|]. by intros node ?%elem_of_nil.
  - destruct (50 <? len (strip node)) eqn:Hlong.
    + right. exists [], node, children. split_and!; [done|done|lia|].
      by intros node' ?%elem_of_nil.
    + destruct IH as [[Hna Hall]|(pre & node0 & post & -> & Hd & Hlen & Hpre)].
      * left. split; [done|]. intros node' [[= ->]|Hin]%elem_of_cons; [lia|by apply Hall].
      * right. exists (Some node :: pre), node0, post. split_and!; [done|done|done|].
        intros node' [[= ->]|Hin]%elem_of_cons; [lia|by apply Hpre].
  - destruct IH as [[Hna Hall]|(pre & node0 & post & -> & Hd & Hlen & Hpre)].
    + left. split; [done|]. intros node' [?|Hin]%elem_of_cons; [done|by apply Hall].
    + right. exists (None :: pre), node0, post. split_and!; [done|done|done|].
      intros node' [?|Hin]%elem_of_cons; [done|by apply Hpre].
Qed.

(** *** The running time *)

Lemma all_digits_cons c s : all_digits (String c s) ↔ isdigit c = true ∧ all_digits s.
Proof. unfold all_digits. simpl. by rewrite Forall_cons. Qed.

Lemma no_digit_cons c s : no_digit (String c s) ↔ isdigit c = false ∧ no_digit s.
Proof. unfold no_digit. simpl. by rewrite Forall_cons. Qed.

Lemma span_digits_run ds c rest :
  all_digits ds → isdigit c = false →
  span_digits (ds +:+ String c rest) = (ds, String c rest).
Proof.
  intros Hds Hc. induction ds as [|d ds IH].
  - rewrite append_empty. simpl. by rewrite Hc.
  - apply all_digits_cons in Hds as [Hd Hds]. rewrite append_cons. simpl.
    by rewrite Hd, (IH Hds).
Qed.

Lemma search_count_skip word pre s :
  no_digit pre → search_count word (pre +:+ s) = search_count word s.
Proof.
  induction pre as [|c pre IH]; intros Hpre; [done|].
  apply no_digit_cons in Hpre as [Hc Hpre]. rewrite append_cons. simpl.
  rewrite Hc. by apply IH.
Qed.

Lemma search_count_none word s : no_digit s → search_count word s = None.
Proof.
  induction s as [|c s IH]; intros Hs; [done|].
  apply no_digit_cons in Hs as [Hc Hs]. simpl. rewrite Hc. by apply IH.
Qed.

Lemma search_count_miss word ds c rest :
  all_digits ds → isdigit c = false →
  starts_with_ci word (lstrip (String c rest)) = false →
  search_count word (ds +:+ String c rest) = search_count word (String c rest).
Proof.
  intros Hds Hc Hmiss. induction ds as [|d ds IH]; [done|].
  pose proof Hds as [Hd Hds']%all_digits_cons.
  rewrite append_cons.
  change (search_count word (String d (ds +:+ String c rest)))
    with (if isdigit d then
            let '(run, after) := span_digits (String d (ds +:+ String c rest)) in
            if starts_with_ci word (lstrip after) then Some run
            else search_count word (ds +:+ String c rest)
          else search_count word (ds +:+ String c rest)).
  rewrite Hd, <- append_cons, (span_digits_run _ _ _ Hds Hc), Hmiss. by apply IH.
Qed.

Lemma search_count_hit word ds c rest :
  all_digits ds → ds ≠ EmptyString → isdigit c = false →
  starts_with_ci word (lstrip (String c rest)) = true →
  search_count word (ds +:+ String c rest) = Some ds.
Proof.
  intros Hds Hne Hc Hhit. destruct ds as [|d ds]; [done|].
  pose proof Hds as [Hd Hds']%all_digits_cons.
  rewrite append_cons.
  change (search_count word (String d (ds +:+ String c rest)))
    with (if isdigit d then
            let '(run, after) := span_digits (String d (ds +:+ String c rest)) in
            if starts_with_ci word (lstrip after) then Some run
            else search_count word (ds +:+ String c rest)
          else search_count word (ds +:+ String c rest)).
  by rewrite Hd, <- append_cons, (span_digits_run _ _ _ Hds Hc), Hhit.
Qed.

Lemma span_digits_length s : (String.length (span_digits s).1 ≤ String.length s)%nat.
Proof.
  induction s as [|c s IH]; simpl; [done|].
  destruct (isdigit c); [|simpl; lia].
  destruct (span_digits s) as [ds rest]. simpl in *. lia.
Qed.

Lemma search_count_length word s ds :
  search_count word s = Some ds → (String.length ds ≤ String.length s)%nat.
Proof.
  induction s as [|c s IH]; [done|].
  change (search_count word (String c s))
    with (if isdigit c then
            let '(run, after) := span_digits (String c s) in
            if starts_with_ci word (lstrip after) then Some run
            else search_count word s
          else search_count word s).
  pose proof (span_digits_length (String c s)) as Hspan.
  destruct (isdigit c).
  - destruct (span_digits (String c s)) as [run after].
    destruct (starts_with_ci word (lstrip after)).
    + intros [= <-]. exact Hspan.
    + intros Hs. apply IH in Hs. simpl. lia.
  - intros Hs. apply IH in Hs. simpl. lia.
Qed.

Lemma int_of_digits_within max_str_digits ds :
  (max_str_digits = 0 ∨ String.length ds ≤ max_str_digits)%nat →
  int_of_digits max_str_digits ds = Some (digits_value ds).
Proof.
  intros Hlimit. unfold int_of_digits.
  destruct (negb (max_str_digits =? 0)%nat && (max_str_digits <? String.length ds)%nat)
    eqn:Hover; [|done].
  apply andb_true_iff in Hover as [Hpos Hlt].
  apply negb_true_iff, Nat.eqb_neq in Hpos. apply Nat.ltb_lt in Hlt. lia.
Qed.

(** X25 ([main_scraper], lines 262-265). A text of the running time that
    is not longer than the limit of [int] on digit strings never raises,
    and gives the sentinel or a strictly positive number of minutes. *)
Theorem running_time_within_limit max_str_digits rt_str :
  (max_str_digits = 0 ∨ String.length rt_str ≤ max_str_digits)%nat →
  ∃ v, running_time max_str_digits rt_str = Some v ∧
       (v = VStr "N/A" ∨ ∃ n, v = VInt n ∧ 0 < n).
Proof.
  intros Hlimit.
  assert (∀ word ds, search_count word rt_str = Some ds →
                     int_of_digits max_str_digits ds = Some (digits_value ds)) as Hint.
  { intros word ds Hs%search_count_length. apply int_of_digits_within. lia. }
  unfold running_time.
  assert (∃ h, match search_count "Hour" rt_str with
               | Some ds => n ← int_of_digits max_str_digits ds; Some (n * 60)
               | None => Some 0
               end = Some h) as [h ->].
  { destruct (search_count "Hour" rt_str) as [dh|] eqn:Hh; [|by eauto].
    rewrite (Hint _ _ Hh). by eauto. }
  assert (∃ m, match search_count "Minute" rt_str with
               | Some ds => int_of_digits max_str_digits ds
               | None => Some 0
               end = Some m) as [m ->].
  { destruct (search_count "Minute" rt_str) as [dm|] eqn:Hm; [|by eauto].
    rewrite (Hint _ _ Hm). by eauto. }
  change (∃ v, Some (if 0 <? h + m then VInt (h + m) else VStr "N/A") = Some v ∧
               (v = VStr "N/A" ∨ ∃ n, v = VInt n ∧ 0 < n)).
  destruct (0 <? h + m) eqn:Hpos.
  - eexists. split; [reflexivity|]. right. eexists. split; [reflexivity|lia].
  - eexists. split; [reflexivity|]. by left.
Qed.

Lemma running_time_within_limit_witness :
  (4300 = 0 ∨ String.length "1 Hour 52 Minutes" ≤ 4300)%nat ∧
  ∃ v, running_time 4300 "1 Hour 52 Minutes" = Some v ∧
       (v = VStr "N/A" ∨ ∃ n, v = VInt n ∧ 0 < n).
Proof.
  assert (4300 = 0 ∨ String.length "1 Hour 52 Minutes" ≤ 4300)%nat as Hlimit.
  { right. simpl. lia. }
  split; [exact Hlimit|].
  exact (running_time_within_limit 4300 "1 Hour 52 Minutes" Hlimit).
Defined.

(** X26 ([main_scraper], lines 262-265). A text written as a count, the
    word for hours, then a count and the word for minutes, gives sixty
    times the first count plus the second, and the sentinel when that is
    zero; what stands between the two (without digits) and after the
    second word does not matter. *)
Theorem running_time_hours_minutes max_str_digits dh dm mid rest :
  all_digits dh → dh ≠ EmptyString → all_digits dm → dm ≠ EmptyString →
  no_digit mid →
  (max_str_digits = 0 ∨
   String.length dh ≤ max_str_digits ∧ String.length dm ≤ max_str_digits)%nat →
  running_time max_str_digits
    (dh +:+ (" Hour" +:+ (mid +:+ (dm +:+ (" Minute" +:+ rest)))))
  = Some (if 0 <? digits_value dh * 60 + digits_value dm
          then VInt (digits_value dh * 60 + digits_value dm)
          else VStr "N/A").
Proof.
  intros Hdh Hneh Hdm Hnem Hmid Hlimit.
  set (minutes := dm +:+ String " " ("Minute" +:+ rest)).
  assert (search_count "Hour" (dh +:+ String " " ("Hour" +:+ (mid +:+ minutes)))
          = Some dh) as Hhour.
  { by apply search_count_hit. }
  assert (search_count "Minute" (dh +:+ String " " ("Hour" +:+ (mid +:+ minutes)))
          = Some dm) as Hminute.
  { rewrite search_count_miss by done.
    change (String " " ("Hour" +:+ (mid +:+ minutes)))
      with (" Hour" +:+ (mid +:+ minutes)).
    rewrite search_count_skip by (unfold no_digit; simpl; by repeat constructor).
    rewrite search_count_skip by done.
    by apply search_count_hit. }
  unfold running_time.
  change (dh +:+ (" Hour" +:+ (mid +:+ (dm +:+ (" Minute" +:+ rest)))))
    with (dh +:+ String " " ("Hour" +:+ (mid +:+ minutes))).
  rewrite Hhour, Hminute.
  rewrite !int_of_digits_within by lia. reflexivity.
Qed.

Lemma running_time_hours_minutes_witness :
  all_digits "2" ∧ "2" ≠ EmptyString ∧ all_digits "15" ∧ "15" ≠ EmptyString ∧
  no_digit "s " ∧
  (4300 = 0 ∨ String.length "2" ≤ 4300 ∧ String.length "15" ≤ 4300)%nat ∧
  running_time 4300 "2 Hours 15 Minutes" = Some (VInt 135).
Proof.
  assert (all_digits "2") as H1 by (unfold all_digits; simpl; by repeat constructor).
  assert ("2" ≠ EmptyString) as H2 by done.
  assert (all_digits "15") as H3 by (unfold all_digits; simpl; by repeat constructor).
  assert ("15" ≠ EmptyString) as H4 by done.
  assert (no_digit "s ") as H5 by (unfold no_digit; simpl; by repeat constructor).
  assert (4300 = 0 ∨ String.length "2" ≤ 4300 ∧ String.length "15" ≤ 4300)%nat as H6.
  { right. simpl. lia. }
  split_and!; [exact H1|exact H2|exact H3|exact H4|exact H5|exact H6|].
  exact (running_time_hours_minutes 4300 "2" "15" "s " "s" H1 H2 H3 H4 H5 H6).
Defined.

(** X27 ([main_scraper], lines 262-265). A text without a digit, the
    sentinel of a page that names no running time among them, gives the
    sentinel, whatever the limit of [int]. *)
Theorem running_time_without_digit max_str_digits rt_str :
  no_digit rt_str → running_time max_str_digits rt_str = Some (VStr "N/A").
Proof.
  intros Hrt. unfold running_time. by rewrite !search_count_none.
Qed.

Lemma running_time_without_digit_witness :
  no_digit "N/A" ∧ running_time 4300 "N/A" = Some (VStr "N/A").
Proof.
  assert (no_digit "N/A") as Hrt by (unfold no_digit; simpl; by repeat constructor).
  split; [exact Hrt|].
  exact (running_time_without_digit 4300 "N/A" Hrt).
Defined.

End DetailsSpec.

(* ===================================================================== *)
(** ** The reconciler, run twice *)
(* ===================================================================== *)

Module MergeTwice.
Import Py PyFacts Merge MergeFacts Sheet Props Samples MergeMore.

Lemma od_set_absent {K V} `{EqDecision K} (k : K) (v : V) (d : odict K V) :
  k ∉ od_keys d → od_set k v d = d ++ [(k, v)].
Proof.
  induction d as [|[k' v'] d IH]; simpl; [done|].
  rewrite not_elem_of_cons. intros [Hne Hk]. rewrite decide_False by done.
  by rewrite IH.
Qed.

Lemma od_get_elems {K V} `{EqDecision K} (a b : odict K V) k :
  od_wf a → od_wf b → (∀ k v, (k, v) ∈ a ↔ (k, v) ∈ b) → od_get k a = od_get k b.
Proof.
  intros Ha Hb Hab. destruct (od_get k a) as [v|] eqn:Hga.
  - symmetry. apply od_elem_get; [done|]. apply Hab. by apply od_get_Some_elem.
  - destruct (od_get k b) as [v|] eqn:Hgb; [|done].
    apply od_get_Some_elem, Hab in Hgb. apply (od_elem_get _ _ _ Ha) in Hgb. congruence.
Qed.

Lemma od_ext {K V} `{EqDecision K} (a b : odict K V) :
  od_wf a → od_keys a = od_keys b → (∀ k, od_get k a = od_get k b) → a = b.
Proof.
  revert b. induction a as [|[k v] a IH]; intros [|[k' v'] b]; try done.
  intros Hnd Hkeys Hget. injection Hkeys as <- Hkeys.
  apply NoDup_cons in Hnd as [Hk Hnd].
  pose proof (Hget k) as Hkk. simpl in Hkk. rewrite !decide_True in Hkk by done.
  injection Hkk as <-. f_equal. apply IH; [done|done|].
  intros k0. destruct (decide (k0 = k)) as [->|Hne].
  - rewrite (proj2 (od_get_None k a)) by done.
    rewrite (proj2 (od_get_None k b)); [done|]. by rewrite <- Hkeys.
  - specialize (Hget k0). simpl in Hget. by rewrite !decide_False in Hget.
Qed.

Lemma sorted_of_Sorted {A} (key : A → value) l :
  Sorted (ascending key) l → sorted key l = Some l.
Proof.
  induction 1 as [|x l Hs IH Hhd]; simpl; [done|].
  rewrite IH. simpl. destruct Hhd as [|y l' Hxy]; simpl; [done|].
  unfold ascending in Hxy. by rewrite Hxy.
Qed.

(** *** The cell a batch leaves *)

Lemma cell_after_cons t key m l x :
  cell_after t key (m :: l) x =
  cell_after t key l
    (if decide (m !! "Movie Title" = Some t) then cell_step key m x else x).
Proof. reflexivity. Qed.

Lemma cell_after_app t key l1 l2 x :
  cell_after t key (l1 ++ l2) x = cell_after t key l2 (cell_after t key l1 x).
Proof. apply foldl_app. Qed.

Lemma cell_after_other t key l x :
  Forall (λ m : record, m !! "Movie Title" ≠ Some t) l → cell_after t key l x = x.
Proof.
  induction 1 as [|m l Hm _ IH]; [done|].
  by rewrite cell_after_cons, decide_False.
Qed.

Lemma cell_step_shape key m :
  (∀ x, cell_step key m x = x) ∨ (∃ c, ∀ x, cell_step key m x = c).
Proof.
  unfold cell_step. destruct (decide (key = "Scrape Date")); [right; by eauto|].
  unfold field_merge. destruct (m !! key) as [v|]; [|by left].
  destruct (overwrites v); [right; by eauto|by left].
Qed.

Lemma cell_after_shape t key l :
  (∀ x, cell_after t key l x = x) ∨ (∃ c, ∀ x, cell_after t key l x = c).
Proof.
  induction l as [|m l IH]; [by left|].
  destruct IH as [Hid|[c Hc]].
  - destruct (decide (m !! "Movie Title" = Some t)) as [Ht|Ht].
    + destruct (cell_step_shape key m) as [Hs|[c Hs]].
      * left. intros x. by rewrite cell_after_cons, decide_True, Hid, Hs.
      * right. exists c. intros x. by rewrite cell_after_cons, decide_True, Hid, Hs.
    + left. intros x. by rewrite cell_after_cons, decide_False, Hid.
  - right. exists c. intros x. by rewrite cell_after_cons, Hc.
Qed.

Lemma cell_after_idem t key l x :
  cell_after t key l (cell_after t key l x) = cell_after t key l x.
Proof.
  destruct (cell_after_shape t key l) as [Hid|[c Hc]]; [by rewrite !Hid|by rewrite !Hc].
Qed.

Lemma cell_step_self key (m : record) : cell_step key m (m !! key) = m !! key.
Proof.
  unfold cell_step. destruct (decide (key = "Scrape Date")) as [->|]; [done|].
  unfold field_merge. destruct (m !! key) as [v|]; [|done]. by destruct (overwrites v).
Qed.

Lemma cell_after_new t key (m : record) l :
  cell_after t key l (cell_step key m (cell_after t key l (m !! key)))
  = cell_after t key l (m !! key).
Proof.
  destruct (cell_after_shape t key l) as [Hid|[c Hc]].
  - by rewrite !Hid, cell_step_self.
  - by rewrite !Hc.
Qed.

(** The entry of a title that is in the collection, after the loop. *)
Lemma merge_loop_cells d fresh u t r :
  od_get t d = Some r → merge_loop d fresh = Some u →
  ∃ r', od_get t u = Some r' ∧ ∀ key, r' !! key = cell_after t key fresh (r !! key).
Proof.
  revert d r. induction fresh as [|m fresh IH]; intros d r Hr Hloop; simpl in Hloop.
  - injection Hloop as <-. by exists r.
  - destruct (merge_step d m) as [d1|] eqn:Hstep; simpl in Hloop; [|done].
    destruct (decide (m !! "Movie Title" = Some t)) as [Ht|Ht].
    + destruct (merge_step_lookup_same _ _ _ _ Ht Hstep) as (merged & Hm & Hup).
      rewrite Hr in Hup.
      destruct (IH _ _ Hm Hloop) as (r' & Hr' & Hcells). exists r'. split; [done|].
      intros key. rewrite Hcells, cell_after_cons, decide_True by done.
      by rewrite (update_entry_lookup _ _ _ key Hup).
    + rewrite <- (merge_step_lookup_other _ _ _ _ Ht Hstep) in Hr.
      destruct (IH _ _ Hr Hloop) as (r' & Hr' & Hcells). exists r'. split; [done|].
      intros key. by rewrite Hcells, cell_after_cons, decide_False.
Qed.

(** The entry of a title that is new to the collection, after the loop. *)
Lemma merge_loop_cells_new d pre m post u t :
  od_get t d = None →
  Forall (λ m' : record, m' !! "Movie Title" ≠ Some t) pre →
  m !! "Movie Title" = Some t →
  merge_loop d (pre ++ m :: post) = Some u →
  ∃ r', od_get t u = Some r' ∧ ∀ key, r' !! key = cell_after t key post (m !! key).
Proof.
  intros Hnew Hpre Ht Hloop. rewrite merge_loop_app in Hloop.
  destruct (merge_loop d pre) as [mid|] eqn:Hmid; simpl in Hloop; [|done].
  destruct (merge_step mid m) as [d1|] eqn:Hstep; simpl in Hloop; [|done].
  destruct (merge_step_lookup_same _ _ _ _ Ht Hstep) as (merged & Hm & Hcase).
  rewrite (merge_loop_lookup_other _ _ _ _ Hpre Hmid), Hnew in Hcase. subst merged.
  by apply (merge_loop_cells d1 post u t m).
Qed.

Lemma Exists_first {A} (P : A → Prop) `{∀ x, Decision (P x)} l :
  Exists P l → ∃ pre x post, l = pre ++ x :: post ∧ Forall (λ y, ¬ P y) pre ∧ P x.
Proof.
  induction l as [|y l IH]; intros Hex; [by apply Exists_nil in Hex|].
  destruct (decide (P y)) as [Hy|Hy].
  - by exists [], y, l.
  - apply Exists_cons in Hex as [?|Hex]; [done|].
    destruct (IH Hex) as (pre & x & post & -> & Hpre & Hx).
    exists (y :: pre), x, post. split_and!; [done|by constructor|done].
Qed.

Lemma merge_loop_keys_fixed d fresh d' :
  merge_loop d fresh = Some d' →
  Forall (λ m : record, ∀ t, m !! "Movie Title" = Some t → is_Some (od_get t d)) fresh →
  od_keys d' = od_keys d.
Proof.
  revert d. induction fresh as [|m fresh IH]; intros d Hloop Hall; simpl in Hloop.
  - by injection Hloop as <-.
  - destruct (merge_step d m) as [d1|] eqn:Hstep; simpl in Hloop; [|done].
    apply Forall_cons in Hall as [Hm Hall].
    assert (od_keys d1 = od_keys d) as Hkeys.
    { unfold merge_step in Hstep.
      destruct (m !! "Movie Title") as [title|] eqn:Ht; simpl in Hstep; [|done].
      destruct (Hm title eq_refl) as [target Htarget]. rewrite Htarget in Hstep.
      destruct (update_entry target m) as [target'|]; simpl in Hstep; [|done].
      injection Hstep as <-. rewrite od_keys_set. unfold od_mem. by rewrite Htarget. }
    rewrite (IH d1 Hloop), Hkeys; [done|].
    eapply Forall_impl; [exact Hall|]. intros m' Hm' t Ht. simpl.
    apply od_get_is_Some. rewrite Hkeys. apply od_get_is_Some. by eapply Hm'.
Qed.

(** *** The collection read back from the rows written *)

Lemma od_keys_by_title rows : od_keys (by_title rows) = title_key <$> rows.
Proof. unfold od_keys, by_title. induction rows; csimpl; [done|]. by f_equal. Qed.

Lemma od_values_by_title rows : od_values (by_title rows) = rows.
Proof. unfold od_values, by_title. induction rows; csimpl; [done|]. by f_equal. Qed.

Lemma elem_of_by_title rows k r : (k, r) ∈ by_title rows ↔ r ∈ rows ∧ k = title_key r.
Proof.
  unfold by_title. rewrite list_elem_of_fmap. split.
  - intros (r' & [= -> ->] & Hin). done.
  - intros [Hin ->]. by exists r.
Qed.

Lemma index_by_title_distinct d rows :
  Forall has_title rows → NoDup (od_keys d ++ (title_key <$> rows)) →
  index_by_title d rows = Some (d ++ by_title rows).
Proof.
  intros Hall. revert d. induction Hall as [|r rows [s Hs] _ IH]; intros d Hnd; simpl.
  - by rewrite app_nil_r.
  - rewrite Hs. simpl.
    assert (title_key r = VStr s) as Hk by (unfold title_key; by rewrite Hs).
    rewrite fmap_cons, Hk in Hnd.
    rewrite od_set_absent.
    + rewrite IH.
      * rewrite <- app_assoc. unfold by_title. csimpl. by rewrite Hk.
      * unfold od_keys in *. rewrite map_app. simpl. by rewrite <- app_assoc.
    + apply NoDup_app in Hnd as (_ & Hdisj & _). intros Hin.
      apply (Hdisj _ Hin). left.
Qed.

Lemma by_title_ok rows :
  Forall has_title rows → NoDup (title_key <$> rows) → collection_ok (by_title rows).
Proof.
  intros Hall Hnd. split.
  - unfold od_wf. by rewrite od_keys_by_title.
  - unfold keyed_by_title, by_title. apply Forall_fmap.
    eapply Forall_impl; [exact Hall|]. intros r [s Hs]. simpl.
    unfold title_key. rewrite Hs. simpl. split; [by exists s|done].
Qed.

(** X28 ([merge_data], lines 86-104, with [read_master_sheet], lines 77-84).
    Merging a batch into the collection read from the rows that the merge
    of an equal batch returned gives those rows again: a second run over
    an unchanged listing rewrites the sheet as it is. *)
Theorem merge_data_idempotent existing fresh out :
  inputs_ok existing fresh →
  merge_data existing fresh = Some out →
  merge_data (read_master_sheet (Some out)) fresh = Some out.
Proof.
  intros Hok Hout.
  destruct (merge_data_output existing fresh Hok)
    as (updated & out' & Hloop & Hupd & Hout' & Hperm & Htitles & Hsorted).
  rewrite Hout in Hout'. injection Hout' as <-.
  destruct Hok as [Hex Hfresh]. pose proof Hupd as [Hwf Hkeyed].
  assert (NoDup (title_key <$> out)) as Hnd.
  { rewrite <- Hperm, keyed_title_keys by done. exact Hwf. }
  assert (read_master_sheet (Some out) = by_title out) as ->.
  { unfold read_master_sheet. simpl. by rewrite index_by_title_distinct. }
  pose proof (by_title_ok out Htitles Hnd) as Hd.
  assert (∀ t, od_get t (by_title out) = od_get t updated) as Hsame.
  { intros t. apply od_get_elems; [apply Hd|done|].
    intros k r. rewrite elem_of_by_title, <- Hperm, od_values_elem. split.
    - intros [[k' Hin] ->].
      destruct (keyed_by_title_get k' r updated Hkeyed (od_elem_get _ _ _ Hwf Hin))
        as [_ Hr].
      unfold title_key. by rewrite Hr.
    - intros Hin. split; [by exists k|].
      destruct (keyed_by_title_get k r updated Hkeyed (od_elem_get _ _ _ Hwf Hin))
        as [_ Hr].
      unfold title_key. by rewrite Hr. }
  destruct (merge_loop_ok (by_title out) fresh Hd Hfresh) as (again & Hloop2 & Hagain).
  assert (again = by_title out) as ->.
  { apply od_ext; [apply Hagain| |].
    - apply (merge_loop_keys_fixed _ fresh); [done|].
      apply Forall_forall. intros m Hm t Ht. rewrite Hsame.
      apply (merge_loop_present existing fresh); [done|].
      right. apply Exists_exists. by exists m.
    - intros t.
      destruct (decide (Exists (λ m : record, m !! "Movie Title" = Some t) fresh))
        as [Hex_t|Hno].
      + assert (is_Some (od_get t updated)) as [r Hr].
        { apply (merge_loop_present existing fresh); [done|by right]. }
        pose proof Hr as Hr2. rewrite <- Hsame in Hr2.
        destruct (merge_loop_cells _ _ _ _ _ Hr2 Hloop2) as (r2 & Hget2 & Hcells2).
        rewrite Hget2, Hr2. f_equal. apply map_eq. intros key. rewrite Hcells2.
        destruct (od_get t existing) as [old|] eqn:Hold.
        * destruct (merge_loop_cells _ _ _ _ _ Hold Hloop) as (r1 & Hget1 & Hcells1).
          rewrite Hr in Hget1. injection Hget1 as <-.
          by rewrite Hcells1, cell_after_idem.
        * destruct (Exists_first _ _ Hex_t) as (pre & m & post & -> & Hpre & Hm).
          destruct (merge_loop_cells_new _ _ _ _ _ _ Hold Hpre Hm Hloop)
            as (r1 & Hget1 & Hcells1).
          rewrite Hr in Hget1. injection Hget1 as <-.
          rewrite cell_after_app, (cell_after_other _ _ pre) by done.
          rewrite cell_after_cons, decide_True by done.
          by rewrite Hcells1, cell_after_new.
      + apply (merge_loop_lookup_other _ fresh); [|done].
        apply Forall_forall. intros m Hm Ht. apply Hno, Exists_exists. by exists m. }
  unfold merge_data. rewrite Hloop2. simpl. rewrite od_values_by_title.
  by apply sorted_of_Sorted.
Qed.

Lemma merge_data_idempotent_witness :
  inputs_ok sheet_ba fresh_cb ∧
  merge_data sheet_ba fresh_cb
    = Some [row "Movie A" "Action" "2024-01-01"; row "Movie B" "Drama" "2024-02-01";
            row "Movie C" "Comedy" "2024-02-01"] ∧
  merge_data
    (read_master_sheet
       (Some [row "Movie A" "Action" "2024-01-01"; row "Movie B" "Drama" "2024-02-01";
              row "Movie C" "Comedy" "2024-02-01"]))
    fresh_cb
  = Some [row "Movie A" "Action" "2024-01-01"; row "Movie B" "Drama" "2024-02-01";
          row "Movie C" "Comedy" "2024-02-01"].
Proof.
  assert (inputs_ok sheet_ba fresh_cb) as Hin.
  { split; [apply MergeSpec.sheet_ba_ok|]. repeat constructor; apply MergeSpec.row_is_ok. }
  assert (merge_data sheet_ba fresh_cb
          = Some [row "Movie A" "Action" "2024-01-01"; row "Movie B" "Drama" "2024-02-01";
                  row "Movie C" "Comedy" "2024-02-01"]) as Hout.
  { vm_compute. reflexivity. }
  split; [exact Hin|]. split; [exact Hout|].
  exact (merge_data_idempotent sheet_ba fresh_cb _ Hin Hout).
Defined.

End MergeTwice.
